(** * trading_bot: the event coordination pipeline

    A shallow embedding of the parts of the repository that carry the
    ordering, staleness, debounce and retry logic:

    - [storage/address_repo.py]   the record store ([AddressRecord],
      [AddressRepository]);
    - [trading/time_guard.py]     the recency guard ([TimeGuard]);
    - [wechat_ocr_listener.py]    address normalisation and the records the
      capture loop builds;
    - [scheduler/pipeline.py]     the consumer loop, the decision path, the
      debounce tracker and the bounded retry.

    Conventions of the embedding.

    - A Python [str] is a list of characters ([text]).  The ledger text is
      ASCII; the characters [str.strip] and [str.splitlines] treat specially
      are the ASCII ones.
    - A [datetime] is the record of its calendar fields, as CPython stores
      it; every datetime the program creates comes from
      [datetime.now(timezone.utc)], so the embedding is of datetimes aware
      in UTC.  A [timedelta] is its total number of microseconds.
    - The file behind the store is the [text] it contains.
    - Side effects (log lines, queue traffic, trade attempts, sleeps) are
      recorded as a list of events, oldest first; the clock and the outcome
      of the trade action are inputs.
    - The float configuration values are modelled as exact rationals. *)

From Stdlib Require Import ZArith List String Ascii Bool Lia QArith.
From Stdlib Require Import Permutation Sorted.
From stdpp Require Import gmap strings list.
Import ListNotations.
Open Scope Z_scope.

(** ** Python text primitives *)

Module Py.

Abbreviation text := (list ascii).

(** A string literal as [text]. *)
Definition str (s : string) : text := list_ascii_of_string s.

Definition ord (c : ascii) : Z := Z.of_N (N_of_ascii c).

Definition chr_eqb (a b : ascii) : bool := Ascii.eqb a b.

Definition LF : ascii := ascii_of_N 10.
Definition CR : ascii := ascii_of_N 13.

(** [str.isspace] on ASCII: tab, LF, VT, FF, CR, FS, GS, RS, US, space. *)
Definition is_space (c : ascii) : bool :=
  ((9 <=? ord c) && (ord c <=? 13)) || ((28 <=? ord c) && (ord c <=? 32)).

(** The ASCII line boundaries of [str.splitlines]: LF, VT, FF, CR, FS, GS,
    RS. *)
Definition is_linebreak (c : ascii) : bool :=
  ((10 <=? ord c) && (ord c <=? 13)) || ((28 <=? ord c) && (ord c <=? 30)).

Fixpoint lstrip (s : text) : text :=
  match s with
  | [] => []
  | c :: s' => if is_space c then lstrip s' else s
  end.

Fixpoint rstrip (s : text) : text :=
  match s with
  | [] => []
  | c :: s' =>
      match rstrip s' with
      | [] => if is_space c then [] else [c]
      | kept => c :: kept
      end
  end.

(** [s.strip()] *)
Definition strip (s : text) : text := rstrip (lstrip s).

(** [s.split(sep, maxsplit=1)] for a one-character separator. *)
Fixpoint split_maxsplit1 (sep : ascii) (s : text) : list text :=
  match s with
  | [] => [[]]
  | c :: s' =>
      if chr_eqb c sep then [[]; s']
      else match split_maxsplit1 sep s' with
           | head :: tail => (c :: head) :: tail
           | [] => [[c]]
           end
  end.

(** [s.splitlines()]: [line] is the line being read. CR LF counts as one
    boundary; a final line without a boundary is kept unless it is empty. *)
Fixpoint splitlines_from (line : text) (s : text) : list text :=
  match s with
  | [] => match line with [] => [] | _ => [line] end
  | c :: s' =>
      if is_linebreak c then
        line :: match s' with
                | c' :: s'' =>
                    if chr_eqb c CR && chr_eqb c' LF
                    then splitlines_from [] s''
                    else splitlines_from [] s'
                | [] => splitlines_from [] s'
                end
      else splitlines_from (line ++ [c]) s'
  end.

Definition splitlines (s : text) : list text := splitlines_from [] s.

(** ["\n".join(items)] *)
Fixpoint join_lf (items : list text) : text :=
  match items with
  | [] => []
  | [item] => item
  | item :: rest => item ++ LF :: join_lf rest
  end.

(** [s.replace(c, "")] for a one-character [c]. *)
Definition remove_char (c : ascii) (s : text) : text :=
  List.filter (fun x => negb (chr_eqb x c)) s.

(** [s.lower()] on ASCII. *)
Definition lower_char (c : ascii) : ascii :=
  if (65 <=? ord c) && (ord c <=? 90) then ascii_of_N (N_of_ascii c + 32) else c.

Definition lower (s : text) : text := map lower_char s.

(** [s.startswith(p)] *)
Fixpoint startswith (s p : text) : bool :=
  match p, s with
  | [], _ => true
  | _ :: _, [] => false
  | a :: p', b :: s' => chr_eqb a b && startswith s' p'
  end.

(** [ch in alphabet] *)
Definition char_in (ch : ascii) (alphabet : text) : bool :=
  existsb (chr_eqb ch) alphabet.

(** [len(s)] *)
Definition len (s : text) : Z := Z.of_nat (List.length s).

(** Zero-padded decimal of fixed width, most significant digit first:
    ["%0<width>d" % n] for [0 <= n < 10 ^ width]. *)
Definition digit_char (d : Z) : ascii := ascii_of_N (48 + Z.to_N d).

Fixpoint zfill (width : nat) (n : Z) : text :=
  match width with
  | O => []
  | S w => digit_char ((n / 10 ^ Z.of_nat w) mod 10) :: zfill w n
  end.

Definition digit_val (c : ascii) : option Z :=
  if (48 <=? ord c) && (ord c <=? 57) then Some (ord c - 48) else None.

(** Read exactly [width] decimal digits. *)
Fixpoint parse_digits (width : nat) (acc : Z) (s : text) : option (Z * text) :=
  match width with
  | O => Some (acc, s)
  | S w =>
      match s with
      | c :: s' =>
          match digit_val c with
          | Some d => parse_digits w (acc * 10 + d) s'
          | None => None
          end
      | [] => None
      end
  end.

(** Read one given character. *)
Definition expect (c : ascii) (s : text) : option text :=
  match s with
  | c' :: s' => if chr_eqb c' c then Some s' else None
  | [] => None
  end.

End Py.
Import Py.

(** ** [datetime] and [timedelta] *)

Module Datetime.

Record datetime : Type := mk_datetime {
  year : Z; month : Z; day : Z;
  hour : Z; minute : Z; second : Z; microsecond : Z
}.

(** A [timedelta], as its total number of microseconds. *)
Definition timedelta : Type := Z.

Definition timedelta_of_seconds (seconds : Z) : timedelta := seconds * 1000000.

(** [td.total_seconds()], exactly. *)
Definition total_seconds (td : timedelta) : Q := (td # 1000000)%Q.

Definition _is_leap (y : Z) : bool :=
  (y mod 4 =? 0) && (negb (y mod 100 =? 0) || (y mod 400 =? 0)).

Definition _days_in_month (y m : Z) : Z :=
  if m =? 2 then (if _is_leap y then 29 else 28)
  else if (m =? 4) || (m =? 6) || (m =? 9) || (m =? 11) then 30
  else 31.

Definition _days_before_year (y : Z) : Z :=
  let y1 := y - 1 in y1 * 365 + y1 / 4 - y1 / 100 + y1 / 400.

Definition _DAYS_BEFORE_MONTH : list Z :=
  [0; 0; 31; 59; 90; 120; 151; 181; 212; 243; 273; 304; 334].

Definition _days_before_month (y m : Z) : Z :=
  nth (Z.to_nat m) _DAYS_BEFORE_MONTH 0
  + (if (2 <? m) && _is_leap y then 1 else 0).

Definition _ymd2ord (y m d : Z) : Z :=
  _days_before_year y + _days_before_month y m + d.

Definition toordinal (t : datetime) : Z := _ymd2ord (year t) (month t) (day t).

(** The range checks of the [datetime] constructor. *)
Definition valid_datetime (t : datetime) : bool :=
  (1 <=? year t) && (year t <=? 9999) &&
  (1 <=? month t) && (month t <=? 12) &&
  (1 <=? day t) && (day t <=? _days_in_month (year t) (month t)) &&
  (0 <=? hour t) && (hour t <=? 23) &&
  (0 <=? minute t) && (minute t <=? 59) &&
  (0 <=? second t) && (second t <=? 59) &&
  (0 <=? microsecond t) && (microsecond t <=? 999999).

(** [a - b] *)
Definition dt_sub (a b : datetime) : timedelta :=
  let secs1 := second a + minute a * 60 + hour a * 3600 in
  let secs2 := second b + minute b * 60 + hour b * 3600 in
  ((toordinal a - toordinal b) * 86400 + (secs1 - secs2)) * 1000000
  + (microsecond a - microsecond b).

(** Comparison of two datetimes of the same zone is the comparison of their
    field tuples. *)
Definition dt_fields (t : datetime) : list Z :=
  [year t; month t; day t; hour t; minute t; second t; microsecond t].

Fixpoint lex_compare (a b : list Z) : comparison :=
  match a, b with
  | [], [] => Eq
  | [], _ :: _ => Lt
  | _ :: _, [] => Gt
  | x :: a', y :: b' =>
      match x ?= y with
      | Eq => lex_compare a' b'
      | c => c
      end
  end.

Definition dt_compare (a b : datetime) : comparison :=
  lex_compare (dt_fields a) (dt_fields b).

(** [a > b], [a <= b], [a != b] *)
Definition dt_gtb (a b : datetime) : bool :=
  match dt_compare a b with Gt => true | _ => false end.
Definition dt_leb (a b : datetime) : bool := negb (dt_gtb a b).
Definition dt_neqb (a b : datetime) : bool :=
  match dt_compare a b with Eq => false | _ => true end.

(** [t.isoformat()] of a datetime aware in UTC. *)
Definition isoformat (t : datetime) : text :=
  zfill 4 (year t) ++ str "-" ++ zfill 2 (month t) ++ str "-" ++ zfill 2 (day t)
  ++ str "T" ++ zfill 2 (hour t) ++ str ":" ++ zfill 2 (minute t)
  ++ str ":" ++ zfill 2 (second t)
  ++ (if microsecond t =? 0 then [] else str "." ++ zfill 6 (microsecond t))
  ++ str "+00:00".

(** [datetime.fromisoformat(s)] on the spelling [isoformat] writes for a
    datetime in UTC: date, ['T'], time to the second, an optional
    six-digit fraction, and the offset [+00:00].  [None] stands for
    [ValueError].  The other spellings the parser of the standard library
    reads (no offset, other offsets, shortened times) are not written by
    this program and are read as errors here. *)
Definition fromisoformat (s : text) : option datetime :=
  '(y, s) ← parse_digits 4 0 s;
  s ← expect "-"%char s;
  '(m, s) ← parse_digits 2 0 s;
  s ← expect "-"%char s;
  '(d, s) ← parse_digits 2 0 s;
  s ← expect "T"%char s;
  '(hh, s) ← parse_digits 2 0 s;
  s ← expect ":"%char s;
  '(mm, s) ← parse_digits 2 0 s;
  s ← expect ":"%char s;
  '(ss, s) ← parse_digits 2 0 s;
  '(us, s) ← match s with
             | c :: s' =>
                 if chr_eqb c "."%char then parse_digits 6 0 s' else Some (0, s)
             | [] => Some (0, s)
             end;
  let t := mk_datetime y m d hh mm ss us in
  if bool_decide (s = str "+00:00") && valid_datetime t then Some t else None.

End Datetime.
Import Datetime.

(** ** storage/address_repo.py *)

Module AddressRepo.

Record AddressRecord : Type := mk_record {
  timestamp : datetime;
  address : text
}.

(** [AddressRecord.from_line] *)
Definition from_line (line : text) : option AddressRecord :=
  let parts := split_maxsplit1 "|"%char (strip line) in
  match parts with
  | [ts_part; address_part] =>
      match fromisoformat ts_part with
      | Some timestamp => Some (mk_record timestamp (strip address_part))
      | None => None
      end
  | _ => None
  end.

(** [AddressRecord.to_line] *)
Definition to_line (self : AddressRecord) : text :=
  isoformat (timestamp self) ++ str "|" ++ address self.

(** [create_record]; [clock] is what [datetime.now(timezone.utc)] returns. *)
Definition create_record (clock : datetime) (address : text)
    (timestamp : option datetime) : AddressRecord :=
  let ts := match timestamp with Some t => t | None => clock end in
  mk_record ts address.

(** A [dict[str, AddressRecord]]: keys in insertion order, assigning to a
    key that is present keeps its place. *)
Definition dict : Type := list (text * AddressRecord).

Fixpoint dict_get (d : dict) (k : text) : option AddressRecord :=
  match d with
  | [] => None
  | (k', v) :: d' => if bool_decide (k' = k) then Some v else dict_get d' k
  end.

Fixpoint dict_set (d : dict) (k : text) (v : AddressRecord) : dict :=
  match d with
  | [] => [(k, v)]
  | (k', v') :: d' =>
      if bool_decide (k' = k) then (k, v) :: d' else (k', v') :: dict_set d' k v
  end.

Definition dict_values (d : dict) : list AddressRecord := map snd d.

(** [sorted(records, key=lambda r: r.timestamp)]: the stable sort, which
    compares keys with [<] only. *)
Fixpoint insert_by_timestamp (r : AddressRecord) (l : list AddressRecord)
    : list AddressRecord :=
  match l with
  | [] => [r]
  | x :: l' =>
      if dt_gtb (timestamp r) (timestamp x)
      then x :: insert_by_timestamp r l'
      else r :: l
  end.

Definition sorted_by_timestamp (l : list AddressRecord) : list AddressRecord :=
  foldr insert_by_timestamp [] l.

(** The body of the loop over the lines already in the file: a line that
    does not parse is passed over, a record is kept when its address is new
    or its timestamp is greater than the one kept so far. *)
Definition merge_record (records_by_address : dict) (existing : AddressRecord)
    : dict :=
  match dict_get records_by_address (address existing) with
  | None => dict_set records_by_address (address existing) existing
  | Some current =>
      if dt_gtb (timestamp existing) (timestamp current)
      then dict_set records_by_address (address existing) existing
      else records_by_address
  end.

Definition merge_line (records_by_address : dict) (line : text) : dict :=
  match from_line line with
  | None => records_by_address
  | Some existing => merge_record records_by_address existing
  end.

Inductive repo_log : Type :=
| LogUpdated (address : text) (old new : datetime)
| LogAppended (address : text)
| LogCleared.

(** [AddressRepository.append]: the new content of the file and the line
    logged. *)
Definition append (content : text) (record : AddressRecord) : text * repo_log :=
  let lines := splitlines content in
  let records_by_address := fold_left merge_line lines [] in
  let previous := dict_get records_by_address (address record) in
  let records_by_address := dict_set records_by_address (address record) record in
  let sorted_records := sorted_by_timestamp (dict_values records_by_address) in
  let serialized := join_lf (map to_line sorted_records) in
  let serialized :=
    match serialized with [] => serialized | _ => serialized ++ [LF] end in
  (serialized,
   match previous with
   | Some previous =>
       LogUpdated (address record) (timestamp previous) (timestamp record)
   | None => LogAppended (address record)
   end).

(** [AddressRepository.read_all] *)
Definition read_all (content : text) : list AddressRecord :=
  let lines := splitlines content in
  fold_left
    (fun records line =>
       match from_line line with
       | Some record => records ++ [record]
       | None => records
       end)
    lines [].

(** [AddressRepository.read_latest] *)
Fixpoint first_record (lines : list text) : option AddressRecord :=
  match lines with
  | [] => None
  | line :: rest =>
      match from_line line with
      | Some record => Some record
      | None => first_record rest
      end
  end.

Definition read_latest (content : text) : option AddressRecord :=
  let lines := splitlines content in
  first_record (rev lines).

(** [AddressRepository.clear] *)
Definition clear (content : text) : text * repo_log := ([], LogCleared).

(** The file as [_ensure_file] creates it. *)
Definition empty_file : text := [].

(** The content after a run of [append] calls. *)
Definition appends (content : text) (records : list AddressRecord) : text :=
  fold_left (fun c r => fst (append c r)) records content.

(** *** [AddressRepository.backup]

    The three file-system operations [backup] performs either succeed or
    raise [OSError]; which, is an input. *)
Inductive io (A : Type) : Type :=
| Done (a : A)
| OSError (msg : text).
Arguments Done {A} a.
Arguments OSError {A} msg.

Record backup_fs : Type := {
  fs_mkdir : io unit;            (* backup_dir.mkdir(parents=True, exist_ok=True) *)
  fs_read_bytes : io text;       (* self._file_path.read_bytes() *)
  fs_write_bytes : io unit       (* target.write_bytes(data) *)
}.

Inductive backup_log : Type :=
| LogBackupCreated (target : text)
| LogBackupFailed (exc : text).

(** What a call does: it returns a value or an exception leaves it. *)
Inductive completion (A : Type) : Type :=
| Returns (a : A)
| Raises (exc : text).
Arguments Returns {A} a.
Arguments Raises {A} exc.

(** [now.strftime("%Y%m%d_%H%M%S")] *)
Definition strftime_backup (t : datetime) : text :=
  zfill 4 (year t) ++ zfill 2 (month t) ++ zfill 2 (day t) ++ str "_"
  ++ zfill 2 (hour t) ++ zfill 2 (minute t) ++ zfill 2 (second t).

Definition backup (backup_dir : text) (clock : datetime) (fs : backup_fs)
    : completion (option text) * list backup_log :=
  let timestamp := strftime_backup clock in
  match fs_mkdir fs with
  | OSError exc => (Raises exc, [])
  | Done _ =>
      let target := backup_dir ++ str "/addresses_" ++ timestamp ++ str ".txt" in
      match fs_read_bytes fs with
      | OSError exc => (Returns None, [LogBackupFailed exc])
      | Done data =>
          match fs_write_bytes fs with
          | OSError exc => (Returns None, [LogBackupFailed exc])
          | Done _ => (Returns (Some target), [LogBackupCreated target])
          end
      end
  end.

End AddressRepo.
Import AddressRepo.

(** ** trading/time_guard.py *)

Module TimeGuard.

(** [CONFIG.trade.require_time_window_seconds] when the environment does not
    set it. *)
Definition default_max_age : Z := 20.

(** [TimeGuard.is_recent]; [max_age] is [self._max_age], [clock] is what
    [datetime.now(timezone.utc)] returns. *)
Definition is_recent (max_age : Z) (clock : datetime)
    (record : option AddressRecord) (reference : option datetime) : bool :=
  match record with
  | None => false
  | Some record =>
      let now := match reference with Some r => r | None => clock end in
      let age := dt_sub now (timestamp record) in
      age <=? timedelta_of_seconds max_age
  end.

End TimeGuard.
Import TimeGuard.

(** ** wechat_ocr_listener.py: the records the capture loop builds *)

Module Listener.

Section Normalize.

(** [unicodedata.normalize("NFKC", _)] *)
Variable nfkc : text -> text.

(** [WeChatOCRListener._normalize_address] *)
Definition _normalize_address (candidate : option text) : option text :=
  match candidate with
  | None => None
  | Some [] => None
  | Some candidate =>
      let text := nfkc candidate in
      let text := remove_char CR (remove_char LF (remove_char " "%char text)) in
      let text := lower text in
      if negb (startswith text (str "0x")) then None
      else if negb (len text =? 42) then None
      else
        let hex_part := skipn 2 text in
        if negb (forallb (fun ch => char_in ch (str "0123456789abcdef")) hex_part)
        then None
        else Some text
  end.

(** The list [records] of [_write_temp_addresses]; [clock n] is the [n]-th
    reading of [datetime.now(timezone.utc)]. *)
Fixpoint temp_records (clock : nat -> datetime) (n : nat) (addresses : list text)
    : list AddressRecord :=
  match addresses with
  | [] => []
  | raw :: rest =>
      match _normalize_address (Some raw) with
      | None => temp_records clock n rest
      | Some normalized =>
          create_record (clock n) normalized (Some (clock n))
          :: temp_records clock (S n) rest
      end
  end.

(** [_write_temp_addresses]: the record handed on, [records[-1]]. *)
Definition _write_temp_addresses (clock : nat -> datetime) (addresses : list text)
    : option AddressRecord :=
  List.last (map Some (temp_records clock 0 addresses)) None.

End Normalize.

End Listener.
Import Listener.

(** ** scheduler/pipeline.py *)

Module Pipeline.

(** [CONFIG.pipeline] *)
Record PipelineConfig : Type := {
  debounce_seconds : Q;
  retry_attempts : Z;
  retry_delay_seconds : Q
}.

(** The values used when the environment sets none. *)
Definition default_config : PipelineConfig :=
  {| debounce_seconds := (3 # 2)%Q;
     retry_attempts := 3;
     retry_delay_seconds := (2 # 1)%Q |}.

(** [x < y] and [x >= y] on seconds. *)
Definition secs_ltb (x y : Q) : bool :=
  match (x ?= y)%Q with Lt => true | _ => false end.
Definition secs_geb (x y : Q) : bool :=
  match (x ?= y)%Q with Lt => false | _ => true end.

(** The fields of [TradingPipeline] that change while it runs, and the
    [_paused] flag of its listener. *)
Record TradingPipeline : Type := mk_pipeline {
  _queue : list AddressRecord;
  _last_executed_address : option text;
  _last_execution_time : option datetime;
  _recent_executions : gmap text datetime;
  listener_paused : bool
}.

Definition initial_pipeline : TradingPipeline :=
  mk_pipeline [] None None ∅ false.

(** What an exception is, as far as [except Exception] can tell:
    [CancelledError] derives from [BaseException] only. *)
Inductive exn : Type :=
| Exception (msg : text)
| CancelledError.

(** One call of [BinanceTrader.execute_trade]. *)
Inductive trade_result : Type :=
| TradeOk
| TradeRaises (e : exn).

(** The effects of the controller, in the order they happen. *)
Inductive event : Type :=
| LogStale (record : AddressRecord)
| LogNotLatest (address : text)
| LogRecentlyProcessed (address : text)
| ListenerPause
| ListenerResume
| ExecuteTrade (address : text)
| LogTradeOk (address : text)
| LogAttemptFailed (attempt attempts : Z) (address : text) (exc : text)
| Sleep (delay : Q)
| LogAllFailed (address : text).

(** [range(lo, hi)] *)
Definition py_range (lo hi : Z) : list Z :=
  map (fun i => lo + Z.of_nat i) (seq 0 (Z.to_nat (hi - lo))).

Section Controller.

Variable config : PipelineConfig.

(** [self._time_guard._max_age] *)
Variable max_age : Z.

(** [TradingPipeline._should_skip]; [clock] is the reading of
    [datetime.now(timezone.utc)]. *)
Definition _should_skip (self : TradingPipeline) (clock : datetime)
    (record : AddressRecord) : bool :=
  match _recent_executions self !! address record with
  | None => false
  | Some last_exec =>
      let elapsed := dt_sub clock last_exec in
      secs_ltb (total_seconds elapsed) (debounce_seconds config)
  end.

Definition set_recent_executions (self : TradingPipeline)
    (m : gmap text datetime) : TradingPipeline :=
  mk_pipeline (_queue self) (_last_executed_address self)
    (_last_execution_time self) m (listener_paused self).

(** [TradingPipeline._prune_recent_executions] *)
Definition _prune_recent_executions (self : TradingPipeline) (clock : datetime)
    (reference : option datetime) : TradingPipeline :=
  if bool_decide (_recent_executions self = ∅) then self
  else
    let now := match reference with Some r => r | None => clock end in
    let threshold := debounce_seconds config in
    let stale :=
      map fst
        (List.filter
           (fun '(address, ts) => secs_geb (total_seconds (dt_sub now ts)) threshold)
           (map_to_list (_recent_executions self))) in
    set_recent_executions self
      (fold_left (fun m address => delete address m) stale
         (_recent_executions self)).

(** The loop of [_execute_with_retry] over the attempts still to make.
    [trader attempt] is what the call of [execute_trade] made in that
    attempt does.  The result is the exception that leaves the method, if
    any. *)
Fixpoint retry_loop (trader : Z -> trade_result) (address : text)
    (attempts : Z) (delay : Q) (todo : list Z) : list event * option exn :=
  match todo with
  | [] => ([LogAllFailed address], None)
  | attempt :: rest =>
      match trader attempt with
      | TradeOk => ([ExecuteTrade address; LogTradeOk address], None)
      | TradeRaises (Exception exc) =>
          let '(events, escaped) := retry_loop trader address attempts delay rest in
          (ExecuteTrade address
           :: LogAttemptFailed attempt attempts address exc
           :: (if attempt <? attempts then [Sleep delay] else [])
           ++ events,
           escaped)
      | TradeRaises e => ([ExecuteTrade address], Some e)
      end
  end.

(** [TradingPipeline._execute_with_retry] *)
Definition _execute_with_retry (trader : Z -> trade_result) (address : text)
    : list event * option exn :=
  let attempts := retry_attempts config in
  let delay := retry_delay_seconds config in
  retry_loop trader address attempts delay (py_range 1 (attempts + 1)).

(** [WeChatOCRListener.pause] and [resume] *)
Definition pause (self : TradingPipeline) : TradingPipeline :=
  mk_pipeline (_queue self) (_last_executed_address self)
    (_last_execution_time self) (_recent_executions self) true.
Definition resume (self : TradingPipeline) : TradingPipeline :=
  mk_pipeline (_queue self) (_last_executed_address self)
    (_last_execution_time self) (_recent_executions self) false.

(** The readings of [datetime.now(timezone.utc)] one call of
    [_process_record] makes: in the recency guard, in [_should_skip], and
    after the execution. *)
Record clock_reads : Type := {
  at_guard : datetime;
  at_skip : datetime;
  at_done : datetime
}.

(** [TradingPipeline._process_record]; [content] is the file of the
    repository while the call runs. *)
Definition _process_record (content : text) (clock : clock_reads)
    (trader : Z -> trade_result) (self : TradingPipeline) (record : AddressRecord)
    : TradingPipeline * list event * option exn :=
  if negb (is_recent max_age (at_guard clock) (Some record) None) then
    (self, [LogStale record], None)
  else
    let latest := read_latest content in
    if match latest with
       | None => true
       | Some latest =>
           negb (bool_decide (address latest = address record))
           || dt_neqb (timestamp latest) (timestamp record)
       end
    then (self, [LogNotLatest (address record)], None)
    else if _should_skip self (at_skip clock) record then
      (self, [LogRecentlyProcessed (address record)], None)
    else
      let self := pause self in
      let '(events, escaped) := _execute_with_retry trader (address record) in
      let self := resume self in
      let events := [ListenerPause] ++ events ++ [ListenerResume] in
      match escaped with
      | Some e => (self, events, Some e)
      | None =>
          let now := at_done clock in
          let self :=
            mk_pipeline (_queue self) (Some (address record)) (Some now)
              (<[address record := now]> (_recent_executions self))
              (listener_paused self) in
          (_prune_recent_executions self now (Some now), events, None)
      end.

(** [self._queue.get_nowait()]; [None] is [QueueEmpty]. *)
Definition get_nowait (queue : list AddressRecord)
    : option (AddressRecord * list AddressRecord) :=
  match queue with
  | [] => None
  | item :: queue' => Some (item, queue')
  end.

(** The inner loop of [run]: take items as long as [get_nowait] gives one. *)
Fixpoint drain (record : AddressRecord) (queue : list AddressRecord)
    : AddressRecord * list AddressRecord :=
  match queue with
  | [] => (record, queue)
  | item :: queue' => drain item queue'
  end.

Definition set_queue (self : TradingPipeline) (queue : list AddressRecord)
    : TradingPipeline :=
  mk_pipeline queue (_last_executed_address self) (_last_execution_time self)
    (_recent_executions self) (listener_paused self).

(** [Queue.put], as the capture thread schedules it on the loop. *)
Definition put (self : TradingPipeline) (record : AddressRecord) : TradingPipeline :=
  set_queue self (_queue self ++ [record]).

(** One turn of the outer loop of [run].  [None]: the queue is empty and
    the loop stays suspended in [await self._queue.get()].  Otherwise the
    record handed to [_process_record] and what that call returns. *)
Definition run_iteration (content : text) (clock : clock_reads)
    (trader : Z -> trade_result) (self : TradingPipeline)
    : option (AddressRecord * (TradingPipeline * list event * option exn)) :=
  match _queue self with
  | [] => None
  | first :: queue =>
      let '(record, queue) := drain first queue in
      let self := set_queue self queue in
      Some (record, _process_record content clock trader self record)
  end.

End Controller.

End Pipeline.
Import Pipeline.

(** ** Vocabulary of the statements *)

Module Spec.

(** One failed attempt: the call, then its log line. *)
Definition failed_attempt (address : text) (attempts : Z) (msg : Z -> text)
    (attempt : Z) : list event :=
  [ExecuteTrade address; LogAttemptFailed attempt attempts address (msg attempt)].

(** Blocks of events with [sep] between each two consecutive blocks, and
    nowhere else. *)
Fixpoint separated_by (sep : list event) (blocks : list (list event)) : list event :=
  match blocks with
  | [] => []
  | [block] => block
  | block :: rest => block ++ sep ++ separated_by sep rest
  end.

(** What a run of [attempts] failed attempts looks like: the attempts
    [1 .. attempts], the delay between consecutive ones, then the terminal
    log line. *)
Definition exhausted_trace (address : text) (attempts : Z) (delay : Q)
    (msg : Z -> text) : list event :=
  separated_by [Sleep delay]
    (map (failed_attempt address attempts msg) (py_range 1 (attempts + 1)))
  ++ [LogAllFailed address].

Definition is_trade (e : event) : bool :=
  match e with ExecuteTrade _ => true | _ => false end.

Definition is_sleep (e : event) : bool :=
  match e with Sleep _ => true | _ => false end.

(** The three guards of [_process_record] let [record] through. *)
Definition accepted (config : PipelineConfig) (max_age : Z) (content : text)
    (clock : clock_reads) (self : TradingPipeline) (record : AddressRecord) : Prop :=
  is_recent max_age (at_guard clock) (Some record) None = true
  /\ (exists latest, read_latest content = Some latest
        /\ address latest = address record
        /\ dt_compare (timestamp latest) (timestamp record) = Eq)
  /\ _should_skip config self (at_skip clock) record = false.

(** A lowercase hexadecimal character: [0-9a-f]. *)
Definition lower_hex (c : ascii) : Prop :=
  48 <= ord c <= 57 \/ 97 <= ord c <= 102.

(** The shape of a normalised address: ["0x"], then exactly 40 lowercase
    hexadecimal characters. *)
Definition normalized_address (a : text) : Prop :=
  exists hex,
    a = str "0x" ++ hex /\ List.length hex = 40%nat /\ Forall lower_hex hex.

(** No character of [s] is a line boundary. *)
Definition no_linebreak (s : text) : Prop :=
  Forall (fun c => is_linebreak c = false) s.

(** An address that [from_line] reads back as it was written: no
    surrounding white space and no line boundary inside. *)
Definition clean_address (a : text) : Prop :=
  strip a = a /\ no_linebreak a.

(** A record as the program builds them: its timestamp passed the range
    checks of [datetime], its address is clean. *)
Definition wf_record (r : AddressRecord) : Prop :=
  valid_datetime (timestamp r) = true /\ clean_address (address r).

(** [a.timestamp <= b.timestamp] *)
Definition ts_le (a b : AddressRecord) : Prop :=
  dt_leb (timestamp a) (timestamp b) = true.

(** Non-decreasing timestamps: every record is at most every later one. *)
Definition ascending (records : list AddressRecord) : Prop :=
  StronglySorted ts_le records.

(** The contents the file of the store goes through: empty when created or
    cleared, and rewritten by each [append]. *)
Inductive reachable : text -> Prop :=
| reachable_created : reachable empty_file
| reachable_append (content : text) (record : AddressRecord) :
    reachable content -> wf_record record ->
    reachable (fst (append content record))
| reachable_clear (content : text) :
    reachable content -> reachable (fst (clear content)).

(** The characters a timestamp is written with are neither white space, nor
    line boundaries, nor the field separator. *)
Definition plain_char (c : ascii) : Prop :=
  is_space c = false /\ is_linebreak c = false /\ chr_eqb c "|" = false.

(** The keys of the dictionary of [append] are distinct, and each is the
    address of its record. *)
Definition dict_ok (d : dict) : Prop :=
  NoDup (map fst d) /\ Forall (fun kv => address (snd kv) = fst kv) d.

(** *** Sample data *)

Definition sample_address : text :=
  str "0x00000000000000000000000000000000000000aa".
Definition other_address : text :=
  str "0x00000000000000000000000000000000000000bb".

(** One address seen at 12:00:05 and at 12:00:00, another at 12:00:07. *)
Definition sample_newer : AddressRecord :=
  mk_record (mk_datetime 2024 1 1 12 0 5 0) sample_address.
Definition sample_older : AddressRecord :=
  mk_record (mk_datetime 2024 1 1 12 0 0 0) sample_address.
Definition sample_other : AddressRecord :=
  mk_record (mk_datetime 2024 1 1 12 0 7 0) other_address.

(** Every reading of the clock is 12:00:08. *)
Definition sample_clock : clock_reads :=
  {| at_guard := mk_datetime 2024 1 1 12 0 8 0;
     at_skip := mk_datetime 2024 1 1 12 0 8 0;
     at_done := mk_datetime 2024 1 1 12 0 8 0 |}.

(** A trade action that times out on every call. *)
Definition failing_trader (attempt : Z) : trade_result :=
  TradeRaises (Exception (str "timeout")).

End Spec.
Import Spec.

(** ** storage/address_repo.py, the other reader *)

(** The loop of [AddressRepository.iter_latest] over the lines still to
    visit; the result lists what the generator yields, in order. *)
Fixpoint iter_latest_loop (limit count : Z) (lines : list text)
    : list AddressRecord :=
  match lines with
  | [] => []
  | line :: rest =>
      if limit <=? count then []
      else
        match from_line line with
        | Some record => record :: iter_latest_loop limit (count + 1) rest
        | None => iter_latest_loop limit count rest
        end
  end.

(** [AddressRepository.iter_latest] *)
Definition iter_latest (content : text) (limit : Z) : list AddressRecord :=
  let lines := splitlines content in
  iter_latest_loop limit 0 (rev lines).

(** What [append] writes for a list of records: the lines joined by LF, and
    a final LF unless there is nothing to write. *)
Definition serialize (records : list AddressRecord) : text :=
  match join_lf (map to_line records) with
  | [] => []
  | joined => joined ++ [LF]
  end.

(** The entry of [records_by_address] for a record. *)
Definition entry_of (r : AddressRecord) : text * AddressRecord := (address r, r).

(** ** scheduler/pipeline.py, the life of [run] *)

Module PipelineRun.

(** [TradingPipeline._handle_new_record]: the callback the listener calls on
    its own thread.  [loop_ready] is whether [self._loop] is set; the result
    tells whether the record was dropped. *)
Definition _handle_new_record (loop_ready : bool) (self : TradingPipeline)
    (record : AddressRecord) : TradingPipeline * bool :=
  if negb loop_ready then (self, true) else (put self record, false).

(** What [run] does, in order. *)
Inductive run_event : Type :=
| LogStartFailed (exc : text)
| LogStarted
| Controller (e : event)
| LogCancelled
| ListenerStop
| TraderClose.

(** What happens around one wake of the loop: the records the listener hands
    over while the loop is suspended, then the file, the clock and the trade
    action as the turn finds them. *)
Record turn : Type := {
  burst : list AddressRecord;
  turn_content : text;
  turn_clock : clock_reads;
  turn_trader : Z -> trade_result
}.

Section Run.

Variable config : PipelineConfig.
Variable max_age : Z.

(** The [while True] loop of [run] over the turns that happen before the
    task is cancelled while it waits in [self._queue.get()].  The result
    is the exception that leaves the [try], if any: [CancelledError] is
    caught and logged, anything else goes on. *)
Fixpoint run_loop (turns : list turn) (self : TradingPipeline)
    : TradingPipeline * list run_event * option exn :=
  match turns with
  | [] => (self, [LogCancelled], None)
  | t :: rest =>
      let self :=
        fold_left (fun s r => fst (_handle_new_record true s r)) (burst t) self in
      match
        run_iteration config max_age (turn_content t) (turn_clock t)
          (turn_trader t) self
      with
      | None => run_loop rest self
      | Some (_, (self, events, escaped)) =>
          match escaped with
          | Some CancelledError =>
              (self, map Controller events ++ [LogCancelled], None)
          | Some e => (self, map Controller events, Some e)
          | None =>
              let '(self, later, escaped) := run_loop rest self in
              (self, map Controller events ++ later, escaped)
          end
      end
  end.

(** [TradingPipeline.run]; [start] is what [self._listener.start()] does:
    [None] when it returns, the exception when it raises. *)
Definition run (start : option text) (turns : list turn) (self : TradingPipeline)
    : TradingPipeline * list run_event * option exn :=
  match start with
  | Some exc => (self, [LogStartFailed exc; TraderClose], None)
  | None =>
      let '(self, events, escaped) := run_loop turns self in
      (self, [LogStarted] ++ events ++ [ListenerStop; TraderClose], escaped)
  end.

End Run.

End PipelineRun.
Import PipelineRun.

(** ** More vocabulary *)

Definition is_pause (e : event) : bool :=
  match e with ListenerPause => true | _ => false end.

Definition is_resume (e : event) : bool :=
  match e with ListenerResume => true | _ => false end.

Definition is_stop (e : run_event) : bool :=
  match e with ListenerStop => true | _ => false end.

Definition is_close (e : run_event) : bool :=
  match e with TraderClose => true | _ => false end.

(** How [_execute_with_retry] can end. *)
Definition ends_with_success (events : list event) (address : text) : Prop :=
  exists before, events = before ++ [LogTradeOk address].

Definition ends_with_failure (events : list event) (address : text) : Prop :=
  exists before, events = before ++ [LogAllFailed address].

(** ** wechat_ocr_listener.py, what the scan loop does with a record *)

Module ListenerLoop.

(** [sorted(history, key=lambda r: r.timestamp, reverse=True)]: descending,
    records with equal timestamps in their original order. *)
Fixpoint insert_descending (r : AddressRecord) (l : list AddressRecord)
    : list AddressRecord :=
  match l with
  | [] => [r]
  | x :: l' =>
      if dt_gtb (timestamp x) (timestamp r)
      then x :: insert_descending r l'
      else r :: l
  end.

Definition sorted_descending (l : list AddressRecord) : list AddressRecord :=
  foldr insert_descending [] l.

(** The loop over [enumerate(sorted_history)]: the rank of the first record
    with the address, [None] when the loop ends without [break]. *)
Fixpoint find_rank (address_ : text) (idx : Z) (sorted_history : list AddressRecord)
    : option Z :=
  match sorted_history with
  | [] => None
  | existing :: rest =>
      if bool_decide (address existing = address_) then Some (idx + 1)
      else find_rank address_ (idx + 1) rest
  end.

(** [WeChatOCRListener._should_execute_trade] *)
Definition _should_execute_trade (record : AddressRecord)
    (history : list AddressRecord) : bool :=
  match history with
  | [] => true
  | _ =>
      if forallb
           (fun existing => negb (bool_decide (address existing = address record)))
           history
      then true
      else
        let sorted_history := sorted_descending history in
        match find_rank (address record) 0 sorted_history with
        | None => true
        | Some rank => 3 <? rank
        end
  end.

(** [WeChatOCRListener._handle_latest_record]: the file of the repository
    and [self._last_address] afterwards, and the record handed to
    [on_new_record], if any. *)
Definition _handle_latest_record (content : text) (last_address : option text)
    (record : option AddressRecord)
    : text * option text * option AddressRecord :=
  match record with
  | None => (content, last_address, None)
  | Some record =>
      let history := read_all content in
      let should_trade := _should_execute_trade record history in
      let content := fst (append content record) in
      (content, Some (address record),
       if should_trade then Some record else None)
  end.

(** The loops of [_candidate_title_patterns], [_candidate_class_names] and
    [_candidate_chrome_title_patterns]: the requested name first, when it is
    not blank, then each default that is not there yet. *)
Definition add_candidate (candidates : list text) (name : text) : list text :=
  match name with
  | [] => candidates
  | _ => if bool_decide (name ∈ candidates) then candidates
         else candidates ++ [name]
  end.

Definition candidates_with_defaults (configured : text) (defaults : list text)
    : list text :=
  let requested := strip configured in
  let candidates := match requested with [] => [] | _ => [requested] end in
  fold_left add_candidate defaults candidates.

(** [WeChatOCRListener._candidate_class_names] *)
Definition _candidate_class_names (window_class_name : text) : list text :=
  candidates_with_defaults window_class_name
    [str "WeChatMainWndForPC"; str "ChatWnd"].

(** The integer settings of [CONFIG.ocr] the capture geometry reads. *)
Record OCRGeometry : Type := {
  chat_top_offset : Z;
  chat_right_offset : Z;
  chat_bottom_offset : Z;
  min_capture_width : Z;
  min_capture_height : Z
}.

(** [WeChatOCRListener._get_chat_region]; [left_inset width] is
    [int(width * self._config.chat_left_ratio)]. *)
Definition _get_chat_region (cfg : OCRGeometry) (left_inset : Z -> Z)
    (left top right bottom : Z) : Z * Z * Z * Z :=
  let width := right - left in
  let chat_left := left + left_inset width in
  let chat_top := top + chat_top_offset cfg in
  let chat_right := right - chat_right_offset cfg in
  let chat_bottom := bottom - chat_bottom_offset cfg in
  let chat_left := Z.max chat_left left in
  let chat_top := Z.max chat_top top in
  let chat_right := Z.max chat_right (chat_left + min_capture_width cfg) in
  let chat_bottom := Z.max chat_bottom (chat_top + min_capture_height cfg) in
  (chat_left, chat_top, chat_right - chat_left, chat_bottom - chat_top).

(** The [crop_box] of [_capture_frame], for the window rectangle and the
    region [(x, y, w, h)]. *)
Definition crop_box (left top right bottom : Z) (region : Z * Z * Z * Z)
    : Z * Z * Z * Z :=
  let '(x, y, w, h) := region in
  let width := right - left in
  let height := bottom - top in
  let rel_left := Z.max 0 (Z.min width (x - left)) in
  let rel_top := Z.max 0 (Z.min height (y - top)) in
  let rel_right := Z.max (rel_left + 1) (Z.min width (rel_left + w)) in
  let rel_bottom := Z.max (rel_top + 1) (Z.min height (rel_top + h)) in
  (rel_left, rel_top, rel_right, rel_bottom).

(** The calls [_preprocess_frame] makes to OpenCV, with the sizes it
    passes. *)
Inductive cv2_call : Type :=
| GaussianBlur (kernel : Z)
| AdaptiveThreshold (block_size : Z) (constant : Z).

(** [WeChatOCRListener._preprocess_frame] *)
Definition _preprocess_frame (gaussian_kernel_size : Z)
    (use_adaptive_threshold : bool) (threshold_block_size threshold_constant : Z)
    : list cv2_call :=
  let kernel := Z.max 1 gaussian_kernel_size in
  let kernel := if kernel mod 2 =? 0 then kernel + 1 else kernel in
  let blur := if 3 <=? kernel then [GaussianBlur kernel] else [] in
  if use_adaptive_threshold then
    let block_size := threshold_block_size in
    let block_size := if block_size mod 2 =? 0 then block_size + 1 else block_size in
    let block_size := Z.max 3 block_size in
    blur ++ [AdaptiveThreshold block_size threshold_constant]
  else blur.

End ListenerLoop.
Import ListenerLoop.

(** ** utils/ocr_engine.py: addresses in recognised text *)

Module OcrEngine.

(** [[a-fA-F0-9]] *)
Definition is_hex (c : ascii) : bool :=
  ((48 <=? ord c) && (ord c <=? 57))
  || ((65 <=? ord c) && (ord c <=? 70))
  || ((97 <=? ord c) && (ord c <=? 102)).

Definition is_x (c : ascii) : bool := chr_eqb c "x" || chr_eqb c "X".

(** [[a-fA-F0-9]{n}] at the start of [s]: the match and what follows. *)
Fixpoint take_hex (n : nat) (s : text) : option (text * text) :=
  match n with
  | O => Some ([], s)
  | S n' =>
      match s with
      | c :: s' =>
          if is_hex c then
            match take_hex n' s' with
            | Some (m, rest) => Some (c :: m, rest)
            | None => None
            end
          else None
      | [] => None
      end
  end.

(** [0[xX][a-fA-F0-9]{40}] at the start of [s]. *)
Definition strict_at (s : text) : option text :=
  match s with
  | c0 :: c1 :: s' =>
      if chr_eqb c0 "0" && is_x c1 then
        match take_hex 40 s' with
        | Some (m, _) => Some (c0 :: c1 :: m)
        | None => None
        end
      else None
  | _ => None
  end.

(** [\s*] at the start of [s]: the white space matched. *)
Fixpoint leading_spaces (s : text) : text :=
  match s with
  | c :: s' => if is_space c then c :: leading_spaces s' else []
  | [] => []
  end.

(** [(?:\s*[0-9a-fA-F]){n}] at the start of [s].  White space is neither a
    hexadecimal digit nor [x], so the greedy [\s*] never has to give
    anything back. *)
Fixpoint take_spaced_hex (n : nat) (s : text) : option (text * text) :=
  match n with
  | O => Some ([], s)
  | S n' =>
      match lstrip s with
      | c :: s' =>
          if is_hex c then
            match take_spaced_hex n' s' with
            | Some (m, rest) => Some (leading_spaces s ++ c :: m, rest)
            | None => None
            end
          else None
      | [] => None
      end
  end.

(** [0\s*[xX](?:\s*[0-9a-fA-F]){40}] at the start of [s]. *)
Definition loose_at (s : text) : option text :=
  match s with
  | c0 :: s0 =>
      if chr_eqb c0 "0" then
        match lstrip s0 with
        | c1 :: s1 =>
            if is_x c1 then
              match take_spaced_hex 40 s1 with
              | Some (m, _) => Some (c0 :: leading_spaces s0 ++ c1 :: m)
              | None => None
              end
            else None
        | [] => None
        end
      else None
  | [] => None
  end.

(** [pattern.findall(text)] and [pattern.finditer(text)] for a pattern that
    matches no empty text: the leftmost matches that do not overlap.
    [skip] counts the characters of the last match still to pass. *)
Fixpoint scan (match_at : text -> option text) (skip : nat) (s : text)
    : list text :=
  match s with
  | [] => []
  | _ :: s' =>
      match skip with
      | S k => scan match_at k s'
      | O =>
          match match_at s with
          | Some m => m :: scan match_at (Nat.pred (List.length m)) s'
          | None => scan match_at 0 s'
          end
      end
  end.

(** [list(dict.fromkeys(items))], and the [seen] set of the loose loop: the
    first occurrence of each item, in order. *)
Fixpoint unique_in_order (seen : list text) (items : list text) : list text :=
  match items with
  | [] => []
  | x :: rest =>
      if bool_decide (x ∈ seen) then unique_in_order seen rest
      else x :: unique_in_order (x :: seen) rest
  end.

(** The body of the loop over the loose matches, up to the [seen] test:
    the cleaned match, or [None] for [continue]. *)
Definition clean_loose (raw : text) : option text :=
  let cleaned := lower (List.filter (fun c => negb (is_space c)) raw) in
  if negb (len cleaned =? 42) then None
  else if negb (startswith cleaned (str "0x")) then None
  else
    let hex_part := skipn 2 cleaned in
    if negb (forallb (fun ch => char_in ch (str "0123456789abcdef")) hex_part)
    then None
    else Some cleaned.

(** [OcrEngine.extract_addresses] *)
Definition extract_addresses (recognised : text) : list text :=
  match recognised with
  | [] => []
  | _ =>
      let addresses := unique_in_order [] (scan strict_at 0 recognised) in
      match addresses with
      | _ :: _ => map lower addresses
      | [] =>
          let loose_matches := scan loose_at 0 recognised in
          unique_in_order [] (omap clean_loose loose_matches)
      end
  end.

(** [s.replace(a, b)] for one-character [a] and [b]. *)
Definition replace_char (a b : ascii) (s : text) : text :=
  map (fun c => if chr_eqb c a then b else c) s.

(** [WeChatOCRListener._process_frame], from the recognised text on. *)
Definition _process_frame (nfkc : text -> text) (normalize_letter_o : bool)
    (recognised : text) : list text :=
  let recognised := nfkc recognised in
  let recognised :=
    if normalize_letter_o
    then replace_char "o" "0" (replace_char "O" "0" recognised)
    else recognised in
  let recognised := replace_char "X" "x" recognised in
  extract_addresses recognised.

End OcrEngine.
Import OcrEngine.

(** * config.py, the selector lists *)

Module Config.

(** [s.split(sep)] for a one-character separator: the pieces between the
    separators, empty ones included. *)
Fixpoint split_sep (sep : ascii) (s : text) : list text :=
  match s with
  | [] => [[]]
  | c :: s' =>
      let parts := split_sep sep s' in
      if chr_eqb c sep then [] :: parts
      else (c :: hd [] parts) :: tl parts
  end.

(** [sep.join(parts)] *)
Fixpoint join_sep (sep : ascii) (parts : list text) : text :=
  match parts with
  | [] => []
  | [p] => p
  | p :: rest => p ++ sep :: join_sep sep rest
  end.

(** The truth value of a string. *)
Definition nonempty (s : text) : bool :=
  match s with [] => false | _ :: _ => true end.

(** [_env_selectors]; [getenv] is [os.getenv], [None] for a variable that
    is not set. *)
Definition _env_selectors (getenv : text -> option text)
    (name default : text) (legacy : option text) : list text :=
  let source :=
    match legacy with
    | Some ((_ :: _) as legacy) => getenv legacy
    | _ => None
    end in
  let source := match source with None => getenv name | Some _ => source end in
  let source := match source with None => default | Some source => source end in
  map strip (List.filter (fun item => nonempty (strip item)) (split_sep "," source)).

End Config.
Import Config.

(** * Properties *)

(** ** The embedding on examples *)

Ltac wf_by_computation :=
  split; [vm_compute; reflexivity
         |split; [vm_compute; reflexivity|repeat constructor]].

Example isoformat_ex :
  isoformat (mk_datetime 2024 1 2 3 4 5 0) = str "2024-01-02T03:04:05+00:00".
Proof. reflexivity. Qed.

Example isoformat_ex_us :
  isoformat (mk_datetime 2024 11 30 23 59 59 1200)
  = str "2024-11-30T23:59:59.001200+00:00".
Proof. reflexivity. Qed.

Example fromisoformat_ex :
  fromisoformat (str "2024-11-30T23:59:59.001200+00:00")
  = Some (mk_datetime 2024 11 30 23 59 59 1200).
Proof. vm_compute. reflexivity. Qed.

Example fromisoformat_bad_day :
  fromisoformat (str "2023-02-29T00:00:00+00:00") = None.
Proof. vm_compute. reflexivity. Qed.

Example splitlines_ex :
  splitlines (str "a|b" ++ [LF] ++ [CR; LF] ++ str "c") = [str "a|b"; []; str "c"].
Proof. reflexivity. Qed.

Example toordinal_ex : toordinal (mk_datetime 1970 1 1 0 0 0 0) = 719163.
Proof. reflexivity. Qed.

Example from_line_ex :
  from_line (str "  2024-01-01T12:00:05+00:00| 0xab  ")
  = Some (mk_record (mk_datetime 2024 1 1 12 0 5 0) (str "0xab")).
Proof. vm_compute. reflexivity. Qed.

Example from_line_malformed :
  from_line (str "not a record") = None
  /\ from_line (str "yesterday|0xab") = None.
Proof. vm_compute. by split. Qed.

Example append_sorts_and_merges :
  fst (append (str "garbage" ++ [LF] ++ to_line sample_other ++ [LF]) sample_newer)
  = to_line sample_newer ++ [LF] ++ to_line sample_other ++ [LF].
Proof. vm_compute. reflexivity. Qed.

(** ** The consumer loop: coalescing drain *)

Lemma last_cons_default {A} (l : list A) (x d d' : A) :
  List.last (x :: l) d = List.last (x :: l) d'.
Proof.
  revert x. induction l as [|y l IH]; intros x; [reflexivity|].
  change (List.last (y :: l) d = List.last (y :: l) d'). apply IH.
Qed.

(** [drain] is the loop over [get_nowait]: it stops at [QueueEmpty] and
    otherwise goes on with the item taken. *)
Lemma drain_get_nowait (record : AddressRecord) (queue : list AddressRecord) :
  drain record queue
  = match get_nowait queue with
    | None => (record, queue)
    | Some (item, queue') => drain item queue'
    end.
Proof. by destruct queue. Qed.

Lemma drain_last (record : AddressRecord) (queue : list AddressRecord) :
  drain record queue = (List.last queue record, []).
Proof.
  revert record. induction queue as [|item queue IH]; intros record.
  - reflexivity.
  - simpl drain. rewrite IH. f_equal.
    destruct queue as [|a queue]; [reflexivity|].
    change (List.last (a :: queue) item = List.last (a :: queue) record).
    apply last_cons_default.
Qed.

Lemma queue_after_puts (self : TradingPipeline) (burst : list AddressRecord) :
  _queue (fold_left put burst self) = _queue self ++ burst.
Proof.
  revert self. induction burst as [|r burst IH]; intros self; simpl.
  - by rewrite app_nil_r.
  - rewrite IH. simpl. by rewrite <- app_assoc.
Qed.

Lemma set_queue_after_puts (self : TradingPipeline) (burst q : list AddressRecord) :
  set_queue (fold_left put burst self) q = set_queue self q.
Proof.
  revert self. induction burst as [|r burst IH]; intros self; simpl.
  - reflexivity.
  - by rewrite IH.
Qed.

Lemma last_snoc_default {A} (l : list A) (x d : A) : List.last (l ++ [x]) d = x.
Proof.
  induction l as [|y l IH]; [reflexivity|].
  simpl. destruct (l ++ [x]) eqn:E; [by destruct l|]. exact IH.
Qed.

(** C2. Whatever is pending when the consumer wakes - the items still in the
    queue, then a burst of puts ending with [newest] - one turn of the loop
    takes them all, leaves the queue empty, and hands exactly [newest] to
    [_process_record]. *)
Theorem run_iteration_processes_newest
    (config : PipelineConfig) (max_age : Z) (content : text)
    (clock : clock_reads) (trader : Z -> trade_result)
    (self : TradingPipeline) (burst : list AddressRecord) (newest : AddressRecord) :
  run_iteration config max_age content clock trader
    (fold_left put (burst ++ [newest]) self)
  = Some (newest,
          _process_record config max_age content clock trader
            (set_queue self []) newest).
Proof.
  unfold run_iteration. rewrite queue_after_puts.
  destruct (_queue self ++ burst ++ [newest]) as [|first queue] eqn:E.
  - destruct (_queue self); [destruct burst|]; discriminate.
  - rewrite drain_last.
    assert (List.last queue first = newest) as ->.
    { assert (List.last (first :: queue) first = newest) as H.
      { rewrite <- E, app_assoc. apply last_snoc_default. }
      destruct queue; exact H. }
    by rewrite set_queue_after_puts.
Qed.

Example run_iteration_waits_on_empty_queue :
  run_iteration default_config 20 [] 
    {| at_guard := mk_datetime 2024 1 1 0 0 0 0;
       at_skip := mk_datetime 2024 1 1 0 0 0 0;
       at_done := mk_datetime 2024 1 1 0 0 0 0 |}
    (fun _ => TradeOk) initial_pipeline = None.
Proof. reflexivity. Qed.

(** ** The recency guard *)

(** C8. [is_recent] answers true exactly when the age of the record at the
    reference time is at most [max_age] seconds (20 when not configured); a
    missing record is never recent.  Without a reference the clock is
    read. *)
Theorem is_recent_iff_age_within_window
    (max_age : Z) (clock now : datetime) (record : AddressRecord) :
  (is_recent max_age clock (Some record) (Some now) = true
   <-> dt_sub now (timestamp record) <= timedelta_of_seconds max_age)
  /\ (is_recent max_age clock (Some record) None = true
      <-> dt_sub clock (timestamp record) <= timedelta_of_seconds max_age)
  /\ (forall reference, is_recent max_age clock None reference = false)
  /\ timedelta_of_seconds default_max_age = 20 * 1000000.
Proof.
  unfold is_recent. repeat split; try apply Z.leb_le; try (intros; apply Z.leb_le; assumption).
Qed.

Example is_recent_at_exactly_20s :
  is_recent default_max_age (mk_datetime 2024 3 1 0 0 10 0)
    (Some (mk_record (mk_datetime 2024 2 29 23 59 50 0) (str "0xab")))
    None = true.
Proof. reflexivity. Qed.

Example is_recent_one_microsecond_late :
  is_recent default_max_age (mk_datetime 2024 3 1 0 0 10 1)
    (Some (mk_record (mk_datetime 2024 2 29 23 59 50 0) (str "0xab")))
    None = false.
Proof. reflexivity. Qed.

(** ** The decision path *)

(** C4. A record older than [max_age] at the time it is evaluated is dropped
    by [_process_record] before anything else happens: the pipeline is
    unchanged, the only effect is the log line, so no trade is attempted. *)
Theorem stale_record_is_never_traded
    (config : PipelineConfig) (max_age : Z) (content : text)
    (clock : clock_reads) (trader : Z -> trade_result)
    (self : TradingPipeline) (record : AddressRecord) :
  timedelta_of_seconds max_age < dt_sub (at_guard clock) (timestamp record) ->
  let '(self', events, escaped) :=
    _process_record config max_age content clock trader self record in
  self' = self /\ events = [LogStale record] /\ escaped = None
  /\ forall address, ~ In (ExecuteTrade address) events.
Proof.
  intros Hold. unfold _process_record, is_recent.
  destruct (Z.leb_spec (dt_sub (at_guard clock) (timestamp record))
              (timedelta_of_seconds max_age)) as [Hle|_]; [lia|].
  simpl. repeat split. intros address [H|[]]. discriminate.
Qed.

Lemma stale_record_is_never_traded_witness :
  let record := mk_record (mk_datetime 2024 1 1 0 0 0 0) (str "0xab") in
  let clock := {| at_guard := mk_datetime 2024 1 1 0 0 21 0;
                  at_skip := mk_datetime 2024 1 1 0 0 21 0;
                  at_done := mk_datetime 2024 1 1 0 0 21 0 |} in
  timedelta_of_seconds 20 < dt_sub (at_guard clock) (timestamp record)
  /\ (let '(self', events, escaped) :=
        _process_record default_config 20 (to_line record) clock
          (fun _ => TradeOk) initial_pipeline record in
      self' = initial_pipeline /\ events = [LogStale record] /\ escaped = None
      /\ forall address, ~ In (ExecuteTrade address) events).
Proof.
  intros record clock.
  assert (timedelta_of_seconds 20 < dt_sub (at_guard clock) (timestamp record)) as H
    by (vm_compute; reflexivity).
  split; [exact H|].
  exact (stale_record_is_never_traded default_config 20 (to_line record) clock
           (fun _ => TradeOk) initial_pipeline record H).
Defined.

(** ** The debounce tracker *)

Lemma lookup_fold_delete (stale : list text) (m : gmap text datetime) (k : text) :
  fold_left (fun m address => delete address m) stale m !! k
  = if bool_decide (k ∈ stale) then None else m !! k.
Proof.
  revert m. induction stale as [|a stale IH]; intros m; simpl fold_left.
  - rewrite bool_decide_eq_false_2; [done|]. apply not_elem_of_nil.
  - rewrite IH. destruct (decide (k ∈ stale)) as [Hin|Hnin].
    + rewrite !bool_decide_eq_true_2; [done|by apply list_elem_of_further|done].
    + rewrite (bool_decide_eq_false_2 _ Hnin).
      destruct (decide (a = k)) as [->|Hne].
      * rewrite bool_decide_eq_true_2 by apply list_elem_of_here.
        apply lookup_delete_eq.
      * rewrite bool_decide_eq_false_2.
        -- by apply lookup_delete_ne.
        -- intros [?|?]%elem_of_cons; done.
Qed.

Lemma secs_geb_ltb (x y : Q) : secs_geb x y = negb (secs_ltb x y).
Proof. unfold secs_geb, secs_ltb. by destruct (x ?= y)%Q. Qed.

(** What [_prune_recent_executions] leaves of each entry. *)
Lemma prune_lookup (config : PipelineConfig) (self : TradingPipeline)
    (clock now : datetime) (k : text) :
  _recent_executions (_prune_recent_executions config self clock (Some now)) !! k
  = match _recent_executions self !! k with
    | Some ts =>
        if secs_geb (total_seconds (dt_sub now ts)) (debounce_seconds config)
        then None else Some ts
    | None => None
    end.
Proof.
  unfold _prune_recent_executions. case_bool_decide as Hempty.
  - rewrite Hempty, lookup_empty. reflexivity.
  - simpl. rewrite lookup_fold_delete.
    destruct (_recent_executions self !! k) as [ts|] eqn:Hk.
    + destruct (secs_geb (total_seconds (dt_sub now ts)) (debounce_seconds config))
        eqn:Hstale.
      * rewrite bool_decide_eq_true_2; [done|].
        apply list_elem_of_In, in_map_iff. exists (k, ts). split; [done|].
        apply filter_In. split; [|exact Hstale].
        apply list_elem_of_In, elem_of_map_to_list, Hk.
      * rewrite bool_decide_eq_false_2; [done|].
        intros Hin. apply list_elem_of_In, in_map_iff in Hin as [[k' ts'] [Hfst Hin]].
        simpl in Hfst. subst k'.
        apply filter_In in Hin as [Hin Hs].
        apply list_elem_of_In, elem_of_map_to_list in Hin.
        rewrite Hk in Hin. injection Hin as <-. congruence.
    + by destruct (bool_decide _).
Qed.

(** The other fields are not touched by pruning. *)
Lemma prune_other_fields (config : PipelineConfig) (self : TradingPipeline)
    (clock : datetime) (reference : option datetime) :
  let self' := _prune_recent_executions config self clock reference in
  _queue self' = _queue self
  /\ _last_executed_address self' = _last_executed_address self
  /\ _last_execution_time self' = _last_execution_time self
  /\ listener_paused self' = listener_paused self.
Proof.
  unfold _prune_recent_executions. by case_bool_decide.
Qed.

(** An entry that pruning removes was already not holding its address
    back. *)
Lemma pruned_entry_was_not_skipping (config : PipelineConfig)
    (self : TradingPipeline) (clock now : datetime) (record : AddressRecord)
    (ts : datetime) :
  _recent_executions self !! address record = Some ts ->
  _recent_executions (_prune_recent_executions config self clock (Some now))
    !! address record = None ->
  _should_skip config self now record = false.
Proof.
  intros Hts Hgone. unfold _should_skip.
  rewrite prune_lookup, Hts in Hgone. rewrite Hts.
  rewrite secs_geb_ltb in Hgone.
  by destruct (secs_ltb (total_seconds (dt_sub now ts)) (debounce_seconds config)).
Qed.

(** C10. Pruning at a reference time does not change the answer of
    [_should_skip] at that time, for any tracker and any address: the
    entries pruned are exactly those for which [_should_skip] already
    answers false. *)
Theorem prune_preserves_should_skip
    (config : PipelineConfig) (self : TradingPipeline)
    (clock now : datetime) (record : AddressRecord) :
  _should_skip config (_prune_recent_executions config self clock (Some now)) now record
  = _should_skip config self now record.
Proof.
  unfold _should_skip. rewrite prune_lookup.
  destruct (_recent_executions self !! address record) as [ts|]; [|done].
  rewrite secs_geb_ltb.
  destruct (secs_ltb (total_seconds (dt_sub now ts)) (debounce_seconds config))
    eqn:Hlt; simpl; [exact Hlt|reflexivity].
Qed.

(** ** The bounded retry *)

Lemma py_range_nil (lo hi : Z) : hi <= lo -> py_range lo hi = [].
Proof.
  intros H. unfold py_range.
  replace (Z.to_nat (hi - lo)) with O by lia. reflexivity.
Qed.

Lemma py_range_cons (lo hi : Z) :
  lo < hi -> py_range lo hi = lo :: py_range (lo + 1) hi.
Proof.
  intros H. unfold py_range.
  replace (Z.to_nat (hi - lo)) with (S (Z.to_nat (hi - (lo + 1)))) by lia.
  simpl. f_equal; [lia|].
  rewrite <- seq_shift, map_map. apply map_ext. intros i. lia.
Qed.

Lemma py_range_length (lo hi : Z) :
  List.length (py_range lo hi) = Z.to_nat (hi - lo).
Proof. unfold py_range. by rewrite length_map, length_seq. Qed.

Section Exhaustion.

Variable config : PipelineConfig.
Variable trader : Z -> trade_result.
Variable msg : Z -> text.
Hypothesis every_attempt_fails : forall k, trader k = TradeRaises (Exception (msg k)).

Lemma retry_loop_exhausted (address : text) (remaining : nat) :
  forall lo,
    Z.to_nat (retry_attempts config + 1 - lo) = remaining ->
    retry_loop trader address (retry_attempts config) (retry_delay_seconds config)
      (py_range lo (retry_attempts config + 1))
    = (separated_by [Sleep (retry_delay_seconds config)]
         (map (failed_attempt address (retry_attempts config) msg)
            (py_range lo (retry_attempts config + 1)))
       ++ [LogAllFailed address], None).
Proof.
  induction remaining as [|remaining IH]; intros lo Hlo.
  - rewrite py_range_nil by lia. reflexivity.
  - rewrite py_range_cons by lia. simpl retry_loop.
    rewrite every_attempt_fails, IH by lia.
    destruct (Z.ltb_spec lo (retry_attempts config)) as [Hlt|Hge].
    + rewrite (py_range_cons (lo + 1)) by lia. reflexivity.
    + rewrite (py_range_nil (lo + 1)) by lia. reflexivity.
Qed.

Lemma execute_with_retry_exhausted (address : text) :
  _execute_with_retry config trader address
  = (exhausted_trace address (retry_attempts config) (retry_delay_seconds config) msg,
     None).
Proof.
  unfold _execute_with_retry, exhausted_trace.
  by apply (retry_loop_exhausted address
              (Z.to_nat (retry_attempts config + 1 - 1))).
Qed.

End Exhaustion.

(** In a run of blocks that hold one trade each, separated by something that
    holds none, there are as many trades as blocks, and one separator less. *)
Lemma trades_in_separated (sep : list event) (blocks : list (list event)) :
  List.filter is_trade sep = [] ->
  Forall (fun b => List.length (List.filter is_trade b) = 1%nat) blocks ->
  List.length (List.filter is_trade (separated_by sep blocks)) = List.length blocks.
Proof.
  intros Hsep Hblocks. induction Hblocks as [|b blocks Hb _ IH]; [reflexivity|].
  destruct blocks as [|b' blocks].
  - simpl. exact Hb.
  - change (separated_by sep (b :: b' :: blocks))
      with (b ++ sep ++ separated_by sep (b' :: blocks)).
    rewrite !List.filter_app, !length_app, Hsep, Hb, IH. reflexivity.
Qed.

Lemma sleeps_in_separated (delay : Q) (blocks : list (list event)) :
  Forall (fun b => List.filter is_sleep b = []) blocks ->
  List.length (List.filter is_sleep (separated_by [Sleep delay] blocks))
  = Nat.pred (List.length blocks).
Proof.
  intros Hblocks. induction Hblocks as [|b blocks Hb _ IH]; [reflexivity|].
  destruct blocks as [|b' blocks].
  - simpl. by rewrite Hb.
  - change (separated_by [Sleep delay] (b :: b' :: blocks))
      with (b ++ [Sleep delay] ++ separated_by [Sleep delay] (b' :: blocks)).
    rewrite !List.filter_app, !length_app, Hb, IH. reflexivity.
Qed.

Lemma exhausted_trace_counts (address : text) (attempts : Z) (delay : Q)
    (msg : Z -> text) :
  let events := exhausted_trace address attempts delay msg in
  List.length (List.filter is_trade events) = Z.to_nat attempts
  /\ List.length (List.filter is_sleep events) = Z.to_nat (attempts - 1).
Proof.
  unfold exhausted_trace. simpl. rewrite !List.filter_app, !length_app. split.
  - rewrite trades_in_separated, length_map, py_range_length; simpl; [lia|done|].
    apply List.Forall_forall. intros b [k [<- _]]%in_map_iff. reflexivity.
  - rewrite sleeps_in_separated, length_map, py_range_length; simpl; [lia|].
    apply List.Forall_forall. intros b [k [<- _]]%in_map_iff. reflexivity.
Qed.

Lemma dt_sub_self (t : datetime) : dt_sub t t = 0.
Proof. unfold dt_sub. lia. Qed.

Lemma execute_with_retry_success_returns (config : PipelineConfig) (address : text) :
  snd (_execute_with_retry config (fun _ => TradeOk) address) = None.
Proof.
  unfold _execute_with_retry.
  by destruct (py_range 1 (retry_attempts config + 1)).
Qed.

(** What [_process_record] does with a record that passes its guards, given
    what [_execute_with_retry] did and that nothing escaped it. *)
Lemma process_record_accepted (config : PipelineConfig) (max_age : Z)
    (content : text) (clock : clock_reads) (trader : Z -> trade_result)
    (self : TradingPipeline) (record : AddressRecord) (trace : list event) :
  accepted config max_age content clock self record ->
  _execute_with_retry config trader (address record) = (trace, None) ->
  _process_record config max_age content clock trader self record
  = (_prune_recent_executions config
       (mk_pipeline (_queue self) (Some (address record)) (Some (at_done clock))
          (<[address record := at_done clock]> (_recent_executions self)) false)
       (at_done clock) (Some (at_done clock)),
     [ListenerPause] ++ trace ++ [ListenerResume], None).
Proof.
  intros (Hrecent & (latest & Hlatest & Haddr & Hts) & Hskip) Hexec.
  unfold _process_record. rewrite Hrecent, Hlatest. simpl negb.
  rewrite bool_decide_eq_true_2 by exact Haddr.
  unfold dt_neqb. rewrite Hts. simpl orb. cbv iota.
  assert (_should_skip config self (at_skip clock) record = false) as -> by exact Hskip.
  rewrite Hexec. reflexivity.
Qed.

(** The state [_process_record] leaves does not depend on whether the trade
    action succeeded or failed with an [Exception] every time. *)
Lemma process_record_state_ignores_failures (config : PipelineConfig)
    (max_age : Z) (content : text) (clock : clock_reads)
    (trader : Z -> trade_result) (msg : Z -> text)
    (self : TradingPipeline) (record : AddressRecord) :
  (forall k, trader k = TradeRaises (Exception (msg k))) ->
  let failing := _process_record config max_age content clock trader self record in
  let succeeding :=
    _process_record config max_age content clock (fun _ => TradeOk) self record in
  fst (fst failing) = fst (fst succeeding) /\ snd failing = None.
Proof.
  intros Hfail. unfold _process_record.
  destruct (negb (is_recent max_age (at_guard clock) (Some record) None)); [done|].
  destruct (match read_latest content with Some _ => _ | None => _ end); [done|].
  destruct (_should_skip config self (at_skip clock) record); [done|].
  rewrite (execute_with_retry_exhausted config trader msg Hfail).
  pose proof (execute_with_retry_success_returns config (address record)) as Hok.
  destruct (_execute_with_retry config (fun _ => TradeOk) (address record))
    as [events escaped].
  simpl in Hok. subst escaped. done.
Qed.

(** C3. When every attempt of the trade action fails, [_execute_with_retry]
    makes exactly [retry_attempts] calls (3 by default), sleeps the fixed
    delay between consecutive attempts and nowhere else, logs the terminal
    failure and returns normally; [_process_record] lets no exception out,
    leaves the same state as after a success, and for a record that passed
    its guards has resumed the listener and recorded the execution
    instant. *)
Theorem exhausted_retries_are_bounded_and_booked
    (config : PipelineConfig) (max_age : Z) (content : text)
    (clock : clock_reads) (trader : Z -> trade_result) (msg : Z -> text)
    (self : TradingPipeline) (record : AddressRecord) :
  (forall k, trader k = TradeRaises (Exception (msg k))) ->
  0 <= retry_attempts config ->
  let attempts := retry_attempts config in
  let trace :=
    exhausted_trace (address record) attempts (retry_delay_seconds config) msg in
  _execute_with_retry config trader (address record) = (trace, None)
  /\ Z.of_nat (List.length (List.filter is_trade trace)) = attempts
  /\ Z.of_nat (List.length (List.filter is_sleep trace)) = Z.max 0 (attempts - 1)
  /\ List.last trace (LogAllFailed (address record)) = LogAllFailed (address record)
  /\ retry_attempts default_config = 3
  /\ (let '(self', events, escaped) :=
        _process_record config max_age content clock trader self record in
      escaped = None
      /\ self' = fst (fst (_process_record config max_age content clock
                            (fun _ => TradeOk) self record))
      /\ (accepted config max_age content clock self record ->
          events = [ListenerPause] ++ trace ++ [ListenerResume]
          /\ listener_paused self' = false
          /\ _last_executed_address self' = Some (address record)
          /\ _last_execution_time self' = Some (at_done clock)
          /\ ((0 < debounce_seconds config)%Q ->
              _recent_executions self' !! address record = Some (at_done clock)))).
Proof.
  intros Hfail Hattempts attempts trace.
  pose proof (execute_with_retry_exhausted config trader msg Hfail (address record))
    as Hexec. fold attempts in Hexec. fold trace in Hexec.
  pose proof (exhausted_trace_counts (address record) attempts
                (retry_delay_seconds config) msg) as [Htrades Hsleeps].
  fold trace in Htrades, Hsleeps.
  split; [exact Hexec|]. split; [lia|]. split; [lia|].
  split; [apply last_snoc_default|]. split; [reflexivity|].
  pose proof (process_record_state_ignores_failures config max_age content clock
                trader msg self record Hfail) as [Hstate Hescaped].
  destruct (_process_record config max_age content clock trader self record)
    as [[self' events] escaped] eqn:Hrun.
  simpl in Hstate, Hescaped. split; [exact Hescaped|]. split; [exact Hstate|].
  intros Hacc.
  rewrite (process_record_accepted config max_age content clock trader self record
             trace Hacc Hexec) in Hrun.
  injection Hrun as <- <- _.
  pose proof (prune_other_fields config
    (mk_pipeline (_queue self) (Some (address record)) (Some (at_done clock))
       (<[address record := at_done clock]> (_recent_executions self)) false)
    (at_done clock) (Some (at_done clock))) as (_ & Ha & Ht & Hp).
  split; [reflexivity|]. split; [exact Hp|]. split; [exact Ha|]. split; [exact Ht|].
  intros Hpos. rewrite prune_lookup. simpl _recent_executions.
  rewrite lookup_insert_eq, dt_sub_self.
  assert (secs_geb (total_seconds 0) (debounce_seconds config) = false) as ->;
    [|reflexivity].
  unfold secs_geb. rewrite (proj1 (Qlt_alt _ _)); [reflexivity|].
  unfold total_seconds, Qlt in *. simpl in *. lia.
Qed.

Lemma exhausted_retries_are_bounded_and_booked_witness :
  (forall k, failing_trader k = TradeRaises (Exception (str "timeout")))
  /\ 0 <= retry_attempts default_config
  /\ accepted default_config 20 (appends empty_file [sample_older]) sample_clock
       initial_pipeline sample_older
  /\ (let '(self', events, escaped) :=
        _process_record default_config 20 (appends empty_file [sample_older])
          sample_clock failing_trader initial_pipeline sample_older in
      escaped = None
      /\ events = [ListenerPause]
                  ++ exhausted_trace sample_address 3 (2 # 1)%Q
                       (fun _ => str "timeout")
                  ++ [ListenerResume]
      /\ _last_execution_time self' = Some (at_done sample_clock)
      /\ _recent_executions self' !! sample_address = Some (at_done sample_clock)).
Proof.
  assert (forall k, failing_trader k = TradeRaises (Exception (str "timeout")))
    as Hfail by reflexivity.
  assert (0 <= retry_attempts default_config) as Hattempts
    by (vm_compute; discriminate).
  assert (accepted default_config 20 (appends empty_file [sample_older])
            sample_clock initial_pipeline sample_older) as Hacc.
  { split; [vm_compute; reflexivity|]. split; [|reflexivity].
    exists sample_older. split; [vm_compute; reflexivity|]. by split. }
  split; [exact Hfail|]. split; [exact Hattempts|]. split; [exact Hacc|].
  pose proof (exhausted_retries_are_bounded_and_booked default_config 20
                (appends empty_file [sample_older]) sample_clock failing_trader
                (fun _ => str "timeout") initial_pipeline sample_older
                Hfail Hattempts) as (_ & _ & _ & _ & _ & H).
  destruct (_process_record default_config 20 (appends empty_file [sample_older])
              sample_clock failing_trader initial_pipeline sample_older)
    as [[self' events] escaped].
  destruct H as (Hescaped & _ & H).
  destruct (H Hacc) as (Hevents & _ & _ & Htime & Hrecent).
  split; [exact Hescaped|]. split; [exact Hevents|]. split; [exact Htime|].
  apply Hrecent. reflexivity.
Defined.

(** ** Backups *)

(** When the directory exists, a failure to read the ledger or to write the
    snapshot is logged and [backup] returns [None]. *)
Lemma backup_copy_failure_is_reported (backup_dir : text) (clock : datetime)
    (fs : backup_fs) (exc : text) :
  fs_mkdir fs = Done tt ->
  fs_read_bytes fs = OSError exc
  \/ ((exists data, fs_read_bytes fs = Done data) /\ fs_write_bytes fs = OSError exc) ->
  backup backup_dir clock fs = (Returns None, [LogBackupFailed exc]).
Proof.
  intros Hmkdir [Hread|[[data Hread] Hwrite]]; unfold backup;
    rewrite Hmkdir, Hread; [reflexivity|]. by rewrite Hwrite.
Qed.

(** C9 (the code as it is). [backup] creates the backup directory before it
    enters its [try]: when that [mkdir] raises [OSError], the exception
    leaves [backup] - nothing is logged and no value is returned. *)
Theorem backup_mkdir_failure_escapes
    (backup_dir : text) (clock : datetime) (exc : text)
    (read : io text) (write : io unit) :
  backup backup_dir clock
    {| fs_mkdir := OSError exc; fs_read_bytes := read; fs_write_bytes := write |}
  = (Raises exc, []).
Proof. reflexivity. Qed.

Example backup_target_name :
  backup (str "data/backup") (mk_datetime 2024 5 6 7 8 9 123)
    {| fs_mkdir := Done tt; fs_read_bytes := Done []; fs_write_bytes := Done tt |}
  = (Returns (Some (str "data/backup/addresses_20240506_070809.txt")),
     [LogBackupCreated (str "data/backup/addresses_20240506_070809.txt")]).
Proof. reflexivity. Qed.

(** ** Normalised addresses *)

Lemma char_in_lower_hex (ch : ascii) :
  char_in ch (str "0123456789abcdef") = true -> lower_hex ch.
Proof.
  unfold char_in, str. simpl existsb. unfold chr_eqb, lower_hex.
  intros H.
  repeat (apply orb_true_iff in H as [H%Ascii.eqb_eq|H]; [subst ch; vm_compute;
    first [left; split; discriminate | right; split; discriminate]|]).
  discriminate.
Qed.

Lemma startswith_0x (s : text) :
  startswith s (str "0x") = true -> exists rest, s = str "0x" ++ rest.
Proof.
  destruct s as [|a [|b rest]]; intros H.
  - discriminate.
  - cbn [startswith str list_ascii_of_string] in H.
    apply andb_true_iff in H as [_ H]. discriminate.
  - cbn [startswith str list_ascii_of_string] in H.
    apply andb_true_iff in H as [Ha H]. apply andb_true_iff in H as [Hb _].
    apply Ascii.eqb_eq in Ha, Hb. subst. by exists rest.
Qed.

(** What [_normalize_address] accepts has the normalised shape. *)
Lemma normalize_address_shape (nfkc : text -> text) (candidate : option text)
    (a : text) :
  _normalize_address nfkc candidate = Some a -> normalized_address a.
Proof.
  unfold _normalize_address.
  destruct candidate as [[|c candidate]|]; try discriminate.
  set (t := lower _).
  destruct (startswith t (str "0x")) eqn:Hprefix; simpl; [|discriminate].
  destruct (Z.eqb_spec (len t) 42) as [Hlen|]; simpl; [|discriminate].
  destruct (forallb _ (skipn 2 t)) eqn:Hhex; simpl; [|discriminate].
  intros [= <-]. apply startswith_0x in Hprefix as [rest Ht].
  exists rest. rewrite Ht in Hhex, Hlen. simpl in Hhex. split; [exact Ht|]. split.
  - unfold len in Hlen. simpl in Hlen. lia.
  - apply List.Forall_forall. intros ch Hch. apply char_in_lower_hex.
    rewrite forallb_forall in Hhex. by apply Hhex.
Qed.

(** C5 (as the code has it). Every record the capture loop builds - an
    address accepted by [_normalize_address], handed to [create_record] -
    has an address of the shape ["0x"] + 40 lowercase hexadecimal
    characters, and so has the record [_write_temp_addresses] hands on. *)
Theorem captured_records_are_normalized
    (nfkc : text -> text) (clock : nat -> datetime) (addresses : list text) :
  (forall n r, In r (temp_records nfkc clock n addresses) ->
               normalized_address (address r))
  /\ (forall r, _write_temp_addresses nfkc clock addresses = Some r ->
                normalized_address (address r)).
Proof.
  assert (forall n r, In r (temp_records nfkc clock n addresses) ->
                      normalized_address (address r)) as Hall.
  { induction addresses as [|raw rest IH]; intros n r; cbn [temp_records];
      [intros []|].
    destruct (_normalize_address nfkc (Some raw)) as [normalized|] eqn:Hn.
    - intros [<-|Hin]; [|by eapply IH].
      simpl. by eapply normalize_address_shape.
    - apply IH. }
  split; [exact Hall|].
  intros r Hlast. unfold _write_temp_addresses in Hlast.
  apply (Hall 0%nat).
  destruct (temp_records nfkc clock 0 addresses) as [|x l] using rev_ind;
    [discriminate|].
  rewrite map_app in Hlast. simpl in Hlast. rewrite last_snoc_default in Hlast.
  injection Hlast as ->. apply in_app_iff. right. by left.
Qed.

Lemma captured_records_are_normalized_witness :
  let raw := str "0X00000000000000000000 000000000000000000AA" in
  let clock := fun _ : nat => mk_datetime 2024 1 1 12 0 5 0 in
  In sample_newer (temp_records (fun t => t) clock 0 [raw])
  /\ normalized_address (address sample_newer).
Proof.
  intros raw clock.
  assert (In sample_newer (temp_records (fun t => t) clock 0 [raw])) as Hin
    by (vm_compute; left; reflexivity).
  split; [exact Hin|].
  exact (proj1 (captured_records_are_normalized (fun t => t) clock [raw])
           0%nat sample_newer Hin).
Defined.

(** C5 (as stated) fails: neither [from_line] nor [create_record] looks at
    the address.  A persisted line whose address part is [hello] is read
    into a record with that address. *)
Lemma from_line_keeps_any_address :
  from_line (str "2024-01-02T03:04:05+00:00|hello")
  = Some (mk_record (mk_datetime 2024 1 2 3 4 5 0) (str "hello"))
  /\ create_record (mk_datetime 2024 1 2 3 4 5 0) (str "hello") None
     = mk_record (mk_datetime 2024 1 2 3 4 5 0) (str "hello")
  /\ ~ normalized_address (str "hello").
Proof.
  split; [vm_compute; reflexivity|]. split; [reflexivity|].
  intros (hex & H & _). discriminate H.
Qed.

(** ** Text: [strip], [split], [splitlines] *)

Lemma lstrip_head (s : text) :
  lstrip s = [] \/ exists c t, lstrip s = c :: t /\ is_space c = false.
Proof.
  induction s as [|c s IH]; [by left|].
  simpl. destruct (is_space c) eqn:Hc; [exact IH|]. right. by exists c, s.
Qed.

Lemma rstrip_cons_nonspace (c : ascii) (s : text) :
  is_space c = false -> rstrip (c :: s) = c :: rstrip s.
Proof. intros Hc. simpl. rewrite Hc. by destruct (rstrip s). Qed.

Lemma rstrip_idem (s : text) : rstrip (rstrip s) = rstrip s.
Proof.
  induction s as [|c s IH]; [reflexivity|].
  simpl. destruct (rstrip s) as [|k kept] eqn:Hk.
  - destruct (is_space c) eqn:Hc; [reflexivity|]. simpl. by rewrite Hc.
  - change (rstrip (c :: k :: kept) = c :: k :: kept).
    simpl. simpl in IH. rewrite IH. reflexivity.
Qed.

Lemma lstrip_strip (s : text) : lstrip (strip s) = strip s.
Proof.
  unfold strip. destruct (lstrip_head s) as [->|(c & t & -> & Hc)]; [reflexivity|].
  rewrite rstrip_cons_nonspace by exact Hc. simpl. by rewrite Hc.
Qed.

Lemma rstrip_strip (s : text) : rstrip (strip s) = strip s.
Proof. unfold strip. apply rstrip_idem. Qed.

Lemma strip_idem (s : text) : strip (strip s) = strip s.
Proof. unfold strip at 1. rewrite lstrip_strip. apply rstrip_strip. Qed.

Lemma rstrip_app_kept (p q : text) :
  rstrip q = q -> q <> [] -> rstrip (p ++ q) = p ++ q.
Proof.
  intros Hq Hne. induction p as [|c p IH]; [exact Hq|].
  simpl. rewrite IH. destruct (p ++ q) eqn:E; [|reflexivity].
  by destruct p, q.
Qed.

Lemma split_maxsplit1_at (sep : ascii) (p q : text) :
  Forall (fun c => chr_eqb c sep = false) p ->
  split_maxsplit1 sep (p ++ sep :: q) = [p; q].
Proof.
  intros Hp. induction Hp as [|c p Hc _ IH]; simpl.
  - unfold chr_eqb. by rewrite Ascii.eqb_refl.
  - by rewrite Hc, IH.
Qed.

(** [split] gives back the text itself, or the two sides of the first
    separator. *)
Lemma split_maxsplit1_parts (sep : ascii) (s : text) :
  split_maxsplit1 sep s = [s]
  \/ exists a b, split_maxsplit1 sep s = [a; b] /\ s = a ++ sep :: b.
Proof.
  induction s as [|c s IH]; [by left|].
  simpl. destruct (chr_eqb c sep) eqn:Hc.
  - right. exists [], s. apply Ascii.eqb_eq in Hc. by subst.
  - destruct IH as [->|(a & b & -> & ->)]; [by left|].
    right. by exists (c :: a), b.
Qed.

Section Sublists.

Variable P : ascii -> Prop.

Lemma Forall_lstrip (s : text) : Forall P s -> Forall P (lstrip s).
Proof.
  induction 1 as [|c s Hc Hs IH]; simpl; [constructor|].
  destruct (is_space c); [exact IH|by constructor].
Qed.

Lemma Forall_rstrip (s : text) : Forall P s -> Forall P (rstrip s).
Proof.
  induction 1 as [|c s Hc Hs IH]; simpl; [constructor|].
  destruct (rstrip s); [destruct (is_space c); repeat constructor; done|].
  by constructor.
Qed.

Lemma Forall_strip (s : text) : Forall P s -> Forall P (strip s).
Proof. intros H. by apply Forall_rstrip, Forall_lstrip. Qed.

End Sublists.

Lemma splitlines_from_no_linebreak (n : nat) :
  forall (s line : text),
    (List.length s <= n)%nat -> no_linebreak line ->
    Forall no_linebreak (splitlines_from line s).
Proof.
  assert (forall line : text, no_linebreak line ->
            Forall no_linebreak (match line with [] => [] | _ => [line] end))
    as Hlast.
  { intros line Hline. destruct line; [constructor|].
    constructor; [exact Hline|constructor]. }
  induction n as [|n IH]; intros s line Hlen Hline.
  - destruct s; [|simpl in Hlen; lia]. by apply Hlast.
  - destruct s as [|c s]; [by apply Hlast|].
    simpl in Hlen. simpl. destruct (is_linebreak c) eqn:Hc.
    + constructor; [exact Hline|].
      destruct s as [|c' s]; [apply IH; [simpl; lia|constructor]|].
      destruct (chr_eqb c CR && chr_eqb c' LF);
        apply IH; simpl in *; try lia; constructor.
    + apply IH; [lia|]. apply Forall_app. split; [exact Hline|].
      by repeat constructor.
Qed.

Lemma splitlines_no_linebreak (s : text) : Forall no_linebreak (splitlines s).
Proof.
  apply (splitlines_from_no_linebreak (List.length s)); [lia|constructor].
Qed.

Lemma splitlines_from_line (line rest acc : text) :
  no_linebreak line ->
  splitlines_from acc (line ++ LF :: rest) = (acc ++ line) :: splitlines_from [] rest.
Proof.
  intros Hline. revert acc. induction Hline as [|c line Hc _ IH]; intros acc.
  - rewrite app_nil_r. simpl. by destruct rest.
  - simpl. rewrite Hc, IH, <- app_assoc. reflexivity.
Qed.

Lemma splitlines_join_lf (lines : list text) :
  Forall no_linebreak lines -> lines <> [] ->
  splitlines (join_lf lines ++ [LF]) = lines.
Proof.
  intros Hlines Hne. unfold splitlines.
  induction Hlines as [|line lines Hline Hlines IH]; [done|].
  destruct lines as [|line' lines].
  - simpl. by rewrite splitlines_from_line.
  - change (join_lf (line :: line' :: lines))
      with (line ++ LF :: join_lf (line' :: lines)).
    rewrite <- app_assoc. simpl. rewrite splitlines_from_line by exact Hline.
    simpl. f_equal. by apply IH.
Qed.

(** ** Timestamps in text *)

Lemma digit_cases (d : Z) :
  0 <= d <= 9 ->
  d = 0 \/ d = 1 \/ d = 2 \/ d = 3 \/ d = 4 \/ d = 5 \/ d = 6 \/ d = 7 \/ d = 8 \/ d = 9.
Proof. lia. Qed.

Lemma digit_val_digit_char (d : Z) :
  0 <= d <= 9 -> digit_val (digit_char d) = Some d.
Proof.
  intros H. apply digit_cases in H.
  repeat (destruct H as [->|H]; [reflexivity|]). subst. reflexivity.
Qed.

Lemma digit_char_plain (d : Z) : 0 <= d <= 9 -> plain_char (digit_char d).
Proof.
  intros H. apply digit_cases in H.
  repeat (destruct H as [->|H]; [by vm_compute|]). subst. by vm_compute.
Qed.

Lemma zfill_plain (width : nat) (n : Z) : Forall plain_char (zfill width n).
Proof.
  induction width as [|w IH]; simpl; constructor; [|exact IH].
  apply digit_char_plain.
  pose proof (Z.mod_pos_bound (n / 10 ^ Z.of_nat w) 10). lia.
Qed.

Lemma parse_digits_zfill (width : nat) :
  forall (n acc : Z) (rest : text),
    parse_digits width acc (zfill width n ++ rest)
    = Some (acc * 10 ^ Z.of_nat width + n mod 10 ^ Z.of_nat width, rest).
Proof.
  induction width as [|w IH]; intros n acc rest.
  - simpl. rewrite Z.mod_1_r. do 2 f_equal. lia.
  - cbn [zfill parse_digits app].
    rewrite digit_val_digit_char
      by (pose proof (Z.mod_pos_bound (n / 10 ^ Z.of_nat w) 10); lia).
    rewrite IH. do 2 f_equal.
    rewrite Nat2Z.inj_succ, Z.pow_succ_r by lia.
    set (p := 10 ^ Z.of_nat w).
    assert (0 < p) by (apply Z.pow_pos_nonneg; lia).
    rewrite (Z.mul_comm 10 p), (Z.rem_mul_r n p 10) by lia. ring.
Qed.

Lemma parse_digits_zfill_small (width : nat) (n : Z) (rest : text) :
  0 <= n < 10 ^ Z.of_nat width ->
  parse_digits width 0 (zfill width n ++ rest) = Some (n, rest).
Proof.
  intros H. rewrite parse_digits_zfill, Z.mod_small by exact H. reflexivity.
Qed.

Lemma days_in_month_le_31 (y m : Z) : _days_in_month y m <= 31.
Proof.
  unfold _days_in_month.
  repeat match goal with |- context [if ?b then _ else _] => destruct b end; lia.
Qed.

Lemma valid_datetime_ranges (t : datetime) :
  valid_datetime t = true ->
  1 <= year t <= 9999 /\ 1 <= month t <= 12 /\ 1 <= day t <= 31
  /\ 0 <= hour t <= 23 /\ 0 <= minute t <= 59 /\ 0 <= second t <= 59
  /\ 0 <= microsecond t <= 999999.
Proof.
  unfold valid_datetime. rewrite !andb_true_iff, !Z.leb_le.
  pose proof (days_in_month_le_31 (year t) (month t)). lia.
Qed.

Lemma isoformat_plain (t : datetime) : Forall plain_char (isoformat t).
Proof.
  unfold isoformat.
  repeat (apply Forall_app; split); try apply zfill_plain;
    try (by repeat constructor).
  destruct (microsecond t =? 0); [constructor|].
  apply Forall_app. split; [by repeat constructor|apply zfill_plain].
Qed.

Lemma isoformat_head (t : datetime) : exists c rest, isoformat t = c :: rest.
Proof. unfold isoformat. simpl. eauto. Qed.

Lemma fromisoformat_isoformat (t : datetime) :
  valid_datetime t = true -> fromisoformat (isoformat t) = Some t.
Proof.
  intros Hvalid. pose proof (valid_datetime_ranges t Hvalid) as Hr.
  unfold fromisoformat, isoformat.
  do 6 (rewrite parse_digits_zfill_small by (simpl; lia);
        cbn [mbind option_bind str list_ascii_of_string app expect chr_eqb
             Ascii.eqb Bool.eqb]).
  destruct t as [y m d hh mm ss us].
  cbn [year month day hour minute second microsecond] in Hr |- *.
  destruct (Z.eqb_spec us 0) as [->|Hus].
  - cbn [app mbind option_bind chr_eqb Ascii.eqb Bool.eqb].
    rewrite bool_decide_eq_true_2 by reflexivity. by rewrite Hvalid.
  - cbn [app mbind option_bind chr_eqb Ascii.eqb Bool.eqb].
    rewrite parse_digits_zfill_small by (simpl; lia).
    cbn [mbind option_bind].
    rewrite bool_decide_eq_true_2 by reflexivity. by rewrite Hvalid.
Qed.

Lemma fromisoformat_valid (s : text) (t : datetime) :
  fromisoformat s = Some t -> valid_datetime t = true.
Proof.
  unfold fromisoformat. intros H.
  repeat match type of H with
         | (?m ≫= _) = Some _ =>
             let E := fresh "E" in
             destruct m as [[? ?]|] eqn:E; cbn [mbind option_bind] in H;
             [|discriminate H]
         | (?m ≫= _) = Some _ =>
             let E := fresh "E" in
             destruct m as [?|] eqn:E; cbn [mbind option_bind] in H;
             [|discriminate H]
         end.
  match type of H with
  | (if ?b then _ else _) = _ => destruct b eqn:Hb; [|discriminate H]
  end.
  injection H as <-. by apply andb_true_iff in Hb as [_ Hb].
Qed.

(** ** Records in text *)

Lemma strip_clean (a : text) :
  strip a = a -> lstrip a = a /\ rstrip a = a.
Proof.
  intros H. split.
  - rewrite <- H. apply lstrip_strip.
  - rewrite <- H. apply rstrip_strip.
Qed.

Lemma to_line_shape (r : AddressRecord) :
  to_line r = isoformat (timestamp r) ++ "|"%char :: address r.
Proof. reflexivity. Qed.

(** A record is read back from the line it is written as. *)
Lemma from_line_to_line (r : AddressRecord) :
  wf_record r -> from_line (to_line r) = Some r.
Proof.
  intros [Hvalid [Hstrip Hbreak]].
  destruct (strip_clean _ Hstrip) as [_ Hr].
  pose proof (isoformat_plain (timestamp r)) as Hplain.
  destruct (isoformat_head (timestamp r)) as (c & rest & Hiso).
  assert (strip (to_line r) = to_line r) as Hline.
  { rewrite to_line_shape. unfold strip.
    assert (lstrip (isoformat (timestamp r) ++ "|"%char :: address r)
            = isoformat (timestamp r) ++ "|"%char :: address r) as ->.
    { rewrite Hiso in Hplain |- *. inversion Hplain as [|? ? [Hc _] _]; subst.
      simpl. by rewrite Hc. }
    apply rstrip_app_kept; [|done].
    rewrite rstrip_cons_nonspace by reflexivity. by rewrite Hr. }
  unfold from_line. rewrite Hline, to_line_shape.
  rewrite split_maxsplit1_at.
  - rewrite fromisoformat_isoformat by exact Hvalid. rewrite Hstrip.
    by destruct r.
  - eapply Forall_impl; [exact Hplain|]. by intros ch (_ & _ & H).
Qed.

Lemma to_line_no_linebreak (r : AddressRecord) :
  wf_record r -> no_linebreak (to_line r).
Proof.
  intros [_ [_ Hbreak]]. rewrite to_line_shape. apply Forall_app. split.
  - eapply Forall_impl; [apply isoformat_plain|]. by intros ch (_ & H & _).
  - by constructor.
Qed.

(** What [from_line] reads from a line of the file is a well-formed
    record. *)
Lemma from_line_wf (line : text) (r : AddressRecord) :
  no_linebreak line -> from_line line = Some r -> wf_record r.
Proof.
  intros Hline. unfold from_line.
  destruct (split_maxsplit1_parts "|"%char (strip line))
    as [->|(a & b & -> & Hparts)]; [discriminate|].
  destruct (fromisoformat a) as [ts|] eqn:Hts; [|discriminate].
  intros [= <-]. split; [by eapply fromisoformat_valid|].
  split; [apply strip_idem|]. simpl.
  apply Forall_strip.
  assert (no_linebreak (strip line)) as H by by apply Forall_strip.
  rewrite Hparts in H. apply Forall_app in H as [_ H].
  by inversion H.
Qed.

Lemma lower_hex_plain (c : ascii) :
  lower_hex c -> is_space c = false /\ is_linebreak c = false.
Proof.
  unfold lower_hex, is_space, is_linebreak. intros H.
  split; apply orb_false_iff; split; apply andb_false_iff; lia.
Qed.

Lemma rstrip_nonspace (s : text) :
  Forall (fun c => is_space c = false) s -> rstrip s = s.
Proof.
  induction 1 as [|c s Hc _ IH]; [done|].
  by rewrite rstrip_cons_nonspace, IH.
Qed.

(** A normalised address is written to the file and read back unchanged. *)
Lemma normalized_address_clean (a : text) :
  normalized_address a -> clean_address a.
Proof.
  intros (hex & -> & _ & Hhex).
  assert (Forall (fun c => is_space c = false /\ is_linebreak c = false)
            (str "0x" ++ hex)) as Hplain.
  { apply Forall_app. split; [by repeat constructor|].
    eapply Forall_impl; [exact Hhex|]. apply lower_hex_plain. }
  split.
  - unfold strip. change (lstrip (str "0x" ++ hex)) with (str "0x" ++ hex).
    apply rstrip_nonspace. eapply Forall_impl; [exact Hplain|]. by intros c [H _].
  - eapply Forall_impl; [exact Hplain|]. by intros c [_ H].
Qed.

(** The records the capture loop builds are well formed, as long as the
    clock gives datetimes. *)
Lemma captured_records_wf (nfkc : text -> text) (clock : nat -> datetime)
    (n : nat) (addresses : list text) :
  (forall i, valid_datetime (clock i) = true) ->
  Forall wf_record (temp_records nfkc clock n addresses).
Proof.
  intros Hclock. revert n.
  induction addresses as [|raw rest IH]; intros n; cbn [temp_records];
    [constructor|].
  destruct (_normalize_address nfkc (Some raw)) as [normalized|] eqn:Hn; [|apply IH].
  constructor; [|apply IH]. split; [apply Hclock|].
  by eapply normalized_address_clean, normalize_address_shape.
Qed.

(** ** The order of timestamps *)

Lemma lex_compare_antisym (a b : list Z) :
  lex_compare a b = CompOpp (lex_compare b a).
Proof.
  revert b. induction a as [|x a IH]; intros [|y b]; simpl; try reflexivity.
  rewrite (Z.compare_antisym y x).
  destruct (y ?= x); simpl; [apply IH|reflexivity|reflexivity].
Qed.

Lemma lex_compare_refl (a : list Z) : lex_compare a a = Eq.
Proof. induction a as [|x a IH]; simpl; [|rewrite Z.compare_refl]; done. Qed.

Lemma lex_compare_trans (a b c : list Z) :
  lex_compare a b <> Gt -> lex_compare b c <> Gt -> lex_compare a c <> Gt.
Proof.
  revert b c. induction a as [|x a IH]; intros [|y b] [|z c]; simpl; try done.
  destruct (Z.compare_spec x y), (Z.compare_spec y z), (Z.compare_spec x z);
    try done; try lia.
  apply IH.
Qed.

Lemma dt_leb_refl (a : datetime) : dt_leb a a = true.
Proof. unfold dt_leb, dt_gtb, dt_compare. by rewrite lex_compare_refl. Qed.

Lemma dt_gtb_leb (a b : datetime) : dt_gtb a b = true -> dt_leb b a = true.
Proof.
  unfold dt_leb, dt_gtb, dt_compare.
  rewrite (lex_compare_antisym (dt_fields b)).
  by destruct (lex_compare (dt_fields a) (dt_fields b)).
Qed.

Lemma dt_leb_trans (a b c : datetime) :
  dt_leb a b = true -> dt_leb b c = true -> dt_leb a c = true.
Proof.
  unfold dt_leb, dt_gtb, dt_compare. intros Hab Hbc.
  pose proof (lex_compare_trans (dt_fields a) (dt_fields b) (dt_fields c)) as H.
  destruct (lex_compare (dt_fields a) (dt_fields b)),
    (lex_compare (dt_fields b) (dt_fields c)),
    (lex_compare (dt_fields a) (dt_fields c)); try done; exfalso; by apply H.
Qed.

(** ** [sorted] *)

Lemma insert_by_timestamp_perm (r : AddressRecord) (l : list AddressRecord) :
  Permutation (insert_by_timestamp r l) (r :: l).
Proof.
  induction l as [|x l IH]; simpl; [reflexivity|].
  destruct (dt_gtb (timestamp r) (timestamp x)); [|reflexivity].
  rewrite IH. apply perm_swap.
Qed.

Lemma sorted_by_timestamp_perm (l : list AddressRecord) :
  Permutation (sorted_by_timestamp l) l.
Proof.
  induction l as [|x l IH]; simpl; [reflexivity|].
  rewrite insert_by_timestamp_perm. by constructor.
Qed.

Lemma insert_by_timestamp_ascending (r : AddressRecord) (l : list AddressRecord) :
  ascending l -> ascending (insert_by_timestamp r l).
Proof.
  unfold ascending. induction 1 as [|x l Hl IH Hx]; simpl.
  - repeat constructor.
  - destruct (dt_gtb (timestamp r) (timestamp x)) eqn:Hgt.
    + constructor; [exact IH|].
      eapply Permutation_Forall; [symmetry; apply insert_by_timestamp_perm|].
      constructor; [by apply dt_gtb_leb|exact Hx].
    + assert (ts_le r x) as Hrx by (unfold ts_le, dt_leb; by rewrite Hgt).
      constructor; [by constructor|].
      constructor; [exact Hrx|].
      eapply Forall_impl; [exact Hx|].
      intros y Hxy. by eapply dt_leb_trans.
Qed.

Lemma sorted_by_timestamp_ascending (l : list AddressRecord) :
  ascending (sorted_by_timestamp l).
Proof.
  induction l as [|x l IH]; simpl; [constructor|].
  by apply insert_by_timestamp_ascending.
Qed.

Lemma sorted_by_timestamp_singleton (r : AddressRecord) :
  sorted_by_timestamp [r] = [r].
Proof. reflexivity. Qed.

(** The last record of an ascending list has the greatest timestamp. *)
Lemma ascending_last_greatest (l : list AddressRecord) (r : AddressRecord) :
  ascending l -> last l = Some r -> forall x, In x l -> ts_le x r.
Proof.
  unfold ascending. induction 1 as [|y l Hl IH Hy]; [done|].
  intros Hlast x [<-|Hx].
  - destruct l as [|z l]; [injection Hlast as <-; apply dt_leb_refl|].
    rewrite List.Forall_forall in Hy. apply Hy.
    change (last (z :: l) = Some r) in Hlast.
    apply list_elem_of_In. by apply last_Some_elem_of.
  - destruct l as [|z l]; [done|]. by apply IH.
Qed.

(** ** The record store *)

(** [read_all] keeps the lines that parse, in the order of the file, and
    passes over the others. *)
Lemma read_all_omap (content : text) :
  read_all content = omap from_line (splitlines content).
Proof.
  unfold read_all.
  assert (forall lines acc,
            fold_left
              (fun records line =>
                 match from_line line with
                 | Some record => records ++ [record]
                 | None => records
                 end) lines acc
            = acc ++ omap from_line lines) as H.
  { induction lines as [|line lines IH]; intros acc; simpl.
    - by rewrite app_nil_r.
    - rewrite IH. destruct (from_line line); [|done].
      by rewrite <- app_assoc. }
  apply (H _ []).
Qed.

(** [read_latest] returns the last record [read_all] lists. *)
Lemma read_latest_last (content : text) :
  read_latest content = last (read_all content).
Proof.
  rewrite read_all_omap. unfold read_latest.
  induction (splitlines content) as [|line lines IH] using rev_ind; [done|].
  rewrite rev_app_distr, omap_app, last_app. simpl.
  destruct (from_line line); [done|exact IH].
Qed.

Lemma read_all_wf (content : text) : Forall wf_record (read_all content).
Proof.
  rewrite read_all_omap. pose proof (splitlines_no_linebreak content) as H.
  induction H as [|line lines Hline _ IH]; simpl; [constructor|].
  destruct (from_line line) eqn:E; [|exact IH].
  constructor; [by eapply from_line_wf|exact IH].
Qed.

Lemma merge_lines_records (lines : list text) (d : dict) :
  fold_left merge_line lines d = fold_left merge_record (omap from_line lines) d.
Proof.
  revert d. induction lines as [|line lines IH]; intros d; simpl; [done|].
  unfold merge_line at 2. destruct (from_line line); simpl; apply IH.
Qed.

Lemma omap_cons_Some {A B} (f : A -> option B) (a : A) (l : list A) (y : B) :
  f a = Some y -> omap f (a :: l) = y :: omap f l.
Proof. intros H. simpl. by rewrite H. Qed.

(** The lines [append] writes are read back as the records they are. *)
Lemma read_all_written (records : list AddressRecord) :
  Forall wf_record records ->
  read_all
    (match join_lf (map to_line records) with
     | [] => join_lf (map to_line records)
     | _ => join_lf (map to_line records) ++ [LF]
     end)
  = records.
Proof.
  intros Hwf.
  assert (omap from_line (map to_line records) = records) as Hread.
  { induction Hwf as [|x rs Hx _ IH]; [done|].
    cbn [map]. rewrite (omap_cons_Some from_line _ _ x), IH; [done|].
    by apply from_line_to_line. }
  assert (Forall no_linebreak (map to_line records)) as Hlines.
  { clear Hread. induction Hwf as [|x rs Hx _ IH]; cbn [map]; constructor;
      [by apply to_line_no_linebreak|exact IH]. }
  destruct records as [|r records]; [reflexivity|].
  assert (join_lf (map to_line (r :: records)) <> []) as Hne.
  { destruct (isoformat_head (timestamp r)) as (c & rest & Hiso).
    simpl. rewrite to_line_shape, Hiso. by destruct (map to_line records). }
  destruct (join_lf (map to_line (r :: records))) as [|c0 joined] eqn:E; [done|].
  rewrite <- E. by rewrite read_all_omap, splitlines_join_lf.
Qed.

Section Dict.

Variable P : AddressRecord -> Prop.

Lemma dict_set_values (d : dict) (k : text) (v : AddressRecord) :
  Forall P (dict_values d) -> P v -> Forall P (dict_values (dict_set d k v)).
Proof.
  intros Hd Hv. induction d as [|[k' v'] d IH]; simpl.
  - by repeat constructor.
  - inversion Hd; subst. case_bool_decide; simpl; constructor; auto.
Qed.

Lemma merge_record_values (d : dict) (r : AddressRecord) :
  Forall P (dict_values d) -> P r -> Forall P (dict_values (merge_record d r)).
Proof.
  intros Hd Hr. unfold merge_record.
  destruct (dict_get d (address r)); [|by apply dict_set_values].
  destruct (dt_gtb _ _); [by apply dict_set_values|exact Hd].
Qed.

Lemma merge_records_values (records : list AddressRecord) (d : dict) :
  Forall P (dict_values d) -> Forall P records ->
  Forall P (dict_values (fold_left merge_record records d)).
Proof.
  intros Hd Hrs. revert d Hd.
  induction Hrs as [|r records Hr _ IH]; intros d Hd; simpl; [exact Hd|].
  apply IH. by apply merge_record_values.
Qed.

End Dict.

(** What [append] leaves in the file, as [read_all] sees it: the records
    that were there, merged by address, with the new record in the place of
    its address, sorted by timestamp. *)
Lemma read_all_append (content : text) (record : AddressRecord) :
  wf_record record ->
  read_all (fst (append content record))
  = sorted_by_timestamp
      (dict_values
         (dict_set (fold_left merge_record (read_all content) [])
            (address record) record)).
Proof.
  intros Hwf. unfold append. cbn [fst].
  rewrite merge_lines_records, <- read_all_omap.
  apply read_all_written.
  eapply Permutation_Forall; [symmetry; apply sorted_by_timestamp_perm|].
  apply dict_set_values; [|exact Hwf].
  apply merge_records_values; [constructor|apply read_all_wf].
Qed.

Lemma reachable_read_all_ascending (content : text) :
  reachable content -> ascending (read_all content).
Proof.
  destruct 1 as [|content record _ Hwf|content _].
  - constructor.
  - rewrite read_all_append by exact Hwf. apply sorted_by_timestamp_ascending.
  - constructor.
Qed.

(** C6. In every content the store reaches by appends, [read_all] lists the
    records in non-decreasing timestamp order; and on any content at all it
    returns the lines that parse, in file order, passing over the others
    (no line makes it fail). *)
Theorem read_all_is_ascending (content : text) :
  reachable content ->
  ascending (read_all content)
  /\ forall anything : text,
       read_all anything = omap from_line (splitlines anything).
Proof.
  intros H. split; [by apply reachable_read_all_ascending|apply read_all_omap].
Qed.

Lemma read_all_is_ascending_witness :
  reachable (appends empty_file [sample_other; sample_newer])
  /\ read_all (appends empty_file [sample_other; sample_newer])
     = [sample_newer; sample_other]
  /\ ascending (read_all (appends empty_file [sample_other; sample_newer])).
Proof.
  assert (reachable (appends empty_file [sample_other; sample_newer])) as Hreach.
  { apply (reachable_append _ sample_newer); [|wf_by_computation].
    apply (reachable_append _ sample_other); [constructor|wf_by_computation]. }
  split; [exact Hreach|]. split; [vm_compute; reflexivity|].
  exact (proj1 (read_all_is_ascending _ Hreach)).
Defined.

(** C7. [read_latest] returns none exactly when the history has no valid
    record; and in every content the store reaches, the record it returns is
    a record of the history whose timestamp is at least that of every record
    of the history. *)
Theorem read_latest_is_greatest (content : text) :
  (read_latest content = None <-> read_all content = [])
  /\ (reachable content ->
      forall r, read_latest content = Some r ->
        In r (read_all content)
        /\ forall x, In x (read_all content) -> ts_le x r).
Proof.
  rewrite read_latest_last. split.
  - apply last_None.
  - intros Hreach r Hlast. split.
    + apply list_elem_of_In. by apply last_Some_elem_of.
    + by apply ascending_last_greatest; [apply reachable_read_all_ascending|].
Qed.

Lemma read_latest_is_greatest_witness :
  reachable (appends empty_file [sample_other; sample_newer])
  /\ read_latest (appends empty_file [sample_other; sample_newer])
     = Some sample_other
  /\ (forall x, In x (read_all (appends empty_file [sample_other; sample_newer])) ->
                ts_le x sample_other).
Proof.
  assert (reachable (appends empty_file [sample_other; sample_newer])) as Hreach.
  { apply (reachable_append _ sample_newer); [|wf_by_computation].
    apply (reachable_append _ sample_other); [constructor|wf_by_computation]. }
  assert (read_latest (appends empty_file [sample_other; sample_newer])
          = Some sample_other) as Hlatest by (vm_compute; reflexivity).
  split; [exact Hreach|]. split; [exact Hlatest|].
  exact (proj2 (proj2 (read_latest_is_greatest _) Hreach sample_other Hlatest)).
Defined.

(** *** One record per address *)

Lemma dict_set_keys (d : dict) (k k' : text) (v : AddressRecord) :
  In k' (map fst (dict_set d k v)) -> k' = k \/ In k' (map fst d).
Proof.
  induction d as [|[k0 v0] d IH]; simpl.
  - intros [<-|[]]. by left.
  - case_bool_decide as Hk; simpl.
    + intros [<-|H]; [by left|by right; right].
    + intros [<-|H]; [by right; left|].
      destruct (IH H); [by left|by right; right].
Qed.

Lemma dict_set_in (d : dict) (k : text) (v : AddressRecord) :
  In v (dict_values (dict_set d k v)).
Proof.
  induction d as [|[k0 v0] d IH]; simpl; [by left|].
  case_bool_decide; simpl; [by left|by right].
Qed.

Lemma dict_set_ok (d : dict) (v : AddressRecord) :
  dict_ok d -> dict_ok (dict_set d (address v) v).
Proof.
  intros [Hkeys Haddr]. induction d as [|[k0 v0] d IH]; simpl.
  - split; [apply NoDup_singleton|by repeat constructor].
  - simpl in Hkeys. apply NoDup_cons in Hkeys as [Hk0 Hkeys].
    apply Forall_cons in Haddr as [Hv0 Haddr].
    destruct (IH Hkeys Haddr) as [IHkeys IHaddr].
    case_bool_decide as Hk; simpl.
    + subst k0. split; [|by constructor].
      apply NoDup_cons. split; [exact Hk0|exact Hkeys].
    + split; [|by constructor].
      apply NoDup_cons. split; [|exact IHkeys].
      intros Hin. apply list_elem_of_In, dict_set_keys in Hin. simpl in Hin.
      destruct Hin as [Heq|Hin]; [by apply Hk|by apply Hk0, list_elem_of_In].
Qed.

Lemma merge_record_ok (d : dict) (r : AddressRecord) :
  dict_ok d -> dict_ok (merge_record d r).
Proof.
  intros Hd. unfold merge_record.
  destruct (dict_get d (address r)); [|by apply dict_set_ok].
  destruct (dt_gtb _ _); [by apply dict_set_ok|exact Hd].
Qed.

Lemma merge_records_ok (records : list AddressRecord) (d : dict) :
  dict_ok d -> dict_ok (fold_left merge_record records d).
Proof.
  revert d. induction records as [|r records IH]; intros d Hd; simpl; [exact Hd|].
  by apply IH, merge_record_ok.
Qed.

Lemma dict_ok_addresses (d : dict) :
  dict_ok d -> NoDup (map address (dict_values d)).
Proof.
  intros [Hkeys Haddr]. unfold dict_values. rewrite map_map.
  erewrite map_ext_in; [exact Hkeys|].
  intros kv Hin. rewrite List.Forall_forall in Haddr. by apply Haddr.
Qed.

(** After an [append], the records of the store have distinct addresses and
    the record appended is among them. *)
Lemma append_one_per_address (content : text) (record : AddressRecord) :
  wf_record record ->
  NoDup (map address (read_all (fst (append content record))))
  /\ In record (read_all (fst (append content record))).
Proof.
  intros Hwf. rewrite read_all_append by exact Hwf. split.
  - rewrite (Permutation_map address (sorted_by_timestamp_perm _)).
    apply dict_ok_addresses, dict_set_ok, merge_records_ok.
    split; constructor.
  - eapply Permutation_in; [symmetry; apply sorted_by_timestamp_perm|].
    apply dict_set_in.
Qed.

Lemma filter_none {A} (g : A -> bool) (l : list A) :
  (forall x, In x l -> g x = false) -> List.filter g l = [].
Proof.
  induction l as [|y l IH]; intros H; [done|].
  simpl. rewrite (H y) by (by left). apply IH. intros x Hx. apply H. by right.
Qed.

Lemma NoDup_map_filter_eq {A} (f : A -> text) (l : list A) (r : A) :
  NoDup (map f l) -> In r l ->
  List.filter (fun x => bool_decide (f x = f r)) l = [r].
Proof.
  induction l as [|y l IH]; [done|].
  simpl. intros [Hy Hl]%NoDup_cons [->|Hin].
  - rewrite bool_decide_eq_true_2 by done. f_equal.
    apply filter_none. intros x Hx. apply bool_decide_eq_false_2.
    intros Heq. apply Hy. rewrite <- Heq.
    apply list_elem_of_In, in_map, Hx.
  - rewrite bool_decide_eq_false_2; [by apply IH|].
    intros Heq. apply Hy. rewrite Heq. apply list_elem_of_In, in_map, Hin.
Qed.

Lemma appends_snoc (content : text) (records : list AddressRecord)
    (r : AddressRecord) :
  appends content (records ++ [r]) = fst (append (appends content records) r).
Proof. unfold appends. by rewrite fold_left_app. Qed.

Lemma reachable_appends (content : text) (records : list AddressRecord) :
  reachable content -> Forall wf_record records ->
  reachable (appends content records).
Proof.
  intros Hc Hrs. induction records as [|r records IH] using rev_ind; [exact Hc|].
  apply Forall_app in Hrs as [Hrs Hr]. rewrite appends_snoc.
  apply reachable_append; [by apply IH|by inversion Hr].
Qed.

(** From the empty file, appends that all carry one address leave the record
    appended last, alone. *)
Lemma same_address_appends (a : text) (records : list AddressRecord) :
  Forall (fun x => wf_record x /\ address x = a) records ->
  read_all (appends empty_file records)
  = match last records with Some r => [r] | None => [] end.
Proof.
  induction records as [|r records IH] using rev_ind; intros Hrs; [reflexivity|].
  apply Forall_app in Hrs as [Hrs Hr]. inversion Hr as [|? ? [Hwf Ha] _]; subst.
  rewrite appends_snoc, last_snoc, read_all_append, (IH Hrs) by exact Hwf.
  destruct (last records) as [y|] eqn:Hy; [|reflexivity].
  assert (address y = address r) as Hyr.
  { apply last_Some_elem_of, list_elem_of_In in Hy.
    rewrite List.Forall_forall in Hrs. by apply Hrs. }
  simpl. unfold merge_record. simpl. rewrite Hyr.
  by rewrite bool_decide_eq_true_2.
Qed.

(** C1 (as the code has it). After a run of appends that all carry one
    address, the store holds exactly one record for that address, the one
    appended last; started from the empty file, that record is all there is
    and [read_latest] returns it - so it returns the greatest timestamp
    appended when no earlier append carried a greater one. *)
Theorem same_address_appends_keep_last
    (content : text) (a : text) (earlier : list AddressRecord) (r : AddressRecord) :
  reachable content ->
  Forall (fun x => wf_record x /\ address x = a) (earlier ++ [r]) ->
  let after := appends content (earlier ++ [r]) in
  List.filter (fun x => bool_decide (address x = a)) (read_all after) = [r]
  /\ (content = empty_file ->
      read_all after = [r]
      /\ read_latest after = Some r
      /\ ((forall x, In x earlier -> ts_le x r) ->
          forall x, In x (earlier ++ [r]) -> ts_le x r)).
Proof.
  intros Hreach Hall after.
  pose proof Hall as Hall'. apply Forall_app in Hall' as [Hearlier Hr].
  inversion Hr as [|? ? [Hwf Ha] _]; subst. split.
  - unfold after. rewrite appends_snoc.
    destruct (append_one_per_address (appends content earlier) r Hwf) as [Hnd Hin].
    by apply (NoDup_map_filter_eq address).
  - intros ->. unfold after.
    rewrite read_latest_last, (same_address_appends (address r)), last_snoc
      by exact Hall.
    repeat split. intros Hle x [Hx|[<-|[]]]%in_app_iff;
      [by apply Hle|apply dt_leb_refl].
Qed.

Lemma same_address_appends_keep_last_witness :
  reachable empty_file
  /\ Forall (fun x => wf_record x /\ address x = sample_address)
       ([sample_newer] ++ [sample_older])
  /\ List.filter (fun x => bool_decide (address x = sample_address))
       (read_all (appends empty_file [sample_newer; sample_older]))
     = [sample_older]
  /\ read_all (appends empty_file [sample_newer; sample_older]) = [sample_older]
  /\ read_latest (appends empty_file [sample_newer; sample_older])
     = Some sample_older.
Proof.
  assert (Forall (fun x => wf_record x /\ address x = sample_address)
            ([sample_newer] ++ [sample_older])) as Hall.
  { repeat constructor; try wf_by_computation. }
  destruct (same_address_appends_keep_last empty_file sample_address
              [sample_newer] sample_older reachable_created Hall) as [Hone Hempty].
  destruct (Hempty eq_refl) as (Hread & Hlatest & _).
  repeat split; try assumption. constructor.
Defined.

(** C1 (as stated) fails: the record appended replaces the one kept for its
    address whatever their timestamps.  Appending 12:00:05 and then 12:00:00
    for one address leaves 12:00:00, which [read_latest] returns. *)
Lemma append_older_timestamp_replaces_newer :
  address sample_newer = address sample_older
  /\ dt_gtb (timestamp sample_newer) (timestamp sample_older) = true
  /\ read_latest (appends empty_file [sample_newer; sample_older])
     = Some sample_older
  /\ read_all (appends empty_file [sample_newer; sample_older]) = [sample_older].
Proof. vm_compute. repeat split. Qed.

(** ** Scenarios *)

(** Appending a later timestamp for an address already in the store leaves
    one record, the later one. *)
Example scenario_update_in_place :
  read_all (appends empty_file [sample_older; sample_newer]) = [sample_newer]
  /\ read_latest (appends empty_file [sample_older; sample_newer])
     = Some sample_newer
  /\ snd (append (appends empty_file [sample_older]) sample_newer)
     = LogUpdated sample_address (timestamp sample_older) (timestamp sample_newer).
Proof. vm_compute. repeat split. Qed.

(** With a debounce window of 1.5 s: a record is executed, the same address
    half a second later is skipped, and two seconds later it is executed
    again. *)
Example scenario_debounce :
  let content := appends empty_file [sample_older] in
  let at_ t := {| at_guard := t; at_skip := t; at_done := t |} in
  let process clock self :=
    _process_record default_config 20 content clock (fun _ => TradeOk) self
      sample_older in
  let '(self1, events1, _) :=
    process (at_ (mk_datetime 2024 1 1 12 0 1 0)) initial_pipeline in
  let '(self2, events2, _) :=
    process (at_ (mk_datetime 2024 1 1 12 0 1 500000)) self1 in
  let '(self3, events3, _) :=
    process (at_ (mk_datetime 2024 1 1 12 0 3 0)) self2 in
  List.filter is_trade events1 = [ExecuteTrade sample_address]
  /\ events2 = [LogRecentlyProcessed sample_address]
  /\ List.filter is_trade events3 = [ExecuteTrade sample_address].
Proof. vm_compute. repeat split. Qed.

(** * More of the code *)

(** ** The record store: reading *)

Lemma omap_rev {A B} (f : A -> option B) (l : list A) :
  omap f (rev l) = rev (omap f l).
Proof.
  induction l as [|x l IH]; [done|].
  simpl rev. rewrite omap_app, IH. simpl.
  destruct (f x); [done|by rewrite app_nil_r].
Qed.

Lemma head_rev_last {A} (l : list A) : head (rev l) = last l.
Proof.
  induction l as [|x l _] using rev_ind; [done|].
  by rewrite rev_app_distr, last_snoc.
Qed.

Lemma iter_latest_loop_firstn (limit : Z) (lines : list text) :
  forall count,
    iter_latest_loop limit count lines
    = firstn (Z.to_nat (limit - count)) (omap from_line lines).
Proof.
  induction lines as [|line lines IH]; intros count; simpl.
  - by rewrite firstn_nil.
  - destruct (Z.leb_spec limit count) as [Hle|Hlt].
    + by replace (Z.to_nat (limit - count)) with O by lia.
    + destruct (from_line line) as [record|]; [|apply IH].
      rewrite IH.
      replace (Z.to_nat (limit - count)) with (S (Z.to_nat (limit - (count + 1))))
        by lia.
      reflexivity.
Qed.

(** X1. [iter_latest(limit)] yields the valid records from the end of the
    file backwards and stops after [limit] of them: never more than
    [limit], nothing at all for a limit of zero or less, the whole history
    reversed when the limit covers it, and [read_latest]'s record first. *)
Theorem iter_latest_takes_newest_first (content : text) (limit : Z) :
  iter_latest content limit = firstn (Z.to_nat limit) (rev (read_all content))
  /\ (List.length (iter_latest content limit) <= Z.to_nat limit)%nat
  /\ (limit <= 0 -> iter_latest content limit = [])
  /\ (Z.of_nat (List.length (read_all content)) <= limit ->
      iter_latest content limit = rev (read_all content))
  /\ (0 < limit -> head (iter_latest content limit) = read_latest content).
Proof.
  assert (iter_latest content limit
          = firstn (Z.to_nat limit) (rev (read_all content))) as Heq.
  { unfold iter_latest. rewrite iter_latest_loop_firstn, omap_rev, read_all_omap.
    by rewrite Z.sub_0_r. }
  split; [exact Heq|]. rewrite Heq. split; [apply firstn_le_length|].
  split; [|split].
  - intros Hle. by replace (Z.to_nat limit) with O by lia.
  - intros Hall. apply firstn_all2. rewrite length_rev. lia.
  - intros Hpos. rewrite read_latest_last.
    destruct (Z.to_nat limit) as [|n] eqn:Hn; [lia|].
    rewrite <- head_rev_last. by destruct (rev (read_all content)).
Qed.

Lemma iter_latest_takes_newest_first_witness :
  iter_latest (appends empty_file [sample_other; sample_newer]) 1 = [sample_other]
  /\ iter_latest (appends empty_file [sample_other; sample_newer]) 0 = []
  /\ iter_latest (appends empty_file [sample_other; sample_newer]) 5
     = [sample_other; sample_newer].
Proof.
  pose proof (iter_latest_takes_newest_first
                (appends empty_file [sample_other; sample_newer])) as H.
  split; [|split].
  - rewrite (proj1 (H 1)). vm_compute. reflexivity.
  - apply (H 0). lia.
  - rewrite (proj1 (H 5)). vm_compute. reflexivity.
Defined.

(** ** The record store: writing *)

Lemma dict_get_absent (d : dict) (k : text) :
  ~ In k (map fst d) -> dict_get d k = None.
Proof.
  induction d as [|[k' v] d IH]; [done|].
  simpl. intros H. rewrite bool_decide_eq_false_2 by (intros ->; apply H; by left).
  apply IH. intros Hin. apply H. by right.
Qed.

Lemma dict_set_absent (d : dict) (k : text) (v : AddressRecord) :
  ~ In k (map fst d) -> dict_set d k v = d ++ [(k, v)].
Proof.
  induction d as [|[k' v'] d IH]; [done|].
  simpl. intros H. rewrite bool_decide_eq_false_2 by (intros ->; apply H; by left).
  rewrite IH; [done|]. intros Hin. apply H. by right.
Qed.

(** On records with distinct addresses the merge loop of [append] keeps them
    all, in their order. *)
Lemma merge_records_distinct (records : list AddressRecord) :
  forall d,
    NoDup (map address records) ->
    (forall x, In x records -> ~ In (address x) (map fst d)) ->
    fold_left merge_record records d = d ++ map entry_of records.
Proof.
  induction records as [|r records IH]; intros d Hnd Hfresh.
  - by rewrite app_nil_r.
  - simpl in Hnd. apply NoDup_cons in Hnd as [Hr Hnd]. simpl.
    assert (merge_record d r = d ++ [entry_of r]) as ->.
    { unfold merge_record. rewrite dict_get_absent by (apply Hfresh; by left).
      apply dict_set_absent, Hfresh. by left. }
    rewrite IH, <- app_assoc; [done|exact Hnd|].
    intros x Hx. rewrite map_app, in_app_iff. intros [Hin|[Heq|[]]].
    + by apply (Hfresh x); [right|].
    + apply Hr. simpl in Heq. rewrite Heq. apply list_elem_of_In, in_map, Hx.
Qed.

Lemma dict_values_entries (records : list AddressRecord) :
  dict_values (map entry_of records) = records.
Proof.
  unfold dict_values. rewrite map_map. simpl. apply map_id.
Qed.

Lemma NoDup_address_eq (records : list AddressRecord) (x y : AddressRecord) :
  NoDup (map address records) -> In x records -> In y records ->
  address x = address y -> x = y.
Proof.
  induction records as [|z records IH]; [done|].
  simpl. intros [Hz Hnd]%NoDup_cons [->|Hx] [->|Hy] Heq; try done.
  - exfalso. apply Hz. rewrite Heq. apply list_elem_of_In, in_map, Hy.
  - exfalso. apply Hz. rewrite <- Heq. apply list_elem_of_In, in_map, Hx.
  - by apply IH.
Qed.

Lemma dict_set_present (records : list AddressRecord) (r : AddressRecord) :
  NoDup (map address records) -> In r records ->
  dict_set (map entry_of records) (address r) r = map entry_of records.
Proof.
  induction records as [|x records IH]; [done|].
  intros Hnd Hin. simpl. case_bool_decide as Hk.
  - assert (x = r) as ->
      by (apply (NoDup_address_eq (x :: records));
          [exact Hnd|by left|exact Hin|exact Hk]).
    reflexivity.
  - f_equal. simpl in Hnd. apply NoDup_cons in Hnd as [_ Hnd].
    destruct Hin as [->|Hin]; [done|]. by apply IH.
Qed.

(** Sorting a list that is already ascending changes nothing. *)
Lemma sorted_ascending_id (records : list AddressRecord) :
  ascending records -> sorted_by_timestamp records = records.
Proof.
  unfold ascending. induction 1 as [|x l Hl IH Hx]; [done|].
  simpl. rewrite IH. destruct l as [|y l]; [done|].
  simpl. apply Forall_cons in Hx as [Hxy _].
  unfold ts_le, dt_leb in Hxy. by destruct (dt_gtb (timestamp x) (timestamp y)).
Qed.

Lemma append_content (content : text) (record : AddressRecord) :
  fst (append content record)
  = serialize
      (sorted_by_timestamp
         (dict_values
            (dict_set (fold_left merge_record (read_all content) [])
               (address record) record))).
Proof.
  unfold append, serialize. cbn [fst].
  rewrite merge_lines_records, <- read_all_omap.
  by destruct (join_lf _).
Qed.

Lemma reachable_distinct (content : text) :
  reachable content -> NoDup (map address (read_all content)).
Proof.
  destruct 1 as [|content record _ Hwf|content _]; try apply NoDup_nil_2.
  by apply append_one_per_address.
Qed.

(** The file the store reaches is exactly what [append] would write for the
    records in it. *)
Lemma reachable_canonical (content : text) :
  reachable content -> content = serialize (read_all content).
Proof.
  destruct 1 as [|content record _ Hwf|content _]; try reflexivity.
  rewrite read_all_append by exact Hwf. apply append_content.
Qed.

Lemma reachable_merge (content : text) :
  reachable content ->
  fold_left merge_record (read_all content) [] = map entry_of (read_all content).
Proof.
  intros H. rewrite merge_records_distinct; [done|by apply reachable_distinct|].
  by intros x _ [].
Qed.

Lemma dict_get_entries (records : list AddressRecord) (x : AddressRecord) :
  NoDup (map address records) -> In x records ->
  dict_get (map entry_of records) (address x) = Some x.
Proof.
  induction records as [|y records IH]; [done|].
  intros Hnd Hin. simpl. case_bool_decide as Hk.
  - f_equal. apply (NoDup_address_eq (y :: records)); [exact Hnd|by left|exact Hin|exact Hk].
  - simpl in Hnd. apply NoDup_cons in Hnd as [_ Hnd].
    destruct Hin as [->|Hin]; [done|]. by apply IH.
Qed.

Lemma dict_set_length (d : dict) (k : text) (v : AddressRecord) :
  List.length (dict_set d k v)
  = match dict_get d k with
    | Some _ => List.length d
    | None => S (List.length d)
    end.
Proof.
  induction d as [|[k' v'] d IH]; [done|].
  simpl. case_bool_decide; [done|]. simpl. rewrite IH. by destruct (dict_get d k).
Qed.

Lemma dict_set_other (d : dict) (k : text) (v x : AddressRecord) :
  In x (dict_values (dict_set d k v)) -> x = v \/ In x (dict_values d).
Proof.
  induction d as [|[k' v'] d IH]; simpl.
  - intros [<-|[]]. by left.
  - case_bool_decide; simpl.
    + intros [<-|Hin]; [by left|by right; right].
    + intros [<-|Hin]; [by right; left|].
      destruct (IH Hin); [by left|by right; right].
Qed.

(** X2. In every content the store reaches, no two records carry the same
    address. *)
Theorem reachable_store_has_one_record_per_address (content : text) :
  reachable content ->
  NoDup (map address (read_all content))
  /\ forall x y, In x (read_all content) -> In y (read_all content) ->
                 address x = address y -> x = y.
Proof.
  intros H. pose proof (reachable_distinct content H) as Hnd.
  split; [exact Hnd|]. intros x y. by apply NoDup_address_eq.
Qed.

Lemma reachable_store_has_one_record_per_address_witness :
  reachable (appends empty_file [sample_newer; sample_other; sample_older])
  /\ NoDup (map address
             (read_all (appends empty_file [sample_newer; sample_other; sample_older]))).
Proof.
  assert (reachable (appends empty_file [sample_newer; sample_other; sample_older]))
    as Hreach.
  { apply (reachable_append _ sample_older); [|wf_by_computation].
    apply (reachable_append _ sample_other); [|wf_by_computation].
    apply (reachable_append _ sample_newer); [constructor|wf_by_computation]. }
  split; [exact Hreach|].
  exact (proj1 (reachable_store_has_one_record_per_address _ Hreach)).
Defined.

(** X3. Appending a record the store already holds rewrites the file with
    the very same bytes (and logs an update from its timestamp to itself). *)
Theorem append_stored_record_changes_nothing
    (content : text) (record : AddressRecord) :
  reachable content -> In record (read_all content) ->
  append content record
  = (content, LogUpdated (address record) (timestamp record) (timestamp record)).
Proof.
  intros Hreach Hin.
  pose proof (reachable_distinct content Hreach) as Hnd.
  assert (fst (append content record) = content) as Hfst.
  { rewrite append_content, reachable_merge, dict_set_present,
      dict_values_entries, sorted_ascending_id by done || by apply reachable_read_all_ascending.
    symmetry. by apply reachable_canonical. }
  assert (snd (append content record)
          = LogUpdated (address record) (timestamp record) (timestamp record))
    as Hsnd.
  { unfold append. cbn [snd].
    rewrite merge_lines_records, <- read_all_omap, reachable_merge by done.
    by rewrite dict_get_entries. }
  destruct (append content record). simpl in *. by subst.
Qed.

Lemma append_stored_record_changes_nothing_witness :
  reachable (appends empty_file [sample_other; sample_newer])
  /\ In sample_newer (read_all (appends empty_file [sample_other; sample_newer]))
  /\ fst (append (appends empty_file [sample_other; sample_newer]) sample_newer)
     = appends empty_file [sample_other; sample_newer].
Proof.
  assert (reachable (appends empty_file [sample_other; sample_newer])) as Hreach.
  { apply (reachable_append _ sample_newer); [|wf_by_computation].
    apply (reachable_append _ sample_other); [constructor|wf_by_computation]. }
  assert (In sample_newer (read_all (appends empty_file [sample_other; sample_newer])))
    as Hin by (vm_compute; left; reflexivity).
  split; [exact Hreach|]. split; [exact Hin|].
  by rewrite (append_stored_record_changes_nothing _ _ Hreach Hin).
Defined.

Lemma dict_set_keeps (d : dict) (k k' : text) (v x : AddressRecord) :
  In (k', x) d -> k' <> k -> In (k', x) (dict_set d k v).
Proof.
  intros Hin Hne. induction d as [|[k0 v0] d IH]; [done|].
  simpl. destruct Hin as [[= -> ->]|Hin].
  - rewrite bool_decide_eq_false_2 by done. by left.
  - case_bool_decide; [by right|]. right. by apply IH.
Qed.

Lemma dict_get_entries_inv (records : list AddressRecord) (k : text) :
  match dict_get (map entry_of records) k with
  | Some x => In x records /\ address x = k
  | None => forall x, In x records -> address x <> k
  end.
Proof.
  induction records as [|y records IH]; [by intros x []|].
  simpl. case_bool_decide as Hk; [by split; [left|]|].
  destruct (dict_get (map entry_of records) k) as [x|].
  - destruct IH as [Hin Hx]. by split; [right|].
  - intros x [<-|Hin]; [done|by apply IH].
Qed.

(** X4. On a store reached by appends, [append] replaces the record of its
    own address and nothing else: afterwards the store holds the new record
    and exactly the old records of the other addresses. *)
Theorem append_replaces_only_its_address
    (content : text) (record : AddressRecord) :
  reachable content -> wf_record record ->
  forall x,
    In x (read_all (fst (append content record)))
    <-> x = record \/ (In x (read_all content) /\ address x <> address record).
Proof.
  intros Hreach Hwf x.
  destruct (append_one_per_address content record Hwf) as [Hnd Hrec].
  split.
  - intros Hx.
    destruct (decide (address x = address record)) as [Heq|Haddr];
      [left; by eapply NoDup_address_eq|].
    rewrite read_all_append, reachable_merge in Hx by done.
    eapply Permutation_in in Hx; [|apply sorted_by_timestamp_perm].
    apply dict_set_other in Hx as [->|Hx]; [by left|]. right.
    by rewrite dict_values_entries in Hx.
  - intros [->|[Hx Haddr]]; [exact Hrec|].
    rewrite read_all_append, reachable_merge by done.
    eapply Permutation_in; [symmetry; apply sorted_by_timestamp_perm|].
    apply (in_map snd _ (address x, x)).
    apply dict_set_keeps; [|exact Haddr].
    by apply (in_map entry_of).
Qed.

Lemma append_replaces_only_its_address_witness :
  reachable (appends empty_file [sample_other; sample_newer])
  /\ wf_record sample_older
  /\ In sample_other
       (read_all (fst (append (appends empty_file [sample_other; sample_newer])
                         sample_older)))
  /\ ~ In sample_newer
         (read_all (fst (append (appends empty_file [sample_other; sample_newer])
                           sample_older))).
Proof.
  assert (reachable (appends empty_file [sample_other; sample_newer])) as Hreach.
  { apply (reachable_append _ sample_newer); [|wf_by_computation].
    apply (reachable_append _ sample_other); [constructor|wf_by_computation]. }
  assert (wf_record sample_older) as Hwf by wf_by_computation.
  pose proof (append_replaces_only_its_address _ _ Hreach Hwf) as H.
  split; [exact Hreach|]. split; [exact Hwf|]. split.
  - apply H. right. split; [vm_compute; right; left; reflexivity|discriminate].
  - intros [Heq|[_ Hne]]%H; [discriminate Heq|by apply Hne].
Defined.

(** X5. What [append] logs tells what it did: "appended" exactly when no
    stored record had the address, and then the store has one record more;
    "updated", with the timestamp of the stored record of that address as
    the old one, and then the store has as many records as before. *)
Theorem append_log_tells_update_from_insert
    (content : text) (record : AddressRecord) :
  reachable content -> wf_record record ->
  let before := read_all content in
  let after := read_all (fst (append content record)) in
  match snd (append content record) with
  | LogAppended a =>
      a = address record
      /\ (forall x, In x before -> address x <> address record)
      /\ List.length after = S (List.length before)
  | LogUpdated a old new =>
      a = address record /\ new = timestamp record
      /\ (exists x, In x before /\ address x = address record /\ timestamp x = old)
      /\ List.length after = List.length before
  | LogCleared => False
  end.
Proof.
  intros Hreach Hwf before after.
  assert (List.length after
          = match dict_get (map entry_of before) (address record) with
            | Some _ => List.length before
            | None => S (List.length before)
            end) as Hlen.
  { unfold after. rewrite read_all_append, reachable_merge by done.
    rewrite (Permutation_length (sorted_by_timestamp_perm _)).
    unfold dict_values. by rewrite length_map, dict_set_length, length_map. }
  unfold append. cbn [snd].
  rewrite merge_lines_records, <- read_all_omap, reachable_merge by done.
  fold before.
  pose proof (dict_get_entries_inv before (address record)) as Hget.
  destruct (dict_get (map entry_of before) (address record)) as [previous|].
  - destruct Hget as [Hin Haddr]. repeat split; try done. by exists previous.
  - by repeat split.
Qed.

Lemma append_log_tells_update_from_insert_witness :
  reachable (appends empty_file [sample_other])
  /\ wf_record sample_newer
  /\ snd (append (appends empty_file [sample_other]) sample_newer)
     = LogAppended sample_address
  /\ List.length (read_all (fst (append (appends empty_file [sample_other])
                                   sample_newer))) = 2%nat.
Proof.
  assert (reachable (appends empty_file [sample_other])) as Hreach.
  { apply (reachable_append _ sample_other); [constructor|wf_by_computation]. }
  assert (wf_record sample_newer) as Hwf by wf_by_computation.
  pose proof (append_log_tells_update_from_insert _ _ Hreach Hwf) as H.
  split; [exact Hreach|]. split; [exact Hwf|].
  assert (snd (append (appends empty_file [sample_other]) sample_newer)
          = LogAppended sample_address) as Hlog by (vm_compute; reflexivity).
  split; [exact Hlog|]. cbv zeta in H. rewrite Hlog in H.
  destruct H as (_ & _ & ->). vm_compute. reflexivity.
Defined.

(** ** Backup names *)

Lemma zfill_eq_inv (width : nat) (a b : Z) (ra rb : text) :
  0 <= a < 10 ^ Z.of_nat width -> 0 <= b < 10 ^ Z.of_nat width ->
  zfill width a ++ ra = zfill width b ++ rb -> a = b /\ ra = rb.
Proof.
  intros Ha Hb Heq. apply (f_equal (parse_digits width 0)) in Heq.
  rewrite !parse_digits_zfill_small in Heq by done. by injection Heq.
Qed.

Lemma strftime_backup_inv (t1 t2 : datetime) :
  valid_datetime t1 = true -> valid_datetime t2 = true ->
  strftime_backup t1 = strftime_backup t2 ->
  year t1 = year t2 /\ month t1 = month t2 /\ day t1 = day t2
  /\ hour t1 = hour t2 /\ minute t1 = minute t2 /\ second t1 = second t2.
Proof.
  intros H1%valid_datetime_ranges H2%valid_datetime_ranges. unfold strftime_backup.
  rewrite <- (app_nil_r (zfill 2 (second t1))), <- (app_nil_r (zfill 2 (second t2))).
  intros H.
  apply zfill_eq_inv in H as [Hy H]; [|simpl; lia..].
  apply zfill_eq_inv in H as [Hm H]; [|simpl; lia..].
  apply zfill_eq_inv in H as [Hd H]; [|simpl; lia..].
  apply (app_inv_head (str "_")) in H.
  apply zfill_eq_inv in H as [Hh H]; [|simpl; lia..].
  apply zfill_eq_inv in H as [Hmi H]; [|simpl; lia..].
  apply zfill_eq_inv in H as [Hs _]; [|simpl; lia..].
  done.
Qed.

(** X6. The snapshot [backup] writes is named after the clock to the second
    only: two successful backups get the same target exactly when they are
    taken in the same second, whatever the microseconds. *)
Theorem backup_target_is_unique_per_second
    (backup_dir data1 data2 : text) (t1 t2 : datetime) :
  valid_datetime t1 = true -> valid_datetime t2 = true ->
  let fs data :=
    {| fs_mkdir := Done tt; fs_read_bytes := Done data; fs_write_bytes := Done tt |} in
  fst (backup backup_dir t1 (fs data1)) = fst (backup backup_dir t2 (fs data2))
  <-> (year t1 = year t2 /\ month t1 = month t2 /\ day t1 = day t2
       /\ hour t1 = hour t2 /\ minute t1 = minute t2 /\ second t1 = second t2).
Proof.
  intros H1 H2 fs. unfold backup. simpl. split.
  - intros [= H]. apply app_inv_head in H.
    change (str "/addresses_" ++ strftime_backup t1 ++ str ".txt"
            = str "/addresses_" ++ strftime_backup t2 ++ str ".txt") in H.
    apply app_inv_head, app_inv_tail in H. by apply strftime_backup_inv.
  - intros (Hy & Hm & Hd & Hh & Hmi & Hs). unfold strftime_backup.
    by rewrite Hy, Hm, Hd, Hh, Hmi, Hs.
Qed.

Lemma backup_target_is_unique_per_second_witness :
  let fs :=
    {| fs_mkdir := Done tt; fs_read_bytes := Done (str "x");
       fs_write_bytes := Done tt |} in
  fst (backup (str "data/backup") (mk_datetime 2024 5 6 7 8 9 1) fs)
  = fst (backup (str "data/backup") (mk_datetime 2024 5 6 7 8 9 999999) fs).
Proof.
  intros fs.
  apply (backup_target_is_unique_per_second (str "data/backup") (str "x") (str "x")
           (mk_datetime 2024 5 6 7 8 9 1) (mk_datetime 2024 5 6 7 8 9 999999));
    [vm_compute; reflexivity|vm_compute; reflexivity|by repeat split].
Defined.

(** ** The bounded retry, whatever the trade action does *)

Ltac conjs := repeat match goal with |- _ /\ _ => split end.

Section RetryAnyTrader.

Variable config : PipelineConfig.
Variable trader : Z -> trade_result.
Variable address : text.

Let attempts := retry_attempts config.
Let delay := retry_delay_seconds config.

Lemma retry_loop_shape (todo : list Z) :
  let events := fst (retry_loop trader address attempts delay todo) in
  (forall a, In (ExecuteTrade a) events -> a = address)
  /\ List.filter is_pause events = []
  /\ List.filter is_resume events = [].
Proof.
  induction todo as [|attempt rest IH]; simpl.
  - conjs; [intros a [H|[]]; discriminate H|done|done].
  - destruct (trader attempt) as [|[exc|]]; simpl.
    + conjs; [|done|done]. intros a [[= <-]|[H|[]]]; [done|discriminate H].
    + destruct (retry_loop trader address attempts delay rest) as [events escaped].
      simpl in IH |- *. destruct IH as (Ha & Hp & Hr).
      destruct (attempt <? attempts); simpl; (conjs; [|done|done]);
        intros a [[= <-]|[H|H]]; try done; try discriminate H.
      * destruct H as [H|H]; [discriminate H|by apply Ha].
      * by apply Ha.
    + conjs; [|done|done]. intros a [[= <-]|[]]; done.
Qed.

Lemma retry_loop_counts (remaining : nat) :
  forall lo,
    Z.to_nat (attempts + 1 - lo) = remaining ->
    let events :=
      fst (retry_loop trader address attempts delay (py_range lo (attempts + 1))) in
    let trades := List.length (List.filter is_trade events) in
    (trades <= remaining)%nat
    /\ List.length (List.filter is_sleep events) = Nat.pred trades
    /\ (lo <= attempts -> (1 <= trades)%nat)
    /\ (In (LogAllFailed address) events -> trades = remaining).
Proof.
  induction remaining as [|remaining IH]; intros lo Hlo.
  - rewrite py_range_nil by lia. simpl. conjs; try done; lia.
  - rewrite py_range_cons by lia. simpl.
    destruct (trader lo) as [|[exc|]]; simpl.
    + conjs; try lia; try (intros [H|[H|[]]]; discriminate H).
    + specialize (IH (lo + 1) ltac:(lia)).
      destruct (retry_loop trader address attempts delay
                  (py_range (lo + 1) (attempts + 1))) as [events escaped].
      simpl in IH |- *. destruct IH as (Hle & Hsleep & Hone & Hall).
      destruct (Z.ltb_spec lo attempts) as [Hlt|Hge]; simpl.
      * specialize (Hone ltac:(lia)). conjs; try lia.
        intros [H|[H|[H|H]]]; try discriminate H. rewrite Hall by done. lia.
      * assert (remaining = O) as -> by lia.
        conjs; try lia.
    + conjs; try lia; try (intros [H|[]]; discriminate H).
Qed.

End RetryAnyTrader.

(** X7. Whatever the trade action does, [_execute_with_retry] calls it at
    most [retry_attempts] times and only for the address it was given; it
    sleeps exactly once between two consecutive calls (one sleep less than
    calls); and the terminal failure is logged only after all
    [retry_attempts] calls were made. *)
Theorem retry_never_exceeds_its_bound
    (config : PipelineConfig) (trader : Z -> trade_result) (address : text) :
  let events := fst (_execute_with_retry config trader address) in
  let trades := List.length (List.filter is_trade events) in
  (trades <= Z.to_nat (retry_attempts config))%nat
  /\ List.length (List.filter is_sleep events) = Nat.pred trades
  /\ (forall a, In (ExecuteTrade a) events -> a = address)
  /\ (In (LogAllFailed address) events -> trades = Z.to_nat (retry_attempts config)).
Proof.
  unfold _execute_with_retry.
  pose proof (retry_loop_counts config trader address
                (Z.to_nat (retry_attempts config)) 1 ltac:(lia))
    as (Hle & Hsleep & _ & Hall).
  pose proof (retry_loop_shape config trader address
                (py_range 1 (retry_attempts config + 1))) as (Haddr & _).
  done.
Qed.

Lemma retry_never_exceeds_its_bound_witness :
  let trader k := if k =? 2 then TradeRaises CancelledError
                  else TradeRaises (Exception (str "timeout")) in
  let events := fst (_execute_with_retry default_config trader sample_address) in
  (List.length (List.filter is_trade events) <= 3)%nat
  /\ List.length (List.filter is_trade events) = 2%nat
  /\ ~ In (LogAllFailed sample_address) events.
Proof.
  intros trader events.
  pose proof (retry_never_exceeds_its_bound default_config trader sample_address)
    as (Hle & _ & _ & Hall).
  fold events in Hle, Hall. split; [exact Hle|].
  assert (List.length (List.filter is_trade events) = 2%nat) as Htwo
    by (vm_compute; reflexivity).
  split; [exact Htwo|]. intros Hin. specialize (Hall Hin).
  rewrite Htwo in Hall. vm_compute in Hall. discriminate Hall.
Defined.

Section RetrySuccess.

Variable config : PipelineConfig.
Variable trader : Z -> trade_result.
Variable address : text.
Variable k : Z.

Let attempts := retry_attempts config.
Let delay := retry_delay_seconds config.

Hypothesis k_in_range : 1 <= k <= attempts.
Hypothesis earlier_attempts_fail :
  forall j, 1 <= j < k -> exists exc, trader j = TradeRaises (Exception exc).
Hypothesis attempt_k_succeeds : trader k = TradeOk.

Lemma retry_loop_until_success (remaining : nat) :
  forall lo,
    1 <= lo <= k -> Z.to_nat (k - lo) = remaining ->
    let result := retry_loop trader address attempts delay (py_range lo (attempts + 1)) in
    snd result = None
    /\ List.length (List.filter is_trade (fst result)) = S remaining
    /\ List.length (List.filter is_sleep (fst result)) = remaining
    /\ ends_with_success (fst result) address
    /\ ~ In (LogAllFailed address) (fst result).
Proof.
  induction remaining as [|remaining IH]; intros lo Hlo Hrem.
  - assert (lo = k) as -> by lia. rewrite py_range_cons by lia. simpl.
    rewrite attempt_k_succeeds. simpl. conjs; try done.
    + by exists [ExecuteTrade address].
    + intros [H|[H|[]]]; discriminate H.
  - rewrite py_range_cons by lia. simpl.
    destruct (earlier_attempts_fail lo ltac:(lia)) as [exc ->].
    specialize (IH (lo + 1) ltac:(lia) ltac:(lia)).
    destruct (retry_loop trader address attempts delay
                (py_range (lo + 1) (attempts + 1))) as [events escaped].
    simpl in IH |- *. destruct IH as (Hesc & Htrades & Hsleeps & [before ->] & Hno).
    destruct (Z.ltb_spec lo attempts) as [_|Hge]; [|lia]. simpl.
    rewrite Htrades, Hsleeps. conjs; try done.
    + by exists (ExecuteTrade address
                 :: LogAttemptFailed lo attempts address exc
                 :: Sleep delay :: before).
    + intros [H|[H|[H|H]]]; try discriminate H. by apply Hno.
Qed.

End RetrySuccess.

(** X8. When the trade action succeeds at attempt [k] after failing before,
    [_execute_with_retry] stops there: exactly [k] calls and [k - 1] sleeps,
    the success line last, no terminal failure logged, and it returns
    normally. *)
Theorem retry_stops_at_first_success
    (config : PipelineConfig) (trader : Z -> trade_result) (address : text) (k : Z) :
  1 <= k <= retry_attempts config ->
  (forall j, 1 <= j < k -> exists exc, trader j = TradeRaises (Exception exc)) ->
  trader k = TradeOk ->
  let result := _execute_with_retry config trader address in
  snd result = None
  /\ Z.of_nat (List.length (List.filter is_trade (fst result))) = k
  /\ Z.of_nat (List.length (List.filter is_sleep (fst result))) = k - 1
  /\ ends_with_success (fst result) address
  /\ ~ In (LogAllFailed address) (fst result).
Proof.
  intros Hk Hfail Hok. unfold _execute_with_retry.
  pose proof (retry_loop_until_success config trader address k Hk Hfail Hok
                (Z.to_nat (k - 1)) 1 ltac:(lia) eq_refl)
    as (Hesc & Htrades & Hsleeps & Hend & Hno).
  cbv zeta. rewrite Htrades, Hsleeps. conjs; try done; lia.
Qed.

Lemma retry_stops_at_first_success_witness :
  let trader k := if k =? 2 then TradeOk
                  else TradeRaises (Exception (str "timeout")) in
  1 <= 2 <= retry_attempts default_config
  /\ fst (_execute_with_retry default_config trader sample_address)
     = [ExecuteTrade sample_address;
        LogAttemptFailed 1 3 sample_address (str "timeout");
        Sleep (2 # 1)%Q;
        ExecuteTrade sample_address;
        LogTradeOk sample_address]
  /\ Z.of_nat (List.length (List.filter is_trade
       (fst (_execute_with_retry default_config trader sample_address)))) = 2.
Proof.
  intros trader.
  assert (1 <= 2 <= retry_attempts default_config) as Hk by (vm_compute; split; discriminate).
  split; [exact Hk|]. split; [reflexivity|].
  refine (proj1 (proj2 (retry_stops_at_first_success default_config trader
                          sample_address 2 Hk _ eq_refl))).
  intros j Hj. exists (str "timeout"). assert (j = 1) as -> by lia. reflexivity.
Defined.

(** ** The decision path, case by case *)

(** What [_process_record] returns for a record its guards let through. *)
Lemma process_record_when_accepted (config : PipelineConfig) (max_age : Z)
    (content : text) (clock : clock_reads) (trader : Z -> trade_result)
    (self : TradingPipeline) (record : AddressRecord) :
  accepted config max_age content clock self record ->
  _process_record config max_age content clock trader self record
  = let '(events, escaped) := _execute_with_retry config trader (address record) in
    match escaped with
    | Some e =>
        (resume (pause self), [ListenerPause] ++ events ++ [ListenerResume], Some e)
    | None =>
        (_prune_recent_executions config
           (mk_pipeline (_queue self) (Some (address record)) (Some (at_done clock))
              (<[address record := at_done clock]> (_recent_executions self)) false)
           (at_done clock) (Some (at_done clock)),
         [ListenerPause] ++ events ++ [ListenerResume], None)
    end.
Proof.
  intros (Hrecent & (latest & Hlatest & Haddr & Hts) & Hskip).
  unfold _process_record. rewrite Hrecent, Hlatest. simpl negb.
  rewrite bool_decide_eq_true_2 by exact Haddr.
  unfold dt_neqb. rewrite Hts. simpl orb. cbv iota.
  assert (_should_skip config self (at_skip clock) record = false) as -> by exact Hskip.
  by destruct (_execute_with_retry config trader (address record)) as [events [e|]].
Qed.

(** What it returns otherwise: the pipeline as it was and one log line. *)
Lemma process_record_when_rejected (config : PipelineConfig) (max_age : Z)
    (content : text) (clock : clock_reads) (trader : Z -> trade_result)
    (self : TradingPipeline) (record : AddressRecord) :
  ~ accepted config max_age content clock self record ->
  exists e,
    _process_record config max_age content clock trader self record
    = (self, [e], None)
    /\ (e = LogStale record \/ e = LogNotLatest (address record)
        \/ e = LogRecentlyProcessed (address record)).
Proof.
  intros Hrej. unfold _process_record.
  destruct (is_recent max_age (at_guard clock) (Some record) None) eqn:Hrecent;
    simpl negb; cbv iota; [|eexists; split; [reflexivity|by left]].
  destruct (read_latest content) as [latest|] eqn:Hlatest;
    [|eexists; split; [reflexivity|by right; left]].
  case_bool_decide as Haddr; simpl negb; simpl orb;
    [|eexists; split; [reflexivity|by right; left]].
  unfold dt_neqb.
  destruct (dt_compare (timestamp latest) (timestamp record)) eqn:Hts;
    try (eexists; split; [reflexivity|by right; left]).
  destruct (_should_skip config self (at_skip clock) record) eqn:Hskip;
    [eexists; split; [reflexivity|by right; right]|].
  exfalso. apply Hrej. split; [exact Hrecent|]. split; [|exact Hskip].
  by exists latest.
Qed.

Lemma accepted_or_not (config : PipelineConfig) (max_age : Z) (content : text)
    (clock : clock_reads) (self : TradingPipeline) (record : AddressRecord) :
  accepted config max_age content clock self record
  \/ ~ accepted config max_age content clock self record.
Proof.
  unfold accepted.
  destruct (is_recent max_age (at_guard clock) (Some record) None);
    [|right; by intros [? _]].
  destruct (_should_skip config self (at_skip clock) record);
    [right; by intros (_ & _ & ?)|].
  destruct (read_latest content) as [latest|];
    [|right; by intros (_ & (? & ? & _) & _)].
  destruct (decide (address latest = address record)) as [Haddr|Haddr];
    [|right; intros (_ & (? & [= <-] & ? & _) & _); done].
  destruct (dt_compare (timestamp latest) (timestamp record)) eqn:Hts;
    try (right; intros (_ & (? & [= <-] & _ & ?) & _); congruence).
  left. split; [done|]. split; [|done]. by exists latest.
Qed.

Lemma trade_in_retry_events (config : PipelineConfig) (trader : Z -> trade_result)
    (address : text) :
  1 <= retry_attempts config ->
  In (ExecuteTrade address) (fst (_execute_with_retry config trader address)).
Proof.
  intros Hone. unfold _execute_with_retry.
  rewrite py_range_cons by lia. simpl.
  destruct (trader 1) as [|[exc|]]; simpl; [by left| |by left].
  by destruct (retry_loop _ _ _ _ _); left.
Qed.

(** X9. [_process_record] attempts a trade only for a record that is recent,
    is the record [read_latest] returns, and is not held back by the
    debounce tracker, and only for that record's address; with at least one
    attempt configured, such a record is always attempted. *)
Theorem trade_only_for_accepted_record
    (config : PipelineConfig) (max_age : Z) (content : text)
    (clock : clock_reads) (trader : Z -> trade_result)
    (self : TradingPipeline) (record : AddressRecord) :
  let events :=
    snd (fst (_process_record config max_age content clock trader self record)) in
  (forall a, In (ExecuteTrade a) events ->
     a = address record /\ accepted config max_age content clock self record)
  /\ (accepted config max_age content clock self record ->
      1 <= retry_attempts config ->
      In (ExecuteTrade (address record)) events).
Proof.
  intros events. unfold events.
  destruct (accepted_or_not config max_age content clock self record) as [Hacc|Hrej].
  - rewrite (process_record_when_accepted _ _ _ _ trader _ _ Hacc).
    pose proof (retry_never_bound_helper := retry_loop_shape config trader
      (address record) (py_range 1 (retry_attempts config + 1))).
    pose proof (trade_in_retry_events config trader (address record)) as Hin.
    unfold _execute_with_retry in *.
    destruct (retry_loop trader (address record) (retry_attempts config)
                (retry_delay_seconds config)
                (py_range 1 (retry_attempts config + 1))) as [ev escaped].
    simpl in retry_never_bound_helper, Hin.
    destruct retry_never_bound_helper as (Haddr & _).
    assert (forall a, In (ExecuteTrade a) ([ListenerPause] ++ ev ++ [ListenerResume])
                      -> a = address record) as Hev.
    { intros a H. simpl in H. destruct H as [H|H]; [discriminate H|].
      apply in_app_iff in H as [H|[H|[]]]; [by apply Haddr|discriminate H]. }
    assert (1 <= retry_attempts config ->
            In (ExecuteTrade (address record))
              ([ListenerPause] ++ ev ++ [ListenerResume])) as Hthere.
    { intros Hone. simpl. right. apply in_app_iff. left. by apply Hin. }
    destruct escaped; simpl; (split; [intros a Ha; split; [by apply Hev|done]|done]).
  - destruct (process_record_when_rejected _ _ _ _ trader _ _ Hrej)
      as (e & -> & He). simpl. split; [|done].
    intros a [Ha|[]]. destruct He as [->|[->| ->]]; discriminate Ha.
Qed.

Lemma trade_only_for_accepted_record_witness :
  accepted default_config 20 (appends empty_file [sample_older]) sample_clock
    initial_pipeline sample_older
  /\ 1 <= retry_attempts default_config
  /\ In (ExecuteTrade sample_address)
       (snd (fst (_process_record default_config 20
                    (appends empty_file [sample_older]) sample_clock
                    (fun _ => TradeOk) initial_pipeline sample_older))).
Proof.
  assert (accepted default_config 20 (appends empty_file [sample_older])
            sample_clock initial_pipeline sample_older) as Hacc.
  { split; [vm_compute; reflexivity|]. split; [|reflexivity].
    exists sample_older. split; [vm_compute; reflexivity|]. by split. }
  assert (1 <= retry_attempts default_config) as Hone by (vm_compute; discriminate).
  split; [exact Hacc|]. split; [exact Hone|].
  exact (proj2 (trade_only_for_accepted_record default_config 20
                  (appends empty_file [sample_older]) sample_clock
                  (fun _ => TradeOk) initial_pipeline sample_older) Hacc Hone).
Defined.

Lemma retry_events_no_pause (config : PipelineConfig) (trader : Z -> trade_result)
    (address : text) :
  let events := fst (_execute_with_retry config trader address) in
  List.filter is_pause events = [] /\ List.filter is_resume events = [].
Proof.
  unfold _execute_with_retry.
  by destruct (retry_loop_shape config trader address
                 (py_range 1 (retry_attempts config + 1))) as (_ & Hp & Hr).
Qed.

(** X10. [_process_record] pauses the listener at most once and resumes it
    as often as it paused it; every trade attempt lies between the pause and
    the resume; a listener that was running is running again afterwards,
    also when an exception leaves the call - and then nothing is recorded:
    the debounce tracker and the last execution are as they were. *)
Theorem trades_happen_inside_pause
    (config : PipelineConfig) (max_age : Z) (content : text)
    (clock : clock_reads) (trader : Z -> trade_result)
    (self : TradingPipeline) (record : AddressRecord) :
  let result := _process_record config max_age content clock trader self record in
  let self' := fst (fst result) in
  let events := snd (fst result) in
  (List.length (List.filter is_pause events) <= 1)%nat
  /\ List.length (List.filter is_pause events)
     = List.length (List.filter is_resume events)
  /\ (forall before after a,
        events = before ++ ExecuteTrade a :: after ->
        In ListenerPause before /\ In ListenerResume after)
  /\ (listener_paused self = false -> listener_paused self' = false)
  /\ (snd result <> None ->
      _recent_executions self' = _recent_executions self
      /\ _last_execution_time self' = _last_execution_time self
      /\ _last_executed_address self' = _last_executed_address self).
Proof.
  intros result self' events. unfold self', events, result.
  destruct (accepted_or_not config max_age content clock self record) as [Hacc|Hrej].
  - rewrite (process_record_when_accepted _ _ _ _ trader _ _ Hacc).
    pose proof (retry_events_no_pause config trader (address record)) as [Hp Hr].
    destruct (_execute_with_retry config trader (address record)) as [ev escaped].
    simpl in Hp, Hr.
    assert (forall before after a,
              [ListenerPause] ++ ev ++ [ListenerResume]
              = before ++ ExecuteTrade a :: after ->
              In ListenerPause before /\ In ListenerResume after) as Hinside.
    { intros before after a Heq. split.
      - destruct before as [|b before]; [discriminate Heq|].
        injection Heq as <- _. by left.
      - assert (last ([ListenerPause] ++ ev ++ [ListenerResume])
                = Some ListenerResume) as Hlast
          by (rewrite app_assoc; apply last_snoc).
        rewrite Heq in Hlast.
        destruct after as [|x after _] using rev_ind.
        + rewrite last_snoc in Hlast. discriminate Hlast.
        + change (ExecuteTrade a :: after ++ [x])
            with ((ExecuteTrade a :: after) ++ [x]) in Hlast.
          rewrite app_assoc, last_snoc in Hlast. injection Hlast as ->.
          apply in_app_iff. right. by left. }
    assert (List.filter is_pause ([ListenerPause] ++ ev ++ [ListenerResume])
            = [ListenerPause]) as Hpause.
    { simpl. by rewrite List.filter_app, Hp. }
    assert (List.filter is_resume ([ListenerPause] ++ ev ++ [ListenerResume])
            = [ListenerResume]) as Hresume.
    { simpl. by rewrite List.filter_app, Hr. }
    destruct escaped as [e|]; cbn [fst snd]; rewrite Hpause, Hresume.
    + conjs; try done.
    + pose proof (prune_other_fields config
        (mk_pipeline (_queue self) (Some (address record)) (Some (at_done clock))
           (<[address record := at_done clock]> (_recent_executions self)) false)
        (at_done clock) (Some (at_done clock))) as (_ & _ & _ & Hpaused).
      conjs; try done.
  - destruct (process_record_when_rejected _ _ _ _ trader _ _ Hrej)
      as (e & -> & He). cbn [fst snd].
    assert (forall before after a, [e] <> before ++ ExecuteTrade a :: after) as Hno.
    { intros [|b [|b' before]] after a Heq; try discriminate Heq.
      injection Heq as -> _. destruct He as [H|[H|H]]; discriminate H. }
    assert (List.filter is_pause [e] = [] /\ List.filter is_resume [e] = [])
      as [-> ->] by (destruct He as [->|[->| ->]]; by split).
    conjs; try done; try (simpl; lia).
    intros before after a Heq. by destruct (Hno before after a).
Qed.

Lemma trades_happen_inside_pause_witness :
  let result :=
    _process_record default_config 20 (appends empty_file [sample_older])
      sample_clock (fun _ => TradeRaises CancelledError) initial_pipeline
      sample_older in
  snd result = Some CancelledError
  /\ listener_paused (fst (fst result)) = false
  /\ _recent_executions (fst (fst result)) = ∅.
Proof.
  intros result.
  assert (snd result = Some CancelledError) as Hesc by (vm_compute; reflexivity).
  destruct (trades_happen_inside_pause default_config 20
              (appends empty_file [sample_older]) sample_clock
              (fun _ => TradeRaises CancelledError) initial_pipeline sample_older)
    as (_ & _ & _ & Hpaused & Hkept).
  fold result in Hpaused, Hkept.
  split; [exact Hesc|]. split; [by apply Hpaused|].
  apply Hkept. rewrite Hesc. discriminate.
Defined.

(** ** The debounce tracker over time *)

Lemma pipeline_ext (a b : TradingPipeline) :
  _queue a = _queue b ->
  _last_executed_address a = _last_executed_address b ->
  _last_execution_time a = _last_execution_time b ->
  _recent_executions a = _recent_executions b ->
  listener_paused a = listener_paused b ->
  a = b.
Proof. destruct a, b. simpl. by intros -> -> -> -> ->. Qed.

(** X11. [_prune_recent_executions(now)] keeps exactly the entries that are
    younger than the debounce window at [now] and touches nothing else;
    pruning again at the same instant changes nothing; without a reference
    it prunes at the reading of the clock. *)
Theorem prune_keeps_exactly_the_live_entries
    (config : PipelineConfig) (self : TradingPipeline) (clock now : datetime) :
  let self' := _prune_recent_executions config self clock (Some now) in
  (forall k ts,
     _recent_executions self' !! k = Some ts
     <-> _recent_executions self !! k = Some ts
         /\ secs_ltb (total_seconds (dt_sub now ts)) (debounce_seconds config) = true)
  /\ _prune_recent_executions config self' clock (Some now) = self'
  /\ _prune_recent_executions config self now None = self'
  /\ _queue self' = _queue self
  /\ listener_paused self' = listener_paused self.
Proof.
  intros self'.
  assert (forall k ts,
     _recent_executions self' !! k = Some ts
     <-> _recent_executions self !! k = Some ts
         /\ secs_ltb (total_seconds (dt_sub now ts)) (debounce_seconds config) = true)
    as Hlive.
  { intros k ts. unfold self'. rewrite prune_lookup.
    destruct (_recent_executions self !! k) as [ts'|]; [|by split; [|intros []]].
    rewrite secs_geb_ltb.
    destruct (secs_ltb (total_seconds (dt_sub now ts')) (debounce_seconds config))
      eqn:Hlt; simpl.
    - split; [by intros [= <-]|by intros [[= <-] _]].
    - split; [done|]. intros [[= <-] H]. congruence. }
  destruct (prune_other_fields config self clock (Some now)) as (Hq & Ha & Ht & Hp).
  fold self' in Hq, Ha, Ht, Hp.
  split; [exact Hlive|]. split; [|split; [reflexivity|by split]].
  destruct (prune_other_fields config self' clock (Some now)) as (Hq' & Ha' & Ht' & Hp').
  apply pipeline_ext; try done.
  apply map_eq. intros k. rewrite prune_lookup.
  destruct (_recent_executions self' !! k) as [ts|] eqn:Hk; [|done].
  apply Hlive in Hk as [_ Hlt]. by rewrite secs_geb_ltb, Hlt.
Qed.

(** X12. After [_process_record] has run the trade for a record (and no
    exception left it), with a positive debounce window: the execution is
    recorded at the instant read after the attempts, and from then on
    [_should_skip] holds that address back exactly while less than the
    window has passed since that instant; every entry left in the tracker
    is younger than the window. *)
Theorem executed_address_is_debounced
    (config : PipelineConfig) (max_age : Z) (content : text)
    (clock : clock_reads) (trader : Z -> trade_result)
    (self : TradingPipeline) (record : AddressRecord) :
  accepted config max_age content clock self record ->
  snd (_execute_with_retry config trader (address record)) = None ->
  (0 < debounce_seconds config)%Q ->
  let self' :=
    fst (fst (_process_record config max_age content clock trader self record)) in
  _last_executed_address self' = Some (address record)
  /\ _last_execution_time self' = Some (at_done clock)
  /\ (forall t later,
        address later = address record ->
        _should_skip config self' t later
        = secs_ltb (total_seconds (dt_sub t (at_done clock)))
            (debounce_seconds config))
  /\ (forall k ts,
        _recent_executions self' !! k = Some ts ->
        secs_ltb (total_seconds (dt_sub (at_done clock) ts))
          (debounce_seconds config) = true).
Proof.
  intros Hacc Hnone Hpos self'. unfold self'.
  rewrite (process_record_when_accepted _ _ _ _ trader _ _ Hacc).
  destruct (_execute_with_retry config trader (address record)) as [ev escaped].
  simpl in Hnone. subst escaped. cbn [fst].
  set (booked := mk_pipeline (_queue self) (Some (address record))
                   (Some (at_done clock))
                   (<[address record := at_done clock]> (_recent_executions self))
                   false).
  destruct (prune_other_fields config booked (at_done clock) (Some (at_done clock)))
    as (_ & Ha & Ht & _).
  assert (secs_geb (total_seconds 0) (debounce_seconds config) = false) as Hzero.
  { unfold secs_geb. rewrite (proj1 (Qlt_alt _ _)); [reflexivity|].
    unfold total_seconds, Qlt in *. simpl in *. lia. }
  split; [exact Ha|]. split; [exact Ht|]. split.
  - intros t later Hlater. unfold _should_skip. rewrite Hlater, prune_lookup.
    unfold booked. simpl _recent_executions.
    by rewrite lookup_insert_eq, dt_sub_self, Hzero.
  - intros k ts Hk. rewrite prune_lookup in Hk.
    destruct (_recent_executions booked !! k) as [ts'|]; [|done].
    rewrite secs_geb_ltb in Hk.
    destruct (secs_ltb (total_seconds (dt_sub (at_done clock) ts'))
                (debounce_seconds config)) eqn:Hlt; [|done].
    simpl in Hk. by injection Hk as <-.
Qed.

Lemma executed_address_is_debounced_witness :
  let self' :=
    fst (fst (_process_record default_config 20 (appends empty_file [sample_older])
                sample_clock (fun _ => TradeOk) initial_pipeline sample_older)) in
  _should_skip default_config self' (mk_datetime 2024 1 1 12 0 9 499999) sample_older
  = true
  /\ _should_skip default_config self' (mk_datetime 2024 1 1 12 0 9 500000)
       sample_older = false.
Proof.
  intros self'.
  assert (accepted default_config 20 (appends empty_file [sample_older])
            sample_clock initial_pipeline sample_older) as Hacc.
  { split; [vm_compute; reflexivity|]. split; [|reflexivity].
    exists sample_older. split; [vm_compute; reflexivity|]. by split. }
  destruct (executed_address_is_debounced default_config 20
              (appends empty_file [sample_older]) sample_clock (fun _ => TradeOk)
              initial_pipeline sample_older Hacc eq_refl eq_refl)
    as (_ & _ & Hskip & _).
  fold self' in Hskip. split; rewrite Hskip by reflexivity; reflexivity.
Defined.

(** ** The life of [run] *)

Lemma process_record_frame (config : PipelineConfig) (max_age : Z)
    (content : text) (clock : clock_reads) (trader : Z -> trade_result)
    (self : TradingPipeline) (record : AddressRecord) :
  let result := _process_record config max_age content clock trader self record in
  _queue (fst (fst result)) = _queue self
  /\ (listener_paused self = false -> listener_paused (fst (fst result)) = false)
  /\ (forall a, In (ExecuteTrade a) (snd (fst result)) -> a = address record).
Proof.
  intros result. unfold result.
  destruct (accepted_or_not config max_age content clock self record) as [Hacc|Hrej].
  - rewrite (process_record_when_accepted _ _ _ _ trader _ _ Hacc).
    pose proof (retry_loop_shape config trader (address record)
                  (py_range 1 (retry_attempts config + 1))) as (Haddr & _).
    unfold _execute_with_retry.
    destruct (retry_loop trader (address record) (retry_attempts config)
                (retry_delay_seconds config)
                (py_range 1 (retry_attempts config + 1))) as [ev escaped].
    simpl in Haddr.
    assert (forall a, In (ExecuteTrade a) ([ListenerPause] ++ ev ++ [ListenerResume])
                      -> a = address record) as Hev.
    { intros a H. simpl in H. destruct H as [H|H]; [discriminate H|].
      apply in_app_iff in H as [H|[H|[]]]; [by apply Haddr|discriminate H]. }
    destruct escaped as [e|]; cbn [fst snd]; [by conjs|].
    pose proof (prune_other_fields config
      (mk_pipeline (_queue self) (Some (address record)) (Some (at_done clock))
         (<[address record := at_done clock]> (_recent_executions self)) false)
      (at_done clock) (Some (at_done clock))) as (Hq & _ & _ & Hp).
    by conjs.
  - destruct (process_record_when_rejected _ _ _ _ trader _ _ Hrej)
      as (e & -> & He). cbn [fst snd]. conjs; try done.
    intros a [Ha|[]]. destruct He as [->|[->| ->]]; discriminate Ha.
Qed.

Lemma handed_over (self : TradingPipeline) (records : list AddressRecord) :
  _queue (fold_left (fun s r => fst (_handle_new_record true s r)) records self)
  = _queue self ++ records
  /\ listener_paused
       (fold_left (fun s r => fst (_handle_new_record true s r)) records self)
     = listener_paused self.
Proof.
  revert self. induction records as [|r records IH]; intros self.
  - simpl. by rewrite app_nil_r.
  - cbn [fold_left].
    change (fst (_handle_new_record true self r)) with (put self r).
    destruct (IH (put self r)) as [Hq Hp]. rewrite Hq, Hp. simpl.
    by rewrite <- app_assoc.
Qed.

Section RunLoop.

Variable config : PipelineConfig.
Variable max_age : Z.

Lemma run_loop_frame (turns : list turn) :
  forall self,
    List.filter is_stop (snd (fst (run_loop config max_age turns self))) = []
    /\ List.filter is_close (snd (fst (run_loop config max_age turns self))) = []
    /\ (listener_paused self = false ->
        listener_paused (fst (fst (run_loop config max_age turns self))) = false)
    /\ (forall a, In (Controller (ExecuteTrade a))
                    (snd (fst (run_loop config max_age turns self))) ->
          exists r, address r = a
                    /\ (In r (_queue self) \/ exists t, In t turns /\ In r (burst t))).
Proof.
  assert (forall events : list event,
            List.filter is_stop (map Controller events) = []
            /\ List.filter is_close (map Controller events) = []) as Hctl.
  { induction events as [|e events [IH1 IH2]]; by simpl. }
  induction turns as [|t rest IH]; intros self.
  - simpl. conjs; try done. by intros a [H|[]].
  - cbn [run_loop].
    destruct (handed_over self (burst t)) as [Hq Hp].
    set (self1 := fold_left (fun s r => fst (_handle_new_record true s r))
                    (burst t) self) in *.
    unfold run_iteration.
    destruct (_queue self1) as [|first queue] eqn:Hqueue.
    + destruct (IH self1) as (Hs & Hc & Hpaused & Htrade).
      conjs; try done.
      * intros H. apply Hpaused. by rewrite Hp.
      * intros a Ha. destruct (Htrade a Ha) as (r & Hr & [Hin|(t' & Ht' & Hin)]).
        -- by rewrite Hqueue in Hin.
        -- exists r. split; [done|]. right. exists t'. by split; [right|].
    + rewrite drain_last.
      set (record := List.last queue first).
      assert (In record (_queue self) \/ In record (burst t)) as Hrecord.
      { apply in_app_iff. rewrite <- Hq, ?Hqueue. unfold record.
        destruct queue as [|x queue _] using rev_ind; [by left|].
        rewrite last_snoc_default. right. apply in_app_iff. right. by left. }
      destruct (process_record_frame config max_age (turn_content t) (turn_clock t)
                  (turn_trader t) (set_queue self1 []) record)
        as (Hq2 & Hp2 & Ha2).
      destruct (_process_record config max_age (turn_content t) (turn_clock t)
                  (turn_trader t) (set_queue self1 []) record)
        as [[self2 events] escaped].
      simpl in Hq2, Hp2, Ha2. destruct (Hctl events) as [Hs1 Hc1].
      assert (forall a, In (Controller (ExecuteTrade a)) (map Controller events) ->
                exists r, address r = a
                  /\ (In r (_queue self)
                      \/ exists t', In t' (t :: rest) /\ In r (burst t'))) as Hhere.
      { intros a Ha. apply in_map_iff in Ha as (e & [= ->] & He).
        exists record. split; [symmetry; by apply Ha2|].
        destruct Hrecord as [H|H]; [by left|].
        right. exists t. by split; [left|]. }
      destruct escaped as [[exc|]|]; cbn [fst snd].
      * conjs; try done. intros H. apply Hp2. by rewrite Hp.
      * rewrite !List.filter_app, Hs1, Hc1. conjs; try done.
        -- intros H. apply Hp2. by rewrite Hp.
        -- intros a [Ha|[Ha|[]]]%in_app_iff; [by apply Hhere|discriminate Ha].
      * destruct (IH self2) as (Hs & Hc & Hpaused & Htrade).
        destruct (run_loop config max_age rest self2) as [[self3 later] escaped].
        cbn [fst snd] in *. rewrite !List.filter_app, Hs1, Hc1, Hs, Hc.
        conjs; try done.
        -- intros H. apply Hpaused, Hp2. by rewrite Hp.
        -- intros a [Ha|Ha]%in_app_iff; [by apply Hhere|].
           destruct (Htrade a Ha) as (r & Hr & [Hin|(t' & Ht' & Hin)]).
           ++ by rewrite Hq2 in Hin.
           ++ exists r. split; [done|]. right. exists t'. by split; [right|].
Qed.

End RunLoop.

(** X13. However [run] goes once the listener has started - turns that
    trade, turns that drop their record, a cancellation in the middle of a
    trade or while waiting - it stops the listener and closes the trader
    exactly once, as its last two steps; it leaves a running listener
    unpaused; and every address it trades was handed to it in a record
    (through the queue).  When the listener fails to start, [run] only
    closes the trader: nothing is processed and nothing is traded. *)
Theorem run_always_cleans_up
    (config : PipelineConfig) (max_age : Z) (turns : list turn)
    (self : TradingPipeline) :
  (let result := run config max_age None turns self in
   let events := snd (fst result) in
   (exists body, events = [LogStarted] ++ body ++ [ListenerStop; TraderClose])
   /\ List.filter is_stop events = [ListenerStop]
   /\ List.filter is_close events = [TraderClose]
   /\ (listener_paused self = false -> listener_paused (fst (fst result)) = false)
   /\ (forall a, In (Controller (ExecuteTrade a)) events ->
         exists r, address r = a
                   /\ (In r (_queue self) \/ exists t, In t turns /\ In r (burst t))))
  /\ (forall exc,
        run config max_age (Some exc) turns self
        = (self, [LogStartFailed exc; TraderClose], None)).
Proof.
  split; [|reflexivity]. unfold run.
  destruct (run_loop_frame config max_age turns self) as (Hs & Hc & Hp & Ht).
  destruct (run_loop config max_age turns self) as [[self' body] escaped].
  cbn [fst snd] in *. conjs.
  - by exists body.
  - simpl. by rewrite List.filter_app, Hs.
  - simpl. by rewrite List.filter_app, Hc.
  - exact Hp.
  - intros a Ha. simpl in Ha. destruct Ha as [Ha|Ha]; [discriminate Ha|].
    apply in_app_iff in Ha as [Ha|[Ha|[Ha|[]]]]; try discriminate Ha.
    by apply Ht.
Qed.

Lemma run_always_cleans_up_witness :
  let turn1 := {| burst := [sample_newer; sample_older];
                  turn_content := appends empty_file [sample_older];
                  turn_clock := sample_clock;
                  turn_trader := fun _ => TradeOk |} in
  snd (fst (run default_config 20 None [turn1] initial_pipeline))
  = [LogStarted;
     Controller ListenerPause;
     Controller (ExecuteTrade sample_address);
     Controller (LogTradeOk sample_address);
     Controller ListenerResume;
     LogCancelled; ListenerStop; TraderClose]
  /\ List.filter is_close
       (snd (fst (run default_config 20 None [turn1] initial_pipeline)))
     = [TraderClose].
Proof.
  intros turn1. split; [vm_compute; reflexivity|].
  exact (proj1 (proj2 (proj2 (proj1
           (run_always_cleans_up default_config 20 [turn1] initial_pipeline))))).
Defined.

(** ** The file as a round trip *)

(** X14. Writing a list of well-formed records the way [append] writes them
    and reading the file back gives the same list, record by record: every
    line parses to the record it was written from, [read_latest] is the last
    record written, and two records are written as the same line only when
    they are the same record. *)
Theorem written_records_are_read_back (records : list AddressRecord) :
  Forall wf_record records ->
  read_all (serialize records) = records
  /\ read_latest (serialize records) = last records
  /\ (forall r, In r records -> from_line (to_line r) = Some r)
  /\ (forall r r', In r records -> In r' records -> to_line r = to_line r' -> r = r').
Proof.
  intros Hwf.
  assert (read_all (serialize records) = records) as Hread.
  { pose proof (read_all_written records Hwf) as H. unfold serialize.
    by destruct (join_lf (map to_line records)). }
  assert (forall r, In r records -> from_line (to_line r) = Some r) as Hline.
  { intros r Hr. apply from_line_to_line.
    rewrite List.Forall_forall in Hwf. by apply Hwf. }
  conjs; try done.
  - by rewrite read_latest_last, Hread.
  - intros r r' Hr Hr' Heq. apply Hline in Hr, Hr'. congruence.
Qed.

Lemma written_records_are_read_back_witness :
  Forall wf_record [sample_older; sample_other]
  /\ read_all (serialize [sample_older; sample_other]) = [sample_older; sample_other]
  /\ read_latest (serialize [sample_older; sample_other]) = Some sample_other.
Proof.
  assert (Forall wf_record [sample_older; sample_other]) as Hwf
    by (repeat constructor; wf_by_computation).
  destruct (written_records_are_read_back _ Hwf) as (Hread & Hlatest & _).
  by conjs.
Defined.

(** ** The scan loop: which records are handed on *)

Lemma insert_descending_perm (r : AddressRecord) (l : list AddressRecord) :
  Permutation (insert_descending r l) (r :: l).
Proof.
  induction l as [|x l IH]; simpl; [reflexivity|].
  destruct (dt_gtb (timestamp x) (timestamp r)); [|reflexivity].
  rewrite IH. apply perm_swap.
Qed.

Lemma sorted_descending_perm (l : list AddressRecord) :
  Permutation (sorted_descending l) l.
Proof.
  induction l as [|x l IH]; simpl; [reflexivity|].
  rewrite insert_descending_perm. by constructor.
Qed.

Lemma find_rank_above (address_ : text) (l : list AddressRecord) :
  forall idx rank, find_rank address_ idx l = Some rank -> idx < rank.
Proof.
  induction l as [|x l IH]; intros idx rank; simpl; [done|].
  case_bool_decide as Hx; [intros [= <-]; lia|].
  intros Hrank%IH. lia.
Qed.

Lemma find_rank_within (address_ : text) (l : list AddressRecord) :
  forall (n : nat) idx,
    match find_rank address_ idx l with
    | None => true
    | Some rank => idx + Z.of_nat n <? rank
    end
    = negb (existsb (fun x => bool_decide (address x = address_)) (firstn n l)).
Proof.
  induction l as [|x l IH]; intros n idx; simpl.
  - by rewrite firstn_nil.
  - case_bool_decide as Hx.
    + destruct n as [|n]; simpl.
      * apply Z.ltb_lt. lia.
      * rewrite bool_decide_eq_true_2 by done. simpl. apply Z.ltb_ge. lia.
    + destruct n as [|n]; simpl.
      * destruct (find_rank address_ (idx + 1) l) as [rank|] eqn:Hrank; [|done].
        apply find_rank_above in Hrank. apply Z.ltb_lt. lia.
      * rewrite bool_decide_eq_false_2 by done. simpl.
        rewrite <- (IH n (idx + 1)).
        destruct (find_rank address_ (idx + 1) l); [|done]. f_equal. lia.
Qed.

Lemma in_firstn_in {A} (n : nat) (l : list A) (x : A) :
  In x (firstn n l) -> In x l.
Proof.
  intros H. rewrite <- (firstn_skipn n l). apply in_app_iff. by left.
Qed.

Lemma existsb_perm {A} (f : A -> bool) (l l' : list A) :
  Permutation l l' -> existsb f l = existsb f l'.
Proof.
  induction 1 as [|x l l' _ IH|x y l|l l' l'' _ IH1 _ IH2]; simpl.
  - done.
  - by rewrite IH.
  - by destruct (f x), (f y).
  - by rewrite IH1.
Qed.

(** X15. [_should_execute_trade] suppresses a record exactly when its
    address is among the three newest records of the history (newest first,
    ties in file order): a new address is always let through, and with three
    records or fewer in the history a known address never is. *)
Theorem should_execute_trade_unless_among_newest_three
    (record : AddressRecord) (history : list AddressRecord) :
  let same x := bool_decide (address x = address record) in
  _should_execute_trade record history
  = negb (existsb same (firstn 3 (sorted_descending history)))
  /\ ((forall x, In x history -> address x <> address record) ->
      _should_execute_trade record history = true)
  /\ ((List.length history <= 3)%nat ->
      (exists x, In x history /\ address x = address record) ->
      _should_execute_trade record history = false).
Proof.
  intros same.
  assert (forallb
            (fun existing => negb (bool_decide (address existing = address record)))
            history
          = negb (existsb same history)) as Hall.
  { induction history as [|x l IH]; [done|]. simpl. rewrite IH. unfold same.
    by destruct (bool_decide (address x = address record)), (existsb _ l). }
  assert (_should_execute_trade record history
          = negb (existsb same (firstn 3 (sorted_descending history)))) as Heq.
  { unfold _should_execute_trade. destruct history as [|h history]; [done|].
    rewrite Hall.
    pose proof (find_rank_within (address record)
                  (sorted_descending (h :: history)) 3 0) as Hrank.
    simpl Z.add in Hrank. fold same in Hrank.
    destruct (existsb same (h :: history)) eqn:Hex; simpl negb; cbv iota;
      [exact Hrank|].
    symmetry. apply negb_true_iff.
    destruct (existsb same (firstn 3 (sorted_descending (h :: history)))) eqn:Hin;
      [|done].
    apply existsb_exists in Hin as (x & Hx & Hsame).
    assert (existsb same (h :: history) = true) as Hcontra; [|congruence].
    apply existsb_exists. exists x. split; [|done].
    eapply Permutation_in; [apply sorted_descending_perm|].
    eapply in_firstn_in, Hx. }
  conjs; [exact Heq| |].
  - intros Hnew. rewrite Heq. apply negb_true_iff.
    destruct (existsb same (firstn 3 (sorted_descending history))) eqn:Hin; [|done].
    apply existsb_exists in Hin as (x & Hx & Hsame). exfalso.
    apply (Hnew x); [|by apply bool_decide_eq_true in Hsame].
    eapply Permutation_in; [apply sorted_descending_perm|].
    eapply in_firstn_in, Hx.
  - intros Hlen (x & Hx & Hsame). rewrite Heq. apply negb_false_iff.
    rewrite firstn_all2
      by (rewrite (Permutation_length (sorted_descending_perm history)); lia).
    rewrite (existsb_perm same _ _ (sorted_descending_perm history)).
    apply existsb_exists. exists x. split; [done|]. by apply bool_decide_eq_true.
Qed.

Lemma should_execute_trade_unless_among_newest_three_witness :
  (List.length [sample_other; sample_older] <= 3)%nat
  /\ _should_execute_trade sample_newer [sample_other; sample_older] = false
  /\ _should_execute_trade sample_newer [sample_other] = true.
Proof.
  assert (List.length [sample_other; sample_older] <= 3)%nat as Hlen by (simpl; lia).
  destruct (should_execute_trade_unless_among_newest_three sample_newer
              [sample_other; sample_older]) as (_ & _ & Hknown).
  destruct (should_execute_trade_unless_among_newest_three sample_newer
              [sample_other]) as (_ & Hnew & _).
  conjs; [exact Hlen| |].
  - apply Hknown; [exact Hlen|]. exists sample_older. split; [by right; left|done].
  - apply Hnew. intros x [<-|[]]. discriminate.
Defined.

Lemma should_execute_trade_new_address (record : AddressRecord)
    (history : list AddressRecord) :
  (forall x, In x history -> address x <> address record) ->
  _should_execute_trade record history = true.
Proof.
  intros Hnew. unfold _should_execute_trade.
  destruct history as [|h history]; [done|].
  assert (forallb
            (fun existing => negb (bool_decide (address existing = address record)))
            (h :: history) = true) as ->; [|done].
  apply forallb_forall. intros x Hx. apply negb_true_iff.
  apply bool_decide_eq_false_2. by apply Hnew.
Qed.

Lemma append_members_inv (content : text) (record x : AddressRecord) :
  reachable content -> wf_record record ->
  In x (read_all (fst (append content record))) ->
  x = record \/ (In x (read_all content) /\ address x <> address record).
Proof.
  intros Hreach Hwf Hx.
  destruct (append_one_per_address content record Hwf) as [Hnd Hrec].
  destruct (decide (address x = address record)) as [Heq|Haddr];
    [left; by eapply NoDup_address_eq|].
  rewrite read_all_append, reachable_merge in Hx by done.
  eapply Permutation_in in Hx; [|apply sorted_by_timestamp_perm].
  apply dict_set_other in Hx as [->|Hx]; [by left|]. right.
  by rewrite dict_values_entries in Hx.
Qed.

(** X16. When the scan loop handles a record that is newer than every
    stored record of another address (as a record stamped with the current
    clock is), the record is in the store before anything is handed on, and
    it is the store's latest: [read_latest] returns it, so the check of
    [_process_record] against the store will let it pass.  Only that record
    is ever handed on, and a record with a new address always is. *)
Theorem handled_record_becomes_store_tip
    (content : text) (last_address : option text) (record : AddressRecord) :
  reachable content -> wf_record record ->
  (forall x, In x (read_all content) -> address x <> address record ->
             dt_gtb (timestamp record) (timestamp x) = true) ->
  let result := _handle_latest_record content last_address (Some record) in
  let content' := fst (fst result) in
  reachable content'
  /\ In record (read_all content')
  /\ read_latest content' = Some record
  /\ snd (fst result) = Some (address record)
  /\ (forall r, snd result = Some r -> r = record)
  /\ ((forall x, In x (read_all content) -> address x <> address record) ->
      snd result = Some record).
Proof.
  intros Hreach Hwf Hnewer result content'. unfold content', result.
  unfold _handle_latest_record. cbn [fst snd].
  destruct (append_one_per_address content record Hwf) as [Hnd Hrec].
  assert (reachable (fst (append content record))) as Hreach'
    by by apply reachable_append.
  conjs; try done.
  - rewrite read_latest_last.
    destruct (last (read_all (fst (append content record)))) as [y|] eqn:Hlast.
    + pose proof (ascending_last_greatest _ _
                    (reachable_read_all_ascending _ Hreach') Hlast record Hrec)
        as Hle.
      apply last_Some_elem_of, list_elem_of_In in Hlast.
      apply append_members_inv in Hlast as [->|[Hy Haddr]]; try done.
      specialize (Hnewer y Hy Haddr). unfold ts_le, dt_leb in Hle.
      by rewrite Hnewer in Hle.
    + apply last_None in Hlast. by rewrite Hlast in Hrec.
  - intros r. by destruct (_should_execute_trade record (read_all content));
      intros [= <-].
  - intros Hnew. by rewrite should_execute_trade_new_address.
Qed.

Lemma handled_record_becomes_store_tip_witness :
  let result :=
    _handle_latest_record (appends empty_file [sample_newer]) None
      (Some sample_other) in
  reachable (appends empty_file [sample_newer])
  /\ wf_record sample_other
  /\ read_latest (fst (fst result)) = Some sample_other
  /\ snd result = Some sample_other.
Proof.
  intros result.
  assert (reachable (appends empty_file [sample_newer])) as Hreach.
  { apply (reachable_append _ sample_newer); [constructor|wf_by_computation]. }
  assert (wf_record sample_other) as Hwf by wf_by_computation.
  assert (read_all (appends empty_file [sample_newer]) = [sample_newer]) as Hall
    by (vm_compute; reflexivity).
  destruct (handled_record_becomes_store_tip (appends empty_file [sample_newer])
              None sample_other Hreach Hwf) as (_ & _ & Hlatest & _ & _ & Hnew).
  { rewrite Hall. intros x [<-|[]] _. vm_compute. reflexivity. }
  conjs; [exact Hreach|exact Hwf|exact Hlatest|].
  apply Hnew. rewrite Hall. intros x [<-|[]]. discriminate.
Defined.

(** ** Capture geometry *)

(** X17. The region [_get_chat_region] computes never starts left of or
    above the window and is never smaller than the configured minimum
    capture size; and for a window of non-negative size the crop box
    [_capture_frame] derives from any region is never empty, starts inside
    the window, and ends inside it whenever it starts strictly inside. *)
Theorem capture_geometry_is_well_formed
    (cfg : OCRGeometry) (left_inset : Z -> Z) (left top right bottom : Z)
    (region : Z * Z * Z * Z) :
  (let '(x, y, w, h) := _get_chat_region cfg left_inset left top right bottom in
   left <= x /\ top <= y
   /\ min_capture_width cfg <= w /\ min_capture_height cfg <= h
   /\ right - chat_right_offset cfg <= x + w
   /\ bottom - chat_bottom_offset cfg <= y + h)
  /\ (left <= right -> top <= bottom ->
      let '(rel_left, rel_top, rel_right, rel_bottom) :=
        crop_box left top right bottom region in
      0 <= rel_left <= right - left /\ 0 <= rel_top <= bottom - top
      /\ rel_left < rel_right /\ rel_top < rel_bottom
      /\ (rel_left < right - left -> rel_right <= right - left)
      /\ (rel_top < bottom - top -> rel_bottom <= bottom - top)).
Proof.
  split.
  - unfold _get_chat_region. lia.
  - intros Hw Hh. destruct region as [[[x y] w] h]. unfold crop_box. lia.
Qed.

Lemma capture_geometry_is_well_formed_witness :
  0 <= 800 /\ 0 <= 600
  /\ crop_box 0 0 800 600 (900, 700, 50, 50) = (800, 600, 801, 601).
Proof.
  pose proof (capture_geometry_is_well_formed
                {| chat_top_offset := 100; chat_right_offset := 10;
                   chat_bottom_offset := 80; min_capture_width := 120;
                   min_capture_height := 120 |}
                (fun w => w * 2 / 5) 0 0 800 600 (900, 700, 50, 50)) as [_ H].
  specialize (H ltac:(lia) ltac:(lia)).
  conjs; [lia|lia|reflexivity].
Defined.

(** X18. Whatever sizes are configured, [_preprocess_frame] hands OpenCV
    only odd sizes of at least 3, as OpenCV requires: the blur is skipped
    exactly when the configured kernel is 1 or less, and the threshold is
    applied exactly when it is enabled, last. *)
Theorem preprocess_sizes_are_odd
    (gaussian_kernel_size : Z) (use_adaptive_threshold : bool)
    (threshold_block_size threshold_constant : Z) :
  let calls :=
    _preprocess_frame gaussian_kernel_size use_adaptive_threshold
      threshold_block_size threshold_constant in
  Forall (fun call =>
            match call with
            | GaussianBlur kernel =>
                3 <= kernel /\ kernel mod 2 = 1 /\ gaussian_kernel_size <= kernel
            | AdaptiveThreshold block_size constant =>
                3 <= block_size /\ block_size mod 2 = 1
                /\ threshold_block_size <= block_size
                /\ constant = threshold_constant
            end) calls
  /\ ((forall kernel, ~ In (GaussianBlur kernel) calls) <-> gaussian_kernel_size <= 1)
  /\ ((exists b c, last calls = Some (AdaptiveThreshold b c))
      <-> use_adaptive_threshold = true).
Proof.
  intros calls. unfold calls, _preprocess_frame.
  set (k := Z.max 1 gaussian_kernel_size).
  assert (1 <= k /\ gaussian_kernel_size <= k) as Hk by (unfold k; lia).
  assert (forall n, n mod 2 = 0 \/ n mod 2 = 1) as Hparity
    by (intros n; pose proof (Z.mod_pos_bound n 2); lia).
  assert (forall n, n mod 2 = 0 -> (n + 1) mod 2 = 1) as Hsucc.
  { intros n Hn. rewrite Z.add_mod, Hn by lia. reflexivity. }
  set (kernel := if k mod 2 =? 0 then k + 1 else k).
  assert (1 <= kernel /\ kernel mod 2 = 1 /\ gaussian_kernel_size <= kernel
          /\ (kernel < 3 <-> gaussian_kernel_size <= 1)) as Hkernel.
  { unfold kernel. destruct (Z.eqb_spec (k mod 2) 0) as [Hz|Hnz].
    - pose proof (Hsucc k Hz). assert (k <> 1) by (intros ->; discriminate Hz).
      unfold k in *. lia.
    - destruct (Hparity k) as [|Hone]; [done|].
      assert (k <> 2) by (intros ->; discriminate Hone). unfold k in *. lia. }
  set (b1 := if threshold_block_size mod 2 =? 0 then threshold_block_size + 1
             else threshold_block_size).
  assert (b1 mod 2 = 1 /\ threshold_block_size <= b1) as Hb1.
  { unfold b1. destruct (Z.eqb_spec (threshold_block_size mod 2) 0) as [Hz|Hnz].
    - split; [by apply Hsucc|lia].
    - destruct (Hparity threshold_block_size); [done|]. split; [done|lia]. }
  assert (3 <= Z.max 3 b1 /\ Z.max 3 b1 mod 2 = 1 /\ threshold_block_size <= Z.max 3 b1)
    as Hblock.
  { destruct Hb1 as [Hodd1 Hle1].
    destruct (Z.max_spec 3 b1) as [[Hlt ->]|[Hge3 ->]]; conjs; try lia; done. }
  destruct Hkernel as (Hk1 & Hodd & Hge & Hskip).
  destruct (Z.leb_spec 3 kernel) as [H3|H3];
    destruct use_adaptive_threshold; simpl; conjs;
    try (repeat constructor; lia);
    try (split; [intros H; lia || (exfalso; eapply H; by left)
                |intros H ?; lia || by intros []]);
    try (split; [done || by intros (? & ? & ?)|done || by eexists _, _]).
Qed.

(** ** Window candidates *)

Lemma add_candidate_shape (candidates : list text) (name : text) :
  NoDup candidates ->
  NoDup (add_candidate candidates name)
  /\ (exists tail, add_candidate candidates name = candidates ++ tail
                   /\ forall x, In x tail -> x = name /\ name <> [])
  /\ (name <> [] -> In name (add_candidate candidates name)).
Proof.
  intros Hnd. unfold add_candidate. destruct name as [|c name].
  - conjs; [done| |done]. exists []. by rewrite app_nil_r.
  - case_bool_decide as Hin.
    + conjs; [done| |by intros _; apply list_elem_of_In].
      exists []. by rewrite app_nil_r.
    + conjs.
      * apply NoDup_app. conjs; [done| |apply NoDup_singleton].
        intros x Hx ->%list_elem_of_singleton. done.
      * exists [c :: name]. split; [done|]. by intros x [<-|[]].
      * intros _. apply in_app_iff. right. by left.
Qed.

Lemma add_candidates_shape (defaults : list text) :
  forall candidates,
    NoDup candidates ->
    let result := fold_left add_candidate defaults candidates in
    NoDup result
    /\ (exists tail, result = candidates ++ tail
                     /\ forall x, In x tail -> In x defaults /\ x <> [])
    /\ (forall d, In d defaults -> d <> [] -> In d result).
Proof.
  induction defaults as [|d defaults IH]; intros candidates Hnd; simpl.
  - conjs; [done| |done]. exists []. by rewrite app_nil_r.
  - destruct (add_candidate_shape candidates d Hnd) as (Hnd1 & (t1 & Heq1 & Ht1) & Hd).
    destruct (IH _ Hnd1) as (Hnd2 & (t2 & Heq2 & Ht2) & Hds).
    conjs; [done| |].
    + exists (t1 ++ t2). rewrite Heq2, Heq1, <- app_assoc. split; [done|].
      intros x [Hx|Hx]%in_app_iff.
      * destruct (Ht1 x Hx) as [-> Hne]. by split; [left|].
      * destruct (Ht2 x Hx). by split; [right|].
    + intros x [<-|Hx] Hne; [|by apply Hds].
      rewrite Heq2. apply in_app_iff. left. by apply Hd.
Qed.

(** X19. The candidate names tried for a window never repeat and are never
    blank; the configured name, stripped, comes first whenever it is not
    blank; every default is tried, in its order; and nothing else is. *)
Theorem window_candidates_are_distinct (configured : text) (defaults : list text) :
  let candidates := candidates_with_defaults configured defaults in
  NoDup candidates
  /\ (forall x, In x candidates ->
        x <> [] /\ (x = strip configured \/ In x defaults))
  /\ (forall d, In d defaults -> d <> [] -> In d candidates)
  /\ (strip configured <> [] -> head candidates = Some (strip configured))
  /\ (strip configured = [] -> forall d tail,
        defaults = d :: tail -> d <> [] -> head candidates = Some d)
  /\ _candidate_class_names configured
     = candidates_with_defaults configured [str "WeChatMainWndForPC"; str "ChatWnd"].
Proof.
  intros candidates. unfold candidates, candidates_with_defaults.
  set (initial := match strip configured with [] => [] | _ => [strip configured] end).
  assert (NoDup initial) as Hnd.
  { unfold initial. destruct (strip configured); [apply NoDup_nil_2|apply NoDup_singleton]. }
  destruct (add_candidates_shape defaults initial Hnd) as (Hnd' & (tail & Heq & Htail) & Hds).
  rewrite Heq. conjs.
  - by rewrite <- Heq.
  - intros x [Hx|Hx]%in_app_iff.
    + unfold initial in Hx. destruct (strip configured) as [|c s]; [done|].
      destruct Hx as [<-|[]]. by split; [|left].
    + destruct (Htail x Hx). by split; [|right].
  - intros d Hd Hne. rewrite <- Heq. by apply Hds.
  - intros Hne. unfold initial. by destruct (strip configured).
  - intros Hblank d rest -> Hne. unfold initial in *. rewrite Hblank in *.
    simpl in Heq. unfold add_candidate in Heq at 2.
    destruct d as [|c d]; [done|]. rewrite bool_decide_eq_false_2 in Heq
      by apply not_elem_of_nil.
    simpl in Heq.
    destruct (add_candidates_shape rest [c :: d] (NoDup_singleton _))
      as (_ & (t & Ht & _) & _).
    simpl. rewrite <- Heq, Ht. reflexivity.
  - reflexivity.
Qed.

Lemma window_candidates_are_distinct_witness :
  _candidate_class_names (str "  ChatWnd ") = [str "ChatWnd"; str "WeChatMainWndForPC"]
  /\ NoDup (_candidate_class_names (str "  ChatWnd ")).
Proof.
  split; [vm_compute; reflexivity|].
  exact (proj1 (window_candidates_are_distinct (str "  ChatWnd ")
                  [str "WeChatMainWndForPC"; str "ChatWnd"])).
Defined.

(** ** Addresses in recognised text *)

Lemma ord_inj (c : ascii) (v : Z) : ord c = v -> c = ascii_of_N (Z.to_N v).
Proof.
  unfold ord. intros <-. by rewrite N2Z.id, ascii_N_embedding.
Qed.

Lemma lower_hex_cases (c : ascii) :
  lower_hex c -> In c (str "0123456789abcdef").
Proof.
  unfold lower_hex. intros H.
  assert (ord c = 48 \/ ord c = 49 \/ ord c = 50 \/ ord c = 51 \/ ord c = 52
          \/ ord c = 53 \/ ord c = 54 \/ ord c = 55 \/ ord c = 56 \/ ord c = 57
          \/ ord c = 97 \/ ord c = 98 \/ ord c = 99 \/ ord c = 100
          \/ ord c = 101 \/ ord c = 102) as Hc by lia.
  repeat (destruct Hc as [Hc|Hc];
          [apply ord_inj in Hc; subst c; vm_compute; tauto|]).
  apply ord_inj in Hc. subst c. vm_compute. tauto.
Qed.

Lemma is_hex_lower (c : ascii) : is_hex c = true -> lower_hex (lower_char c).
Proof.
  unfold is_hex, lower_hex, lower_char. intros H.
  apply orb_true_iff in H as [H|H]; [apply orb_true_iff in H as [H|H]|];
    apply andb_true_iff in H as [H1%Z.leb_le H2%Z.leb_le].
  - destruct (Z.leb_spec 65 (ord c)); [lia|]. simpl. lia.
  - destruct (Z.leb_spec 65 (ord c)); [|lia].
    destruct (Z.leb_spec (ord c) 90); [|lia]. simpl.
    unfold ord in *. rewrite N_ascii_embedding by lia. lia.
  - destruct (Z.leb_spec 65 (ord c)); [|lia].
    destruct (Z.leb_spec (ord c) 90); [lia|]. simpl. lia.
Qed.

Lemma take_hex_shape (n : nat) :
  forall s m rest,
    take_hex n s = Some (m, rest) ->
    List.length m = n /\ Forall (fun c => is_hex c = true) m.
Proof.
  induction n as [|n IH]; intros s m rest; simpl.
  - by intros [= <- _].
  - destruct s as [|c s]; [done|]. destruct (is_hex c) eqn:Hc; [|done].
    destruct (take_hex n s) as [[m' rest']|] eqn:Hm; [|done].
    intros [= <- _]. destruct (IH _ _ _ Hm) as [Hlen Hhex].
    split; [simpl; by rewrite Hlen|by constructor].
Qed.

Lemma strict_at_shape (s m : text) :
  strict_at s = Some m -> normalized_address (lower m).
Proof.
  unfold strict_at. destruct s as [|c0 [|c1 s]]; try done.
  destruct (chr_eqb c0 "0") eqn:H0; [|done].
  destruct (is_x c1) eqn:H1; [|done]. simpl andb. cbv iota.
  destruct (take_hex 40 s) as [[h rest]|] eqn:Hh; [|done].
  intros [= <-]. apply take_hex_shape in Hh as [Hlen Hhex].
  apply Ascii.eqb_eq in H0. subst c0.
  exists (map lower_char h). conjs.
  - unfold lower. simpl. f_equal. f_equal.
    unfold is_x in H1.
    apply orb_true_iff in H1 as [->%Ascii.eqb_eq| ->%Ascii.eqb_eq]; reflexivity.
  - by rewrite length_map.
  - apply Forall_map. eapply Forall_impl; [exact Hhex|]. apply is_hex_lower.
Qed.

Lemma scan_matches (match_at : text -> option text) (s : text) :
  forall skip x, In x (scan match_at skip s) -> exists s', match_at s' = Some x.
Proof.
  induction s as [|c s IH]; intros skip x; simpl; [done|].
  destruct skip as [|k]; [|apply IH].
  destruct (match_at (c :: s)) as [m|] eqn:Hm; [|apply IH].
  intros [<-|Hx]; [by exists (c :: s)|by eapply IH].
Qed.

Lemma unique_in_order_shape (items : list text) :
  forall seen,
    NoDup (unique_in_order seen items)
    /\ forall x, In x (unique_in_order seen items) -> In x items /\ x ∉ seen.
Proof.
  induction items as [|y items IH]; intros seen; simpl.
  - split; [apply NoDup_nil_2|done].
  - case_bool_decide as Hy.
    + destruct (IH seen) as [Hnd Hin]. split; [done|].
      intros x Hx. destruct (Hin x Hx). by split; [right|].
    + destruct (IH (y :: seen)) as [Hnd Hin]. split.
      * apply NoDup_cons. split; [|done].
        intros Hy'%list_elem_of_In. destruct (Hin y Hy') as [_ Hno].
        apply Hno. by left.
      * intros x [<-|Hx]; [by split; [left|]|].
        destruct (Hin x Hx) as [Hx' Hno]. split; [by right|].
        intros Hseen. apply Hno. by right.
Qed.

Lemma checked_shape (t : text) :
  startswith t (str "0x") = true -> len t = 42 ->
  forallb (fun ch => char_in ch (str "0123456789abcdef")) (skipn 2 t) = true ->
  normalized_address t.
Proof.
  intros Hprefix Hlen Hhex. apply startswith_0x in Hprefix as [rest Ht].
  exists rest. rewrite Ht in Hhex, Hlen. simpl in Hhex. split; [exact Ht|]. split.
  - unfold len in Hlen. simpl in Hlen. lia.
  - apply List.Forall_forall. intros ch Hch. apply char_in_lower_hex.
    rewrite forallb_forall in Hhex. by apply Hhex.
Qed.

Lemma clean_loose_shape (raw a : text) :
  clean_loose raw = Some a -> normalized_address a.
Proof.
  unfold clean_loose. set (t := lower _).
  destruct (Z.eqb_spec (len t) 42) as [Hlen|]; cbn [negb]; [|discriminate].
  destruct (startswith t (str "0x")) eqn:Hprefix; cbn [negb]; [|discriminate].
  destruct (forallb _ (skipn 2 t)) eqn:Hhex; cbn [negb]; [|discriminate].
  intros [= <-]. by apply checked_shape.
Qed.

Lemma extract_addresses_shape (recognised a : text) :
  In a (extract_addresses recognised) -> normalized_address a.
Proof.
  unfold extract_addresses. destruct recognised as [|c0 recognised]; [done|].
  destruct (unique_in_order [] (scan strict_at 0 (c0 :: recognised)))
    as [|m ms] eqn:Hstrict.
  - intros Ha. apply unique_in_order_shape in Ha as [Ha _].
    apply list_elem_of_In, list_elem_of_omap in Ha as (raw & _ & Hraw).
    by eapply clean_loose_shape.
  - intros (x & <- & Hx)%in_map_iff. rewrite <- Hstrict in Hx.
    apply unique_in_order_shape in Hx as [Hx _].
    apply scan_matches in Hx as (s' & Hs'). by eapply strict_at_shape.
Qed.

Lemma remove_char_absent (ch : ascii) (l : text) :
  Forall (fun c => chr_eqb c ch = false) l -> remove_char ch l = l.
Proof.
  unfold remove_char. induction 1 as [|c l Hc _ IH]; [done|].
  simpl. by rewrite Hc, IH.
Qed.

Lemma lower_fixed (l : text) :
  Forall (fun c => lower_char c = c) l -> lower l = l.
Proof.
  unfold lower. induction 1 as [|c l Hc _ IH]; [done|].
  simpl. by rewrite Hc, IH.
Qed.

(** What [_normalize_address] does to an address that is normalised
    already. *)
Lemma normalize_address_fixes_normalized (nfkc : text -> text) (a : text) :
  normalized_address a -> nfkc a = a -> _normalize_address nfkc (Some a) = Some a.
Proof.
  intros (hex & -> & Hlen & Hhex) Hnfkc.
  assert (forall c, In c (str "0123456789abcdefx") ->
            lower_char c = c /\ chr_eqb c " " = false
            /\ chr_eqb c LF = false /\ chr_eqb c CR = false) as Hplain.
  { intros c Hc. simpl in Hc.
    repeat (destruct Hc as [<-|Hc]; [by vm_compute|]). done. }
  assert (Forall (fun c => In c (str "0123456789abcdefx")) (str "0x" ++ hex)) as Hall.
  { apply Forall_app. split; [repeat constructor; simpl; tauto|].
    eapply Forall_impl; [exact Hhex|]. intros c Hc%lower_hex_cases.
    simpl in Hc |- *. tauto. }
  assert (forall ch, (forall c, In c (str "0123456789abcdefx") -> chr_eqb c ch = false) ->
            remove_char ch (str "0x" ++ hex) = str "0x" ++ hex) as Hremove.
  { intros ch Hch. apply remove_char_absent.
    eapply Forall_impl; [exact Hall|]. exact Hch. }
  assert (lower (str "0x" ++ hex) = str "0x" ++ hex) as Hlower.
  { apply lower_fixed. eapply Forall_impl; [exact Hall|].
    intros c Hc. by apply Hplain. }
  change (str "0x" ++ hex) with ("0"%char :: "x"%char :: hex) in *.
  unfold _normalize_address. cbv zeta. rewrite Hnfkc.
  rewrite !Hremove by (intros c Hc; by apply Hplain).
  rewrite Hlower. cbn [startswith str list_ascii_of_string].
  rewrite !Ascii.eqb_refl. cbn [andb].
  assert (startswith hex [] = true) as -> by by destruct hex.
  cbn [negb skipn]. unfold len. cbn [List.length]. rewrite Hlen.
  change (Z.of_nat 42 =? 42) with true. cbn [negb]. rewrite drop_0.
  assert (forallb (fun ch => char_in ch (str "0123456789abcdef")) hex = true) as Hok;
    [|cbn [str list_ascii_of_string] in Hok; by rewrite Hok].
  apply forallb_forall. intros ch Hch. unfold char_in. apply existsb_exists.
  exists ch. split; [|apply Ascii.eqb_refl].
  apply lower_hex_cases. rewrite List.Forall_forall in Hhex. by apply Hhex.
Qed.

(** X20. Every address [extract_addresses] returns - by the strict pattern
    or, when that finds nothing, by the pattern that allows white space
    inside - is ["0x"] followed by 40 lowercase hexadecimal characters, also
    after the letter substitutions of [_process_frame]; empty text gives no
    address and the loose path gives no address twice.  [_normalize_address]
    then keeps every one of them unchanged, so the scan loop builds a record
    for each. *)
Theorem extracted_addresses_are_normalized (recognised : text) :
  (forall a, In a (extract_addresses recognised) -> normalized_address a)
  /\ extract_addresses [] = []
  /\ (scan strict_at 0 recognised = [] -> NoDup (extract_addresses recognised))
  /\ (forall nfkc flag a,
        In a (_process_frame nfkc flag recognised) -> normalized_address a)
  /\ (forall nfkc clock n,
        (forall a, normalized_address a -> nfkc a = a) ->
        map address (temp_records nfkc clock n (extract_addresses recognised))
        = extract_addresses recognised).
Proof.
  conjs.
  - intros a. apply extract_addresses_shape.
  - reflexivity.
  - intros Hnone. unfold extract_addresses.
    destruct recognised as [|c0 recognised]; [apply NoDup_nil_2|].
    rewrite Hnone. simpl unique_in_order at 1. cbv iota.
    apply unique_in_order_shape.
  - intros nfkc flag a. apply extract_addresses_shape.
  - intros nfkc clock n Hnfkc.
    assert (Forall normalized_address (extract_addresses recognised)) as Hall
      by (apply List.Forall_forall; intros a; apply extract_addresses_shape).
    revert n. induction Hall as [|a l Ha _ IH]; intros n; [done|].
    cbn [temp_records].
    rewrite normalize_address_fixes_normalized by (done || by apply Hnfkc).
    simpl. by rewrite IH.
Qed.

Lemma extracted_addresses_are_normalized_witness :
  let recognised :=
    str "buy 0X00000000000000000000 000000000000000000AA now" in
  extract_addresses recognised = [sample_address]
  /\ map address
       (temp_records (fun t => t) (fun _ => mk_datetime 2024 1 1 12 0 5 0) 0
          (extract_addresses recognised))
     = extract_addresses recognised.
Proof.
  intros recognised. split; [vm_compute; reflexivity|].
  by apply (extracted_addresses_are_normalized recognised).
Defined.

Example extract_addresses_strict_keeps_case_variants :
  extract_addresses
    (str "0x00000000000000000000000000000000000000AA 0x00000000000000000000000000000000000000aa")
  = [sample_address; sample_address].
Proof. vm_compute. reflexivity. Qed.

(** ** Selector lists from the environment *)

Lemma split_sep_nonempty (sep : ascii) (s : text) : split_sep sep s <> [].
Proof. induction s as [|c s IH]; simpl; [done|]. by destruct (chr_eqb c sep). Qed.

(** [split_sep] loses nothing: joining the pieces gives the text back. *)
Lemma join_split_sep (sep : ascii) (s : text) : join_sep sep (split_sep sep s) = s.
Proof.
  induction s as [|c s IH]; [reflexivity|].
  cbn [split_sep]. pose proof (split_sep_nonempty sep s) as Hne.
  destruct (split_sep sep s) as [|p rest]; [done|]. clear Hne.
  destruct (chr_eqb c sep) eqn:Hc.
  - apply Ascii.eqb_eq in Hc as ->.
    change (join_sep sep ([] :: p :: rest)) with (sep :: join_sep sep (p :: rest)).
    by rewrite IH.
  - cbn [hd tl]. destruct rest as [|q rest].
    + change (c :: p = c :: s). change (p = s) in IH. by rewrite IH.
    + change (c :: (p ++ sep :: join_sep sep (q :: rest)) = c :: s).
      change (p ++ sep :: join_sep sep (q :: rest) = s) in IH. by rewrite IH.
Qed.

Lemma split_sep_pieces (sep : ascii) (s : text) :
  Forall (fun p => ~ In sep p) (split_sep sep s).
Proof.
  induction s as [|c s IH]; [simpl; constructor; [by intros []|constructor]|].
  cbn [split_sep]. pose proof (split_sep_nonempty sep s) as Hne.
  destruct (split_sep sep s) as [|p rest]; [done|].
  inversion IH as [|? ? Hp Hrest]; subst.
  destruct (chr_eqb c sep) eqn:Hc.
  - constructor; [by intros []|exact IH].
  - cbn [hd tl]. constructor; [|exact Hrest].
    intros [->|Hin]; [|by apply Hp].
    unfold chr_eqb in Hc. by rewrite Ascii.eqb_refl in Hc.
Qed.

Lemma in_lstrip (c : ascii) (s : text) : In c (lstrip s) -> In c s.
Proof.
  induction s as [|d s IH]; [done|]. simpl.
  destruct (is_space d); [by right; apply IH|]. by intros H.
Qed.

Lemma in_rstrip (c : ascii) (s : text) : In c (rstrip s) -> In c s.
Proof.
  induction s as [|d s IH]; [done|]. simpl.
  destruct (rstrip s) as [|k kept].
  - destruct (is_space d); [done|]. intros [->|[]]. by left.
  - intros [->|Hin]; [by left|]. right. by apply IH.
Qed.

Lemma in_strip (c : ascii) (s : text) : In c (strip s) -> In c s.
Proof. intros H. by apply in_lstrip, in_rstrip. Qed.

(** X21. Every selector [_env_selectors] returns is non-empty, carries no
    white space at either end and contains no comma; the selectors are the
    stripped non-empty pieces of the source, in order.  The legacy variable
    wins whenever it is set: set to the empty string (or to commas and
    white space only) it leaves no selector at all, whatever the current
    variable and the default hold. *)
Theorem env_selectors_are_stripped_pieces
    (getenv : text -> option text) (name default : text) (legacy : option text) :
  (forall s, In s (_env_selectors getenv name default legacy) ->
     s <> [] /\ strip s = s /\ ~ In ","%char s)
  /\ (forall l v, legacy = Some l -> l <> [] -> getenv l = Some v ->
        Forall (fun c => is_space c = true \/ c = ","%char) v ->
        _env_selectors getenv name default legacy = [])
  /\ (forall l v, legacy = Some l -> l <> [] -> getenv l = Some v ->
        forall other_name other_default,
          _env_selectors getenv other_name other_default legacy
          = _env_selectors getenv name default legacy).
Proof.
  conjs.
  - intros s Hs. unfold _env_selectors in Hs.
    apply in_map_iff in Hs as (item & <- & Hitem).
    apply filter_In in Hitem as [Hitem Hne]. conjs.
    + intros Hnil. by rewrite Hnil in Hne.
    + apply strip_idem.
    + intros Hin%in_strip.
      match type of Hitem with In _ (split_sep _ ?src) =>
        pose proof (split_sep_pieces "," src) as Hpieces end.
      rewrite List.Forall_forall in Hpieces. by apply (Hpieces item).
  - intros l v -> Hl Hv Hall. unfold _env_selectors.
    destruct l as [|l0 l]; [done|]. cbv beta iota zeta. rewrite Hv.
    match goal with |- map _ ?flt = _ => assert (flt = []) as ->; [|done] end.
    apply filter_none. intros item Hitem.
    assert (forall c, In c item -> is_space c = true) as Hspaces.
    { intros c Hc.
      pose proof (split_sep_pieces "," v) as Hpieces.
      rewrite List.Forall_forall in Hpieces, Hall.
      assert (In c v) as Hcv.
      { rewrite <- (join_split_sep "," v).
        clear -Hitem Hc. induction (split_sep "," v) as [|p rest IH]; [done|].
        destruct Hitem as [->|Hitem].
        - destruct rest; simpl; [done|]. apply in_or_app. by left.
        - destruct rest as [|q rest]; [done|]. cbn [join_sep].
          apply in_or_app. right. right. by apply IH. }
      destruct (Hall c Hcv) as [Hsp| ->]; [done|].
      by destruct (Hpieces item Hitem). }
    assert (lstrip item = []) as Hl0.
    { clear -Hspaces. induction item as [|c item IH]; [done|].
      simpl. rewrite (Hspaces c) by by left.
      apply IH. intros d Hd. apply Hspaces. by right. }
    unfold strip. by rewrite Hl0.
  - intros l v -> Hl Hv other_name other_default. unfold _env_selectors.
    destruct l as [|l0 l]; [done|]. cbv beta iota zeta. by rewrite Hv.
Qed.

Lemma env_selectors_are_stripped_pieces_witness :
  let getenv := fun k : text =>
    if bool_decide (k = str "BINANCE_MAX_BUY_SELECTOR") then Some (str " , ")
    else if bool_decide (k = str "BINANCE_MAX_BUY_SELECTORS") then Some (str "button.max")
    else None in
  _env_selectors getenv (str "BINANCE_MAX_BUY_SELECTORS") (str "button:has-text('Max')")
    (Some (str "BINANCE_MAX_BUY_SELECTOR")) = []
  /\ _env_selectors getenv (str "BINANCE_MAX_BUY_SELECTORS")
       (str " a[href*='/swap'] ,, button ") None
     = [str "button.max"]
  /\ _env_selectors (fun _ => None) (str "BINANCE_MAX_BUY_SELECTORS")
       (str " a[href*='/swap'] ,, button ") None
     = [str "a[href*='/swap']"; str "button"].
Proof.
  intros getenv. split; [|split; vm_compute; reflexivity].
  destruct (env_selectors_are_stripped_pieces getenv
              (str "BINANCE_MAX_BUY_SELECTORS") (str "button:has-text('Max')")
              (Some (str "BINANCE_MAX_BUY_SELECTOR"))) as (_ & Hempty & _).
  apply (Hempty (str "BINANCE_MAX_BUY_SELECTOR") (str " , ")).
  - reflexivity.
  - discriminate.
  - vm_compute. reflexivity.
  - repeat constructor; vm_compute; by (left + right).
Defined.
